(** * Surplus preprocessor: tokenizer, parser, transforms, code generator
      and source-map extraction, embedded from the JavaScript/TypeScript
      sources, with the properties of the specification settled on them. *)

From Stdlib Require Import List NArith ZArith Bool Arith Lia Ascii.
From Stdlib Require String DecimalString DecimalN Sorted.
Import ListNotations String.StringSyntax.
Local Open Scope string_scope.

Open Scope N_scope.

(** ** JavaScript strings

    A JavaScript string is a sequence of 16-bit code units.  A code unit is
    an [N]; string literals of the sources are written [js "..."]. *)

Definition char := N.
Definition str := list char.

Definition js (s : String.string) : str :=
  map N_of_ascii (String.list_ascii_of_string s).

Definition cNul : char := 0.
Definition cTab : char := 9.
Definition cNl : char := 10.    (* \n *)
Definition cCr : char := 13.    (* \r *)
Definition cSpace : char := 32.
Definition cBang : char := 33.  (* ! *)
Definition cDq : char := 34.    (* double quote *)
Definition cHash : char := 35.  (* # *)
Definition cAmp : char := 38.   (* & *)
Definition cSq : char := 39.    (* single quote *)
Definition cLpar : char := 40.
Definition cRpar : char := 41.
Definition cStar : char := 42.
Definition cComma : char := 44.
Definition cMinus : char := 45.
Definition cDot : char := 46.
Definition cSlash : char := 47.
Definition cSemi : char := 59.
Definition cLt : char := 60.
Definition cEq : char := 61.
Definition cGt : char := 62.
Definition cAt : char := 64.
Definition cLbrk : char := 91.
Definition cBsl : char := 92.   (* backslash *)
Definition cRbrk : char := 93.
Definition cUnd : char := 95.   (* _ *)
Definition cLbrc : char := 123.
Definition cRbrc : char := 125.

Definition DQ : str := [cDq].

Fixpoint eqs (a b : str) : bool :=
  match a, b with
  | [], [] => true
  | x :: a', y :: b' => (x =? y) && eqs a' b'
  | _, _ => false
  end.

Fixpoint startsWith (p s : str) : bool :=
  match p, s with
  | [], _ => true
  | x :: p', y :: s' => (x =? y) && startsWith p' s'
  | _ :: _, [] => false
  end.

(** [s.indexOf(p) >= 0] *)
Fixpoint contains (p s : str) : bool :=
  startsWith p s || match s with [] => false | _ :: s' => contains p s' end.

Definition inRange (lo hi c : char) : bool := (lo <=? c) && (c <=? hi).
Definition isDigit (c : char) : bool := inRange 48 57 c.
Definition isUpper (c : char) : bool := inRange 65 90 c.
Definition isLower (c : char) : bool := inRange 97 122 c.
Definition isAlpha (c : char) : bool := isUpper c || isLower c.
(** [\w] *)
Definition isWord (c : char) : bool := isAlpha c || isDigit c || (c =? cUnd).
(** [\s] of ECMAScript: white space and line terminators. *)
Definition isSpace (c : char) : bool :=
  inRange 9 13 c || (c =? 32) || (c =? 160) || (c =? 5760) || inRange 8192 8202 c
  || (c =? 8232) || (c =? 8233) || (c =? 8239) || (c =? 8287) || (c =? 12288)
  || (c =? 65279).

(** Decimal rendering of a number, as string concatenation with a number does. *)
Definition numStr (n : N) : str :=
  js (DecimalString.NilZero.string_of_uint (N.to_uint n)).

(** [a.join(sep)] *)
Fixpoint join (sep : str) (l : list str) : str :=
  match l with
  | [] => []
  | [x] => x
  | x :: r => x ++ sep ++ join sep r
  end.

(** ** Tokenizer ([rx.tokens], [tokenize])

    The regular expression is an ordered alternation of nineteen fixed
    tokens followed by the "misc" run.  [fixedToken] gives the length matched
    by the first of the fixed alternatives that matches at the head of [s]. *)

Definition nextIsWord (s : str) : bool :=
  match s with c :: _ => isWord c | [] => false end.

Definition fixedToken (s : str) : option nat :=
  match s with
  | [] => None
  | c :: r =>
    (* tag openers: angle, optional slash, then a word character ahead *)
    if (c =? cLt) && startsWith [cSlash] r && nextIsWord (skipn 1 r) then Some 2%nat
    else if (c =? cLt) && nextIsWord r then Some 1%nat
    (* tag closers *)
    else if (c =? cSlash) && startsWith [cGt] r then Some 2%nat
    else if c =? cGt then Some 1%nat
    (* html comment opener and closer *)
    else if startsWith (js "<!--") s then Some 4%nat
    else if startsWith (js "-->") s then Some 3%nat
    (* at, equals *)
    else if (c =? cAt) || (c =? cEq) then Some 1%nat
    (* JSX spread opener *)
    else if startsWith (js "{...") s then Some 4%nat
    (* single-character brackets and the two quote characters *)
    else if (c =? cRpar) || (c =? cLpar) || (c =? cLbrk) || (c =? cRbrk)
            || (c =? cLbrc) || (c =? cRbrc) || (c =? cDq) || (c =? cSq) then Some 1%nat
    (* line comment opener, newline, block comment opener and closer *)
    else if startsWith (js "//") s then Some 2%nat
    else if c =? cNl then Some 1%nat
    else if startsWith (js "/*") s then Some 2%nat
    else if startsWith (js "*/") s then Some 2%nat
    else None
  end.

(** The characters excluded by the negated class that opens the misc
    alternative: angle brackets, at, equals, slash, the six brackets, both
    quotes, newline, star and minus. *)
Definition isSpecial (c : char) : bool :=
  (c =? cLt) || (c =? cGt) || (c =? cAt) || (c =? cEq) || (c =? cSlash)
  || (c =? cLpar) || (c =? cRpar) || (c =? cLbrk) || (c =? cRbrk)
  || (c =? cLbrc) || (c =? cRbrc) || (c =? cDq) || (c =? cSq)
  || (c =? cNl) || (c =? cStar) || (c =? cMinus).

(** Length of the maximal run matched by the misc alternative at the head of
    [s] ([0] when it does not match there).  One iteration takes an ordinary
    character; a minus that does not start the html comment closer; a slash
    not followed by a closing angle, a slash or a star; a star not followed by
    a slash; or an opening angle with an optional slash, when the angle starts
    neither a tag opener nor an html comment opener. *)
Fixpoint miscRun (s : str) : nat :=
  match s with
  | [] => 0%nat
  | c :: r =>
    if negb (isSpecial c) then S (miscRun r)
    else if c =? cMinus then
      if startsWith (js "->") r then 0%nat else S (miscRun r)
    else if c =? cSlash then
      match r with
      | d :: _ => if (d =? cGt) || (d =? cSlash) || (d =? cStar) then 0%nat else S (miscRun r)
      | [] => S (miscRun r)
      end
    else if c =? cStar then
      if startsWith [cSlash] r then 0%nat else S (miscRun r)
    else if c =? cLt then
      if nextIsWord r || (startsWith [cSlash] r && nextIsWord (skipn 1 r))
         || startsWith (js "!--") r then 0%nat
      else match r with
           | d :: r' => if d =? cSlash then S (S (miscRun r')) else S (miscRun r)
           | [] => S (miscRun r)
           end
    else 0%nat
  end.

(** [str.match(rx.tokens)]: the successive matches from left to right; a
    position where nothing matches is skipped by the regular-expression
    engine. *)
Fixpoint tokens (fuel : nat) (s : str) : list str :=
  match fuel, s with
  | _, [] => []
  | O, _ => []
  | S f, _ :: _ =>
    match fixedToken s with
    | Some n => firstn n s :: tokens f (skipn n s)
    | None =>
      match miscRun s with
      | O => tokens f (skipn 1 s)
      | n => firstn n s :: tokens f (skipn n s)
      end
    end
  end.

Definition tokenize (s : str) : list str := tokens (length s) s.

Example tokenize_ex1 :
  tokenize (js "let x = <div onClick={f}>hi</div>;")
  = map js ["let x "; "="; " "; "<"; "div onClick"; "="; "{"; "f"; "}"; ">"; "hi";
            "</"; "div"; ">"; ";"].
Proof. vm_compute. reflexivity. Qed.

Example tokenize_ex2 :
  tokenize (js "a <!-- b --> c-d /* e */ // f {...g} </ <//x")
  = map js ["a "; "<!--"; " b "; "-->"; " c-d "; "/*"; " e "; "*/"; " "; "//"; " f ";
            "{..."; "g"; "}"; " </ <//x"].
Proof. vm_compute. reflexivity. Qed.

(** ** AST (the classes of the AST module) *)

Record LOC := mkLOC { line : N; col : N; pos : N }.

Inductive CodeSegment :=
  | CodeText (text : str) (loc : LOC)
  | SegElement (e : HtmlElement)
with HtmlElement :=
  | mkHtmlElement (tag : str) (properties : list Property) (content : list Content)
                  (loc : LOC)
with Property :=
  | StaticProperty (name value : str)
  | DynamicProperty (name : str) (code : list CodeSegment) (loc : LOC)
  | Mixin (code : list CodeSegment) (loc : LOC)
with Content :=
  | ContElement (e : HtmlElement)
  | HtmlText (text : str)
  | HtmlComment (text : str)
  | HtmlInsert (code : list CodeSegment) (loc : LOC).

(** [EmbeddedCode] and [CodeTopLevel] both wrap a list of segments; the
    embedded code of a property or insert is kept as that list. *)
Definition EmbeddedCode := list CodeSegment.
Record CodeTopLevel := mkCodeTopLevel { segments : list CodeSegment }.

Definition tagOf (e : HtmlElement) : str := let 'mkHtmlElement t _ _ _ := e in t.
Definition propertiesOf (e : HtmlElement) : list Property :=
  let 'mkHtmlElement _ p _ _ := e in p.
Definition contentOf (e : HtmlElement) : list Content :=
  let 'mkHtmlElement _ _ c _ := e in c.
Definition locOf (e : HtmlElement) : LOC := let 'mkHtmlElement _ _ _ l := e in l.

Definition isMixin (p : Property) : bool :=
  match p with Mixin _ _ => true | _ => false end.
Definition isStatic (p : Property) : bool :=
  match p with StaticProperty _ _ => true | _ => false end.
Definition isText (c : Content) : bool :=
  match c with HtmlText _ => true | _ => false end.
(** [p.name]; a Mixin has none. *)
Definition propName (p : Property) : option str :=
  match p with
  | StaticProperty n _ => Some n
  | DynamicProperty n _ _ => Some n
  | Mixin _ _ => None
  end.

(** ** Results of fallible code

    [Throw] is a JavaScript exception (the parser's [ERR], or a [TypeError]
    of the code generator); [OutOfFuel] only says that the fuel given to the
    model was too small. *)

Inductive Res (A : Type) : Type :=
  | Ok (a : A)
  | Throw (msg : str)
  | OutOfFuel.
Arguments Ok {A} a.
Arguments Throw {A} msg.
Arguments OutOfFuel {A}.

Definition bindR {A B} (m : Res A) (k : A -> Res B) : Res B :=
  match m with Ok a => k a | Throw e => Throw e | OutOfFuel => OutOfFuel end.

(** ** Parser ([parse])

    The parser state is the closure state of [parse]: the current token
    [TOK] (shortened in place by [SPLIT]), the tokens after index [i] and the
    current position.  [EOF] is as in the source. *)

Record PState := mkPState {
  TOK : str;
  rest : list str;          (* TOKS[i+1 ..] *)
  EOF : bool;
  LINE : N;
  COL : N;
  POS : N
}.

Definition P (A : Type) : Type := PState -> Res (A * PState).
Definition retP {A} (a : A) : P A := fun st => Ok (a, st).
Definition bindP {A B} (m : P A) (k : A -> P B) : P B :=
  fun st => match m st with
            | Ok (a, st') => k a st'
            | Throw e => Throw e
            | OutOfFuel => OutOfFuel
            end.
Definition getP : P PState := fun st => Ok (st, st).

Declare Scope parser_scope.
Delimit Scope parser_scope with parser.
Notation "x <- m ;; k" := (bindP m (fun x => k))
  (at level 61, m at next level, right associativity) : parser_scope.
Notation "m ;;; k" := (bindP m (fun _ => k))
  (at level 61, right associativity) : parser_scope.

(** [s.replace(c, "")] with a one-character string pattern: the first
    occurrence only. *)
Fixpoint removeFirst (c : char) (s : str) : str :=
  match s with
  | [] => []
  | x :: r => if x =? c then r else x :: removeFirst c r
  end.

Definition lenN (s : str) : N := N.of_nat (length s).

(** The value of [parens[TOK]]: a closing bracket, or, for a token that
    names a member inherited from [Object.prototype], that member, which is
    truthy and equal to no token. *)
Inductive ParenEnd := Closer (t : str) | Inherited.

Definition objectPrototypeKeys : list str :=
  map js ["constructor"; "hasOwnProperty"; "isPrototypeOf"; "propertyIsEnumerable";
          "toLocaleString"; "toString"; "valueOf"; "__proto__";
          "__defineGetter__"; "__defineSetter__"; "__lookupGetter__";
          "__lookupSetter__"].

Definition parens (t : str) : option ParenEnd :=
  if eqs t (js "(") then Some (Closer (js ")"))
  else if eqs t (js "[") then Some (Closer (js "]"))
  else if eqs t (js "{") then Some (Closer (js "}"))
  else if eqs t (js "{...") then Some (Closer (js "}"))
  else if existsb (eqs t) objectPrototypeKeys then Some Inherited
  else None.

(** Prefix matched by a regular expression of the form [^[class]+]. *)
Fixpoint spanLen (f : char -> bool) (s : str) : nat :=
  match s with
  | c :: r => if f c then S (spanLen f r) else O
  | [] => O
  end.

(** [rx.identifier]: a letter followed by word characters. *)
Definition matchIdentifier (s : str) : nat :=
  match s with
  | c :: r => if isAlpha c then S (spanLen isWord r) else O
  | [] => O
  end.
Definition matchLeadingWs (s : str) : nat := spanLen isSpace s.
Definition isCodeTerminator (c : char) : bool :=
  isSpace c || (c =? cLt) || (c =? cGt) || (c =? cSlash) || (c =? cComma)
  || (c =? cSemi) || (c =? cRpar) || (c =? cRbrk) || (c =? cRbrc).
Definition matchCodeTerminator (s : str) : bool :=
  match s with c :: _ => isCodeTerminator c | [] => false end.
Definition matchCodeContinuation (s : str) : nat :=
  spanLen (fun c => negb (isCodeTerminator c)) s.

(** [rx.stringEscapedEnd]: a character other than a backslash, then an odd
    number of backslashes, then the end of the string. *)
Fixpoint trailingBackslashes (r : str) : option nat :=
  (* on the reversed string: the backslashes before the first other character *)
  match r with
  | [] => None
  | c :: r' => if c =? cBsl then option_map S (trailingBackslashes r') else Some O
  end.
Definition stringEscapedEnd (text : str) : bool :=
  match trailingBackslashes (rev text) with
  | Some n => Nat.odd n
  | None => false
  end.

Section Parser.

Variable TOKS : list str.
Variable jsx : bool.       (* opts.jsx *)

Local Open Scope parser_scope.

Definition LOC_ : P LOC := fun st => Ok (mkLOC (LINE st) (COL st) (POS st), st).

Definition NEXT : P unit := fun st =>
  let '(l, c, p) :=
    if eqs (TOK st) [cNl] then (LINE st + 1, 0, POS st + 1)
    else (LINE st, COL st + lenN (TOK st), POS st + lenN (TOK st)) in
  match rest st with
  | [] => Ok (tt, mkPState [] [] true l c p)
  | t :: r => Ok (tt, mkPState t r (EOF st) l c p)
  end.

(** [ERR(msg, loc)]: the message with the position and a 30-character
    excerpt of the source. *)
Definition errText (msg : str) (loc : LOC) : str :=
  msg ++ js " at line " ++ numStr (line loc) ++ js " col " ++ numStr (col loc)
      ++ js ": ``"
      ++ removeFirst cCr (removeFirst cNl
           (firstn 30 (skipn (N.to_nat (pos loc)) (concat TOKS))))
      ++ js "''".

Definition ERR {A} (msg : String.string) (loc : option LOC) : P A := fun st =>
  Throw (errText (js msg)
           (match loc with Some l => l | None => mkLOC (LINE st) (COL st) (POS st) end)).

Definition IS (t : String.string) : P bool := fun st => Ok (eqs (TOK st) (js t), st).
Definition NOT (t : String.string) : P bool :=
  fun st => Ok (negb (eqs (TOK st) (js t)), st).
Definition isEOF : P bool := fun st => Ok (EOF st, st).
Definition curTOK : P str := fun st => Ok (TOK st, st).
Definition PARENS : P (option ParenEnd) := fun st => Ok (parens (TOK st), st).

(** [SPLIT(rx)], given the length [n] of the match of [rx] on [TOK]. *)
Definition SPLIT (rx : str -> nat) : P str := fun st =>
  match rx (TOK st) with
  | O => Ok ([], st)
  | n =>
    let m := firstn n (TOK st) in
    let st' := mkPState (skipn n (TOK st)) (rest st) (EOF st) (LINE st)
                        (COL st + lenN m) (POS st + lenN m) in
    match TOK st' with
    | [] => match NEXT st' with
            | Ok (_, st'') => Ok (m, st'')
            | Throw e => Throw e
            | OutOfFuel => OutOfFuel
            end
    | _ :: _ => Ok (m, st')
    end
  end.

Fixpoint SKIPWS (fuel : nat) : P unit :=
  match fuel with
  | O => fun _ => OutOfFuel
  | S f =>
    t <- curTOK ;;
    if eqs t [cNl] then NEXT ;;; SKIPWS f
    else match matchLeadingWs t with
         | O => retP tt
         | _ => SPLIT matchLeadingWs ;;; SKIPWS f
         end
  end.

Definition isQuoteTok (t : str) : bool := eqs t [cSq] || eqs t [cDq].

Fixpoint quotedLoop (fuel : nat) (quote text : str) (start : LOC) : P str :=
  match fuel with
  | O => fun _ => OutOfFuel
  | S f =>
    eof <- isEOF ;; t <- curTOK ;;
    if negb eof && (negb (eqs t quote) || stringEscapedEnd text)
    then NEXT ;;; quotedLoop f quote (text ++ t) start
    else if eof then ERR "unterminated string" (Some start)
    else NEXT ;;; retP (text ++ t)
  end.

Definition quotedString (fuel : nat) : P str :=
  t <- curTOK ;;
  if negb (isQuoteTok t) then ERR "not in quoted string" None
  else start <- LOC_ ;; NEXT ;;; quotedLoop fuel t t start.

Fixpoint singleLineLoop (fuel : nat) (text : str) : P str :=
  match fuel with
  | O => fun _ => OutOfFuel
  | S f =>
    eof <- isEOF ;; t <- curTOK ;;
    if negb eof && negb (eqs t [cNl])
    then NEXT ;;; singleLineLoop f (text ++ t)
    else if negb eof then NEXT ;;; retP (text ++ t)
    else retP text
  end.

Definition codeSingleLineComment (fuel : nat) : P str :=
  b <- NOT "//" ;;
  if b then ERR "not in code comment" None else singleLineLoop fuel [].

Fixpoint multiLineLoop (fuel : nat) (text : str) (start : LOC) : P str :=
  match fuel with
  | O => fun _ => OutOfFuel
  | S f =>
    eof <- isEOF ;; t <- curTOK ;;
    if negb eof && negb (eqs t (js "*/"))
    then NEXT ;;; multiLineLoop f (text ++ t) start
    else if eof then ERR "unterminated multi-line comment" (Some start)
    else NEXT ;;; retP (text ++ t)
  end.

Definition codeMultiLineComment (fuel : nat) : P str :=
  b <- NOT "/*" ;;
  if b then ERR "not in code comment" None
  else start <- LOC_ ;; multiLineLoop fuel [] start.

Fixpoint htmlTextLoop (fuel : nat) (text : str) : P Content :=
  match fuel with
  | O => fun _ => OutOfFuel
  | S f =>
    eof <- isEOF ;; t <- curTOK ;;
    if negb eof && negb (eqs t (js "<")) && negb (eqs t (js "<!--"))
       && (if jsx then negb (eqs t (js "{")) else negb (eqs t (js "@")))
       && negb (eqs t (js "</"))
    then NEXT ;;; htmlTextLoop f (text ++ t)
    else retP (HtmlText text)
  end.

Definition htmlText (fuel : nat) : P Content := htmlTextLoop fuel [].

Fixpoint htmlCommentLoop (fuel : nat) (text : str) (start : LOC) : P Content :=
  match fuel with
  | O => fun _ => OutOfFuel
  | S f =>
    eof <- isEOF ;; t <- curTOK ;;
    if negb eof && negb (eqs t (js "-->"))
    then NEXT ;;; htmlCommentLoop f (text ++ t) start
    else if eof then ERR "unterminated html comment" (Some start)
    else NEXT ;;; retP (HtmlComment text)
  end.

Definition htmlComment (fuel : nat) : P Content :=
  b <- NOT "<!--" ;;
  if b then ERR "not in HTML comment" None
  else start <- LOC_ ;; NEXT ;;; htmlCommentLoop fuel [] start.

(** The state that [balancedParens] shares with its caller: the segment
    array and the [loc] object are mutated in place, the text is returned. *)
Record CodeAcc := mkCodeAcc {
  accSegments : list CodeSegment;
  accText : str;
  accLoc : LOC
}.

Definition pushText (a : CodeAcc) : list CodeSegment :=
  match accText a with
  | [] => accSegments a
  | _ :: _ => accSegments a ++ [CodeText (accText a) (accLoc a)]
  end.

Definition endIs (e : ParenEnd) (t : str) : bool :=
  match e with Closer c => eqs t c | Inherited => false end.

(** The non-recursive wrappers take the parser of embedded code they call. *)
Definition htmlInsert (embeddedCode : P EmbeddedCode) : P Content :=
  b <- NOT "@" ;;
  if b then ERR "not at start of code insert" None
  else loc <- LOC_ ;; NEXT ;;; code <- embeddedCode ;; retP (HtmlInsert code loc).

Definition jsxHtmlInsert (jsxEmbeddedCode : P EmbeddedCode) : P Content :=
  loc <- LOC_ ;; code <- jsxEmbeddedCode ;; retP (HtmlInsert code loc).

Definition mixin (embeddedCode : P EmbeddedCode) : P Property :=
  b <- NOT "@" ;;
  if b then ERR "not at start of mixin" None
  else loc <- LOC_ ;; NEXT ;;; code <- embeddedCode ;; retP (Mixin code loc).

Definition jsxMixin (jsxEmbeddedCode : P EmbeddedCode) : P Property :=
  b <- NOT "{..." ;;
  if b then ERR "not at start of JSX mixin" None
  else loc <- LOC_ ;; code <- jsxEmbeddedCode ;; retP (Mixin code loc).

Definition property (fuel : nat) (embeddedCode jsxEmbeddedCode : P EmbeddedCode)
  : P Property :=
  t <- curTOK ;;
  match matchIdentifier t with
  | O => ERR "not at start of property declaration" None
  | _ =>
    loc <- LOC_ ;; name <- SPLIT matchIdentifier ;;
    SKIPWS fuel ;;;
    b <- NOT "=" ;;
    if b then ERR "expected equals sign after property name" None
    else
      NEXT ;;; SKIPWS fuel ;;;
      t <- curTOK ;;
      if isQuoteTok t then v <- quotedString fuel ;; retP (StaticProperty name v)
      else if jsx && eqs t (js "{") then
        code <- jsxEmbeddedCode ;; retP (DynamicProperty name code loc)
      else if negb jsx then
        code <- embeddedCode ;; retP (DynamicProperty name code loc)
      else ERR "unexepected value for JSX property" None
  end.

(** [jsxEmbeddedCode] after its call of [balancedParens]: drop the closing
    brace, push the last text, and cut the opening token from the first
    segment, whose [loc] object gets its column moved. *)
Definition jsxFinish (prefixLength : nat) (segs : list CodeSegment) (last : str)
  (loc : LOC) : Res EmbeddedCode :=
  let last := firstn (length last - 1) last in
  match segs with
  | [] =>
    (* first is the segment just pushed and shares [loc] *)
    Ok [CodeText (skipn prefixLength last)
                 (mkLOC (line loc) (col loc + N.of_nat prefixLength) (pos loc))]
  | CodeText t l :: r =>
    Ok (CodeText (skipn prefixLength t)
                 (mkLOC (line l) (col l + N.of_nat prefixLength) (pos l))
          :: r ++ [CodeText last loc])
  | SegElement _ :: _ =>
    Throw (js "TypeError: Cannot read property 'substr' of undefined")
  end.

Fixpoint htmlElement (fuel : nat) : P HtmlElement :=
  match fuel with
  | O => fun _ => OutOfFuel
  | S f =>
    b <- NOT "<" ;;
    if b then ERR "not at start of html element" None
    else
      start <- LOC_ ;;
      NEXT ;;;
      tag <- SPLIT matchIdentifier ;;
      match tag with
      | [] => ERR "bad element name" (Some start)
      | _ :: _ =>
        SKIPWS f ;;;
        properties <- propertiesLoop f [] ;;
        eof <- isEOF ;;
        if eof then ERR "unterminated start node" (Some start)
        else
          hasContent <- IS ">" ;;
          NEXT ;;;
          if hasContent then
            content <- contentLoop f [] ;;
            eof <- isEOF ;;
            if eof then ERR "element missing close tag" (Some start)
            else
              NEXT ;;;
              closing <- SPLIT matchIdentifier ;;
              if negb (eqs tag closing)
              then ERR "mismatched open and close tags" (Some start)
              else
                b <- NOT ">" ;;
                if b then ERR "malformed close tag" None
                else NEXT ;;; retP (mkHtmlElement tag properties content start)
          else retP (mkHtmlElement tag properties [] start)
      end
  end

with propertiesLoop (fuel : nat) (properties : list Property) : P (list Property) :=
  match fuel with
  | O => fun _ => OutOfFuel
  | S f =>
    eof <- isEOF ;; t <- curTOK ;;
    if negb eof && negb (eqs t (js ">")) && negb (eqs t (js "/>")) then
      p <- (match matchIdentifier t with
            | S _ => property f (embeddedCode f) (jsxEmbeddedCode f)
            | O =>
              if negb jsx && eqs t (js "@") then mixin (embeddedCode f)
              else if jsx && eqs t (js "{...") then jsxMixin (jsxEmbeddedCode f)
              else ERR "unrecognized content in begin tag" None
            end) ;;
      SKIPWS f ;;;
      propertiesLoop f (properties ++ [p])
    else retP properties
  end

with contentLoop (fuel : nat) (content : list Content) : P (list Content) :=
  match fuel with
  | O => fun _ => OutOfFuel
  | S f =>
    eof <- isEOF ;; t <- curTOK ;;
    if negb eof && negb (eqs t (js "</")) then
      c <- (if eqs t (js "<") then e <- htmlElement f ;; retP (ContElement e)
            else if negb jsx && eqs t (js "@") then htmlInsert (embeddedCode f)
            else if jsx && eqs t (js "{") then jsxHtmlInsert (jsxEmbeddedCode f)
            else if eqs t (js "<!--") then htmlComment f
            else htmlText f) ;;
      contentLoop f (content ++ [c])
    else retP content
  end

with embeddedCode (fuel : nat) : P EmbeddedCode :=
  match fuel with
  | O => fun _ => OutOfFuel
  | S f =>
    start <- LOC_ ;;
    a <- embeddedLoop f (mkCodeAcc [] [] start) ;;
    match pushText a with
    | [] => ERR "not in embedded code" (Some start)
    | segs => retP segs
    end
  end

with embeddedLoop (fuel : nat) (a : CodeAcc) : P CodeAcc :=
  match fuel with
  | O => fun _ => OutOfFuel
  | S f =>
    eof <- isEOF ;; t <- curTOK ;;
    if negb eof && negb (matchCodeTerminator t) then
      a' <- (match parens t with
             | Some _ => balancedParens f a
             | None =>
               if isQuoteTok t then
                 q <- quotedString f ;;
                 retP (mkCodeAcc (accSegments a) (accText a ++ q) (accLoc a))
               else
                 m <- SPLIT matchCodeContinuation ;;
                 retP (mkCodeAcc (accSegments a) (accText a ++ m) (accLoc a))
             end) ;;
      embeddedLoop f a'
    else retP a
  end

with jsxEmbeddedCode (fuel : nat) : P EmbeddedCode :=
  match fuel with
  | O => fun _ => OutOfFuel
  | S f =>
    t <- curTOK ;;
    if negb (eqs t (js "{")) && negb (eqs t (js "{..."))
    then ERR "not at start of JSX embedded code" None
    else
      loc <- LOC_ ;;
      a <- balancedParens f (mkCodeAcc [] [] loc) ;;
      fun st => match jsxFinish (length t) (accSegments a) (accText a) (accLoc a) with
                | Ok code => Ok (code, st)
                | Throw e => Throw e
                | OutOfFuel => OutOfFuel
                end
  end

with balancedParens (fuel : nat) (a : CodeAcc) : P CodeAcc :=
  match fuel with
  | O => fun _ => OutOfFuel
  | S f =>
    start <- LOC_ ;;
    t <- curTOK ;;
    match parens t with
    | None => ERR "not in parentheses" None
    | Some e =>
      NEXT ;;;
      a' <- balancedLoop f e (mkCodeAcc (accSegments a) (accText a ++ t) (accLoc a)) ;;
      eof <- isEOF ;;
      if eof then ERR "unterminated parentheses" (Some start)
      else
        t' <- curTOK ;;
        NEXT ;;;
        retP (mkCodeAcc (accSegments a') (accText a' ++ t') (accLoc a'))
    end
  end

with balancedLoop (fuel : nat) (e : ParenEnd) (a : CodeAcc) : P CodeAcc :=
  match fuel with
  | O => fun _ => OutOfFuel
  | S f =>
    eof <- isEOF ;; t <- curTOK ;;
    if negb eof && negb (endIs e t) then
      a' <- (if isQuoteTok t then
               q <- quotedString f ;;
               retP (mkCodeAcc (accSegments a) (accText a ++ q) (accLoc a))
             else if eqs t (js "//") then
               q <- codeSingleLineComment f ;;
               retP (mkCodeAcc (accSegments a) (accText a ++ q) (accLoc a))
             else if eqs t (js "/*") then
               q <- codeMultiLineComment f ;;
               retP (mkCodeAcc (accSegments a) (accText a ++ q) (accLoc a))
             else if eqs t (js "<") then
               el <- htmlElement f ;;
               loc <- LOC_ ;;
               retP (mkCodeAcc (pushText a ++ [SegElement el]) [] loc)
             else match parens t with
                  | Some _ => balancedParens f a
                  | None =>
                    NEXT ;;;
                    retP (mkCodeAcc (accSegments a) (accText a ++ t) (accLoc a))
                  end) ;;
      balancedLoop f e a'
    else retP a
  end.

Fixpoint codeTopLevelLoop (fuel : nat) (segs : list CodeSegment) (text : str)
  (loc : LOC) : P CodeTopLevel :=
  match fuel with
  | O => fun _ => OutOfFuel
  | S f =>
    eof <- isEOF ;; t <- curTOK ;;
    if negb eof then
      if eqs t (js "<") then
        el <- htmlElement f ;;
        loc' <- LOC_ ;;
        codeTopLevelLoop f (pushText (mkCodeAcc segs text loc) ++ [SegElement el]) [] loc'
      else if isQuoteTok t then
        q <- quotedString f ;; codeTopLevelLoop f segs (text ++ q) loc
      else if eqs t (js "//") then
        q <- codeSingleLineComment f ;; codeTopLevelLoop f segs (text ++ q) loc
      else if eqs t (js "/*") then
        q <- codeMultiLineComment f ;; codeTopLevelLoop f segs (text ++ q) loc
      else NEXT ;;; codeTopLevelLoop f segs (text ++ t) loc
    else retP (mkCodeTopLevel (pushText (mkCodeAcc segs text loc)))
  end.

Definition codeTopLevel (fuel : nat) : P CodeTopLevel :=
  loc <- LOC_ ;; codeTopLevelLoop fuel [] [] loc.

Definition initialState : PState :=
  match TOKS with
  | [] => mkPState [] [] true 0 0 0
  | t :: r => mkPState t r false 0 0 0
  end.

(** Every loop iteration and every call consumes at least one character or
    token, so this fuel is never exhausted on the way. *)
Definition parseFuel : nat := (length (concat TOKS) + length TOKS + 4)%nat.

Definition parse : Res CodeTopLevel :=
  match codeTopLevel parseFuel initialState with
  | Ok (ctl, _) => Ok ctl
  | Throw e => Throw e
  | OutOfFuel => OutOfFuel
  end.

End Parser.

Example parse_ex1 :
  parse (tokenize (js "let x = <div onClick={f}>hi</div>;")) true
  = Ok (mkCodeTopLevel
          [CodeText (js "let x = ") (mkLOC 0 0 0);
           SegElement (mkHtmlElement (js "div")
             [DynamicProperty (js "onClick") [CodeText (js "f") (mkLOC 0 22 21)]
                              (mkLOC 0 13 13)]
             [HtmlText (js "hi")] (mkLOC 0 8 8));
           CodeText (js ";") (mkLOC 0 33 33)]).
Proof. vm_compute. reflexivity. Qed.

(** ** Transforms

    A transform is an object of methods, one per node kind.  A method runs
    with a receiver ([this]); the receiver is always the composed transform
    [tf] itself, so every [this.X(node)] of [Copy] re-enters the whole
    pipeline.  [This] is a receiver whose methods are already bound, [Tx] an
    object of methods that still await their receiver. *)

Record This := mkThis {
  this_CodeTopLevel : CodeTopLevel -> option CodeTopLevel;
  this_CodeSegments : list CodeSegment -> option (list CodeSegment);
  this_EmbeddedCode : EmbeddedCode -> option EmbeddedCode;
  this_HtmlElement : HtmlElement -> option HtmlElement;
  this_HtmlInsert : EmbeddedCode -> LOC -> option Content;
  this_CodeText : str -> LOC -> option CodeSegment;
  this_HtmlText : str -> option Content;
  this_HtmlComment : str -> option Content;
  this_StaticProperty : str -> str -> option Property;
  this_DynamicProperty : str -> EmbeddedCode -> LOC -> option Property;
  this_Mixin : EmbeddedCode -> LOC -> option Property
}.

Record Tx := mkTx {
  tx_CodeTopLevel : This -> CodeTopLevel -> option CodeTopLevel;
  tx_CodeSegments : This -> list CodeSegment -> option (list CodeSegment);
  tx_EmbeddedCode : This -> EmbeddedCode -> option EmbeddedCode;
  tx_HtmlElement : This -> HtmlElement -> option HtmlElement;
  tx_HtmlInsert : This -> EmbeddedCode -> LOC -> option Content;
  tx_CodeText : This -> str -> LOC -> option CodeSegment;
  tx_HtmlText : This -> str -> option Content;
  tx_HtmlComment : This -> str -> option Content;
  tx_StaticProperty : This -> str -> str -> option Property;
  tx_DynamicProperty : This -> str -> EmbeddedCode -> LOC -> option Property;
  tx_Mixin : This -> EmbeddedCode -> LOC -> option Property
}.

(** [a.map(f)] for a callback that may fail to return. *)
Fixpoint mapM {A B} (f : A -> option B) (l : list A) : option (list B) :=
  match l with
  | [] => Some []
  | x :: r =>
    match f x with
    | Some y => option_map (cons y) (mapM f r)
    | None => None
    end
  end.

(** The callbacks that [Copy] maps over segments, properties and content. *)
Definition copySegment (this : This) (node : CodeSegment) : option CodeSegment :=
  match node with
  | CodeText t l => this_CodeText this t l
  | SegElement e => option_map SegElement (this_HtmlElement this e)
  end.

Definition copyProperty (this : This) (p : Property) : option Property :=
  match p with
  | StaticProperty n v => this_StaticProperty this n v
  | DynamicProperty n c l => this_DynamicProperty this n c l
  | Mixin c l => this_Mixin this c l
  end.

Definition copyContent (this : This) (c : Content) : option Content :=
  match c with
  | HtmlComment t => this_HtmlComment this t
  | HtmlText t => this_HtmlText this t
  | HtmlInsert c l => this_HtmlInsert this c l
  | ContElement e => option_map ContElement (this_HtmlElement this e)
  end.

Definition Copy : Tx := {|
  tx_CodeTopLevel := fun this node =>
    option_map mkCodeTopLevel (this_CodeSegments this (segments node));
  tx_CodeSegments := fun this segs => mapM (copySegment this) segs;
  tx_EmbeddedCode := fun this node => this_CodeSegments this node;
  tx_HtmlElement := fun this node =>
    let 'mkHtmlElement tag properties content loc := node in
    match mapM (copyProperty this) properties with
    | None => None
    | Some ps =>
      match mapM (copyContent this) content with
      | None => None
      | Some cs => Some (mkHtmlElement tag ps cs loc)
      end
    end;
  tx_HtmlInsert := fun this code loc =>
    option_map (fun c => HtmlInsert c loc) (this_EmbeddedCode this code);
  tx_CodeText := fun _ t l => Some (CodeText t l);
  tx_HtmlText := fun _ t => Some (HtmlText t);
  tx_HtmlComment := fun _ t => Some (HtmlComment t);
  tx_StaticProperty := fun _ n v => Some (StaticProperty n v);
  tx_DynamicProperty := fun this n code l =>
    option_map (fun c => DynamicProperty n c l) (this_EmbeddedCode this code);
  tx_Mixin := fun this code l =>
    option_map (fun c => Mixin c l) (this_EmbeddedCode this code)
|}.

(** [__assign({}, tx, { HtmlElement: f })] *)
Definition withHtmlElement (tx : Tx) (f : This -> HtmlElement -> option HtmlElement)
  : Tx :=
  mkTx (tx_CodeTopLevel tx) (tx_CodeSegments tx) (tx_EmbeddedCode tx) f
       (tx_HtmlInsert tx) (tx_CodeText tx) (tx_HtmlText tx) (tx_HtmlComment tx)
       (tx_StaticProperty tx) (tx_DynamicProperty tx) (tx_Mixin tx).

(** [rx.ws.test(text)] *)
Definition allWs (text : str) : bool := forallb isSpace text.
Definition lowerStart (tag : str) : bool :=
  match tag with c :: _ => isLower c | [] => false end.
Definition upperStart (tag : str) : bool :=
  match tag with c :: _ => isUpper c | [] => false end.
Definition jsxEventProperty (name : str) : bool :=
  match name with
  | o :: n :: c :: _ => (o =? 111) && (n =? 110) && isUpper c
  | _ => false
  end.

(** [toLowerCase] on the names the parser produces, which consist of the
    letters, digits and underscore of [rx.identifier]. *)
Definition toLowerCase (s : str) : str :=
  map (fun c => if isUpper c then c + 32 else c) s.

Definition translateJSXPropertyName (name : str) : str :=
  if jsxEventProperty name
  then (if eqs name (js "onDoubleClick") then js "ondblclick" else toLowerCase name)
  else name.

(** A JavaScript object used as a map from names to values: assigning an
    existing key keeps the key's place, a new key goes last. *)
Fixpoint objSet {V} (o : list (str * V)) (k : str) (v : V) : list (str * V) :=
  match o with
  | [] => [(k, v)]
  | (k', v') :: r => if eqs k' k then (k', v) :: r else (k', v') :: objSet r k v
  end.
Fixpoint objGet {V} (o : list (str * V)) (k : str) : option V :=
  match o with
  | [] => None
  | (k', v') :: r => if eqs k' k then Some v' else objGet r k
  end.

(** [a.forEach(f)] and [a.filter(f)] with the index passed to the callback. *)
Fixpoint foldIdx {A St} (f : St -> A -> nat -> St) (i : nat) (l : list A) (s : St)
  : St :=
  match l with
  | [] => s
  | x :: r => foldIdx f (S i) r (f s x i)
  end.
Fixpoint filterIdx {A} (f : A -> nat -> bool) (i : nat) (l : list A) : list A :=
  match l with
  | [] => []
  | x :: r => if f x i then x :: filterIdx f (S i) r else filterIdx f (S i) r
  end.

(** [codeStr] *)
Fixpoint escapeBackslashes (s : str) : str :=
  match s with
  | [] => []
  | c :: r => if c =? cBsl then cBsl :: cBsl :: escapeBackslashes r
              else c :: escapeBackslashes r
  end.
Fixpoint escapeSingleQuotes (s : str) : str :=
  match s with
  | [] => []
  | c :: r => if c =? cSq then cBsl :: cSq :: escapeSingleQuotes r
              else c :: escapeSingleQuotes r
  end.
Fixpoint escapeNewlines (s : str) : str :=
  match s with
  | [] => []
  | c :: r =>
    if c =? cNl then cBsl :: cNl :: escapeNewlines r
    else match r with
         | d :: r' => if (c =? cCr) && (d =? cNl) then cBsl :: cNl :: escapeNewlines r'
                      else c :: escapeNewlines r
         | [] => c :: escapeNewlines r
         end
  end.
Definition codeStr (s : str) : str :=
  [cSq] ++ escapeNewlines (escapeSingleQuotes (escapeBackslashes s)) ++ [cSq].

Definition nonWhitespace (c : Content) : bool :=
  negb (match c with HtmlText t => allWs t | _ => false end).

(** Each overlay replaces [HtmlElement] by a method that rewrites the node
    and then calls the method it overlays, with the same receiver.  The
    rewriting of the node is given a name of its own. *)
Definition dropWhitespace (node : HtmlElement) : HtmlElement :=
  let 'mkHtmlElement tag properties content loc := node in
  let nonWhitespaceContent := filter nonWhitespace content in
  if negb (length nonWhitespaceContent =? length content)%nat
  then mkHtmlElement tag properties nonWhitespaceContent loc
  else node.

Definition removeWhitespaceTextNodes (tx : Tx) : Tx :=
  withHtmlElement tx (fun this node => tx_HtmlElement tx this (dropWhitespace node)).

Definition lastidOf (properties : list Property) : list (str * nat) :=
  foldIdx (fun lastid p i =>
             match propName p with
             | None => lastid
             | Some n => objSet lastid n i
             end) 0%nat properties [].

Definition uniqueProperties (properties : list Property) : list Property :=
  let lastid := lastidOf properties in
  filterIdx (fun p i =>
               match propName p with
               | None => true
               | Some n => match objGet lastid n with
                           | Some j => (j =? i)%nat
                           | None => false
                           end
               end) 0%nat properties.

Definition dropDuplicates (node : HtmlElement) : HtmlElement :=
  let 'mkHtmlElement tag properties content loc := node in
  let uniqueProperties := uniqueProperties properties in
  if negb (length properties =? length uniqueProperties)%nat
  then mkHtmlElement tag uniqueProperties content loc
  else node.

Definition removeDuplicateProperties (tx : Tx) : Tx :=
  withHtmlElement tx (fun this node => tx_HtmlElement tx this (dropDuplicates node)).

Definition translateProperty (p : Property) : Property :=
  match p with
  | DynamicProperty n c l => DynamicProperty (translateJSXPropertyName n) c l
  | _ => p
  end.

Definition translateNames (node : HtmlElement) : HtmlElement :=
  let 'mkHtmlElement tag properties content loc := node in
  if lowerStart tag then
    let nonJSXProperties := map translateProperty properties in
    mkHtmlElement tag nonJSXProperties content loc
  else node.

Definition translateJSXPropertyNames (tx : Tx) : Tx :=
  withHtmlElement tx (fun this node => tx_HtmlElement tx this (translateNames node)).

Definition promoteText (node : HtmlElement) : HtmlElement :=
  let 'mkHtmlElement tag properties content loc := node in
  match content with
  | HtmlText text :: _ =>
    if lowerStart tag then
      let textContent := StaticProperty (js "textContent") (codeStr text) in
      mkHtmlElement tag (properties ++ [textContent]) (skipn 1 content) loc
    else node
  | _ => node
  end.

Definition promoteInitialTextNodesToTextContentProperties (tx : Tx) : Tx :=
  withHtmlElement tx (fun this node => tx_HtmlElement tx this (promoteText node)).

(** The active transforms, composed as in the source: the list reversed
    and folded over [Copy], so that the first listed runs outermost. *)
Definition tf : Tx :=
  fold_left (fun tf fn => fn tf)
    (rev [removeWhitespaceTextNodes;
          translateJSXPropertyNames;
          promoteInitialTextNodesToTextContentProperties;
          removeDuplicateProperties])
    Copy.

(** Binding the receiver.  With no fuel left a call does not return. *)
Definition stuck : This :=
  mkThis (fun _ => None) (fun _ => None) (fun _ => None) (fun _ => None)
         (fun _ _ => None) (fun _ _ => None) (fun _ => None) (fun _ => None)
         (fun _ _ => None) (fun _ _ _ => None) (fun _ _ => None).

Definition bindThis (tx : Tx) (this : This) : This :=
  mkThis (tx_CodeTopLevel tx this) (tx_CodeSegments tx this) (tx_EmbeddedCode tx this)
         (tx_HtmlElement tx this) (tx_HtmlInsert tx this) (tx_CodeText tx this)
         (tx_HtmlText tx this) (tx_HtmlComment tx this) (tx_StaticProperty tx this)
         (tx_DynamicProperty tx this) (tx_Mixin tx this).

Fixpoint tfThis (fuel : nat) : This :=
  match fuel with
  | O => stuck
  | S f => bindThis tf (tfThis f)
  end.

(** Nesting depth of the method calls that a node causes. *)
Fixpoint depthSeg (s : CodeSegment) : nat :=
  match s with
  | CodeText _ _ => 1%nat
  | SegElement e => depthEl e
  end
with depthEl (e : HtmlElement) : nat :=
  match e with
  | mkHtmlElement _ ps cs _ =>
    S (Nat.max (list_max (map depthProp ps)) (list_max (map depthCont cs)))
  end
with depthProp (p : Property) : nat :=
  match p with
  | StaticProperty _ _ => 1%nat
  | DynamicProperty _ code _ => S (S (S (list_max (map depthSeg code))))
  | Mixin code _ => S (S (S (list_max (map depthSeg code))))
  end
with depthCont (c : Content) : nat :=
  match c with
  | ContElement e => depthEl e
  | HtmlText _ => 1%nat
  | HtmlComment _ => 1%nat
  | HtmlInsert code _ => S (S (S (list_max (map depthSeg code))))
  end.

Definition transformFuel (node : CodeTopLevel) : nat :=
  S (S (list_max (map depthSeg (segments node)))).

(** [transform(node, opt)]: the options are not looked at. *)
Definition transform (node : CodeTopLevel) : option CodeTopLevel :=
  this_CodeTopLevel (tfThis (transformFuel node)) node.

Definition ex1_ast : CodeTopLevel :=
  mkCodeTopLevel
    [CodeText (js "let x = ") (mkLOC 0 0 0);
     SegElement (mkHtmlElement (js "div")
       [DynamicProperty (js "onClick") [CodeText (js "f") (mkLOC 0 22 21)]
                        (mkLOC 0 13 13)]
       [HtmlText (js "hi")] (mkLOC 0 8 8));
     CodeText (js ";") (mkLOC 0 33 33)].

Example transform_ex1 :
  transform ex1_ast
  = Some (mkCodeTopLevel
      [CodeText (js "let x = ") (mkLOC 0 0 0);
       SegElement (mkHtmlElement (js "div")
         [DynamicProperty (js "onclick") [CodeText (js "f") (mkLOC 0 22 21)]
                          (mkLOC 0 13 13);
          StaticProperty (js "textContent") (js "'hi'")]
         [] (mkLOC 0 8 8));
       CodeText (js ";") (mkLOC 0 33 33)]).
Proof. vm_compute. reflexivity. Qed.

(** ** Source-map marks and the code generator ([compile]) *)

Record Params := mkParams {
  sourcemap : option str;   (* null, or a non-empty string *)
  sourcefile : str;
  targetfile : str;
  jsx : bool
}.

Definition locationMark (loc : LOC) : str :=
  [cNul] ++ numStr (line loc) ++ [cComma] ++ numStr (col loc) ++ [cNul].

Definition markLoc (s : str) (loc : LOC) (opts : Params) : str :=
  match sourcemap opts with
  | Some _ => locationMark loc ++ s
  | None => s
  end.

(** [s.split(c)] with a one-character separator. *)
Fixpoint splitOn (c : char) (s : str) : list str :=
  match s with
  | [] => [[]]
  | x :: r =>
    if x =? c then [] :: splitOn c r
    else match splitOn c r with
         | l :: ls => (x :: l) :: ls
         | [] => [[x]]
         end
  end.

(** The loop of [markBlockLocs] over the lines after the first; [i] is the
    index of the line, [offset] the characters of the earlier lines. *)
Fixpoint markLines (loc : LOC) (i : N) (offset : N) (lines : list str) : list str :=
  match lines with
  | [] => []
  | l :: r =>
    let offset := offset + lenN l in
    let lineloc := mkLOC (line loc + i) 0 (pos loc + offset + i) in
    (locationMark lineloc ++ l) :: markLines loc (i + 1) offset r
  end.

Definition markBlockLocs (s : str) (loc : LOC) (opts : Params) : str :=
  match sourcemap opts with
  | None => s
  | Some _ =>
    match splitOn cNl s with
    | [] => locationMark loc
    | l0 :: r => locationMark loc ++ join [cNl] (l0 :: markLines loc 1 0 r)
    end
  end.

(** [rx.hasParen], [rx.loneFunction], [rx.indent] *)
Definition hasParen (code : str) : bool := existsb (N.eqb cLpar) code.

Definition loneFunction (code : str) : bool :=
  startsWith (js "function ") code
  || match code with
     | c :: r => (c =? cLpar) && startsWith (js ") =>") (skipn (spanLen isWord r) r)
     | [] => false
     end
  || (negb (spanLen isWord code =? 0)%nat
      && startsWith (js " =>") (skipn (spanLen isWord code) code)).

Definition noApparentSignals (code : str) : bool :=
  negb (hasParen code) || loneFunction code.

(** The text after the last newline, when there is a newline. *)
Fixpoint afterLastNl (s : str) : option str :=
  match s with
  | [] => None
  | c :: r =>
    match afterLastNl r with
    | Some t => Some t
    | None => if c =? cNl then Some r else None
    end
  end.

Definition indent (previousCode : str) : str :=
  match afterLastNl previousCode with
  | Some (c :: r) =>
    firstn (spanLen (fun x => (x =? cSpace) || (x =? cTab)) (c :: r)) (c :: r)
  | _ => []
  end.

(** [str.trim()] *)
Fixpoint dropWs (s : str) : str :=
  match s with
  | c :: r => if isSpace c then dropWs r else s
  | [] => []
  end.
Definition trim (s : str) : str := rev (dropWs (rev (dropWs s))).

(** A property group of a sub-component: a mixin expression (a string) or
    an object of named values. *)
Inductive PropGroup :=
  | GString (s : str)
  | GObject (o : list (str * str)).

Record SubComponent := mkSubComponent {
  subName : str;
  subProperties : list PropGroup;
  subChildren : list str
}.

Record Computation := mkComputation {
  compStatements : list str;
  compLoc : LOC;
  compStateVar : option str;
  compSeed : option str
}.

Record DOMExpression := mkDOMExpression {
  ids : list str;
  statements : list str;
  computations : list Computation
}.

Definition addId (parent tag : str) (n : nat) (d : DOMExpression) : str * DOMExpression :=
  let id :=
    match parent with
    | [] => js "__"
    | _ :: _ =>
      parent ++ (if eqs (skipn (length parent - 1) parent) [cUnd] then [] else [cUnd])
             ++ tag ++ numStr (N.of_nat n + 1)
    end in
  (id, mkDOMExpression (ids d ++ [id]) (statements d) (computations d)).

Definition addStatement (stmt : str) (d : DOMExpression) : DOMExpression :=
  mkDOMExpression (ids d) (statements d ++ [stmt]) (computations d).

Definition addComputation (body : list str) (stateVar seed : option str) (loc : LOC)
  (d : DOMExpression) : DOMExpression :=
  mkDOMExpression (ids d) (statements d)
                  (computations d ++ [mkComputation body loc stateVar seed]).

Definition buildStaticProperty (name value id : str) : str :=
  id ++ js "." ++ name ++ js " = " ++ value ++ js ";".

Definition buildDynamicProperty (name id expr : str) : str :=
  if eqs name (js "ref") then expr ++ js " = " ++ id ++ js ";"
  else id ++ js "." ++ name ++ js " = " ++ expr ++ js ";".

Definition buildMixin (expr id : str) (n : nat) (last final : bool) (d : DOMExpression)
  : str * DOMExpression :=
  let '(state, d) := if last then (js "__state", d) else addId id (js "mixin") n d in
  let setter := if last && final then [] else state ++ js " = " in
  (setter ++ js "Surplus.spread(" ++ expr ++ js ", " ++ id ++ js ", " ++ state ++ js ");",
   d).

(** Index of the last Mixin of a property list ([lastMixin], by identity). *)
Definition lastMixinIndex (properties : list Property) : option nat :=
  foldIdx (fun acc p i => if isMixin p then Some i else acc) 0%nat properties None.

(** The [stmts] of [buildHtmlElement]: one statement per property, in order;
    a Mixin that is not the last one declares an id. *)
Fixpoint buildStmts (properties : list Property) (exprs : list str) (i : nat)
  (id : str) (n : nat) (lastMixin : option nat) (finalMixin : bool) (d : DOMExpression)
  : list str * DOMExpression :=
  match properties, exprs with
  | p :: ps, e :: es =>
    let '(s, d) :=
      match p with
      | StaticProperty name value => (buildStaticProperty name value id, d)
      | DynamicProperty name _ _ => (buildDynamicProperty name id e, d)
      | Mixin _ _ =>
        buildMixin e id n (match lastMixin with Some j => (j =? i)%nat | None => false end)
                   finalMixin d
      end in
    let '(ss, d) := buildStmts ps es (S i) id n lastMixin finalMixin d in
    (s :: ss, d)
  | _, _ => ([], d)
  end.

(** [a.map(f)] and a left-to-right loop for callbacks that may throw. *)
Fixpoint mapR {A B} (f : A -> Res B) (l : list A) : Res (list B) :=
  match l with
  | [] => Ok []
  | x :: r => bindR (f x) (fun y => bindR (mapR f r) (fun ys => Ok (y :: ys)))
  end.

Fixpoint forEachIdx {A St} (f : A -> nat -> St -> Res St) (i : nat) (l : list A) (s : St)
  : Res St :=
  match l with
  | [] => Ok s
  | x :: r => bindR (f x i s) (forEachIdx f (S i) r)
  end.

Definition setLast (f : str -> str) (l : list str) : list str :=
  match rev l with
  | [] => l
  | x :: r => rev (f x :: r)
  end.

Section Compile.

Variable opts : Params.

(** The reducer of [buildSubComponent]. *)
Definition addProperty (props : list PropGroup) (p : Property) (value : str)
  : list PropGroup :=
  match p with
  | Mixin _ _ => props ++ [GString value]
  | StaticProperty name _ | DynamicProperty name _ _ =>
    match rev props with
    | GObject o :: before => rev (GObject (objSet o name value) :: before)
    | _ => props ++ [GObject [(name, value)]]
    end
  end.

Definition emitSubComponent (expr : SubComponent) (indent : str) : Res str :=
  let nl := [cCr; cNl] ++ indent in
  let nli := nl ++ js "    " in
  let nlii := nli ++ js "    " in
  let children :=
    match subChildren expr with
    | [] => js "[]"
    | cs => js "[" ++ nlii ++ join (js "," ++ nlii) cs ++ nli ++ js "]"
    end in
  bindR (match subProperties expr with
         | GString s :: r => Ok (GObject [(js "children", children)] :: GString s :: r)
         | GObject o :: r => Ok (GObject (objSet o (js "children") children) :: r)
         | [] => Throw (js "TypeError: Cannot set property 'children' of undefined")
         end)
    (fun props =>
       let properties :=
         map (fun obj => match obj with
                         | GString s => s
                         | GObject o =>
                           js "{" ++ join (js ",")
                                      (map (fun kv => nli ++ fst kv ++ js ": " ++ snd kv) o)
                              ++ nl ++ js "}"
                         end) props in
       let needLibrary :=
         (1 <? length props)%nat
         || match props with GString _ :: _ => true | _ => false end in
       Ok (if needLibrary
           then js "Surplus.subcomponent(" ++ subName expr ++ js ", ["
                   ++ join (js ", ") properties ++ js "])"
           else subName expr ++ js "(" ++ hd [] properties ++ js ")")).

Definition emitComputation (nlii : str) (comp : Computation) : str :=
  let statements :=
    match compStateVar comp with
    | Some _ => setLast (fun s => js "return " ++ s) (compStatements comp)
    | None => compStatements comp
    end in
  let body :=
    match statements with
    | [s] => js " " ++ s ++ js " "
    | _ => nlii ++ join nlii statements ++ nlii
    end in
  let code :=
    js "Surplus.S(function (" ++ match compStateVar comp with Some v => v | None => [] end
       ++ js ") {" ++ body ++ js "}"
       ++ match compSeed comp with Some s => js ", " ++ s | None => [] end
       ++ js ");" in
  markLoc code (compLoc comp) opts.

Definition emitDOMExpression (code : DOMExpression) (indent : str) : str :=
  let nl := [cCr; cNl] ++ indent in
  let nli := nl ++ js "    " in
  let nlii := nli ++ js "    " in
  js "(function () {" ++ nli
     ++ js "var " ++ join (js ", ") (ids code) ++ js ";" ++ nli
     ++ join nli (statements code) ++ nli
     ++ join nli (map (emitComputation nlii) (computations code)) ++ nli
     ++ js "return __;" ++ nl
     ++ js "})()".

Fixpoint compileSegmentsFrom (fuel : nat) (res : str) (segs : list CodeSegment)
  : Res str :=
  match fuel with
  | O => OutOfFuel
  | S f =>
    match segs with
    | [] => Ok res
    | s :: r =>
      bindR (match s with
             | CodeText text loc => Ok (markBlockLocs text loc opts)
             | SegElement e => compileHtmlElement f e (indent res)
             end)
            (fun code => compileSegmentsFrom f (res ++ code) r)
    end
  end

with compileHtmlElement (fuel : nat) (node : HtmlElement) (indent : str) : Res str :=
  match fuel with
  | O => OutOfFuel
  | S f =>
    let 'mkHtmlElement tag properties content loc := node in
    bindR
      (if upperStart tag then
         bindR (buildSubComponent f node) (fun sub => emitSubComponent sub indent)
       else match properties, content with
            | [], [] => Ok (js "Surplus.createRootElement(" ++ DQ ++ tag ++ DQ ++ js ")")
            | _, _ =>
              bindR (buildHtmlElement f node [] 0%nat (mkDOMExpression [] [] []))
                    (fun d => Ok (emitDOMExpression d indent))
            end)
      (fun code => Ok (markLoc code loc opts))
  end

with buildSubComponent (fuel : nat) (node : HtmlElement) : Res SubComponent :=
  match fuel with
  | O => OutOfFuel
  | S f =>
    let 'mkHtmlElement tag properties content loc := node in
    bindR
      (forEachIdx (fun p _ props =>
                     bindR (match p with
                            | StaticProperty _ value => Ok value
                            | DynamicProperty _ code _ => compileSegmentsFrom f [] code
                            | Mixin code _ => compileSegmentsFrom f [] code
                            end)
                           (fun value => Ok (addProperty props p value)))
                  0%nat properties [])
      (fun props =>
         bindR
           (mapR (fun c => match c with
                           | ContElement e => compileHtmlElement f e []
                           | HtmlText text => Ok (codeStr (trim text))
                           | HtmlInsert code _ => compileSegmentsFrom f [] code
                           | HtmlComment text =>
                             Ok (js "document.createComment(" ++ codeStr text ++ js ")")
                           end) content)
           (fun children =>
              Ok (mkSubComponent tag props
                    (filter (fun c => negb (eqs c [])) children))))
  end

with buildHtmlElement (fuel : nat) (node : HtmlElement) (parent : str) (n : nat)
  (d : DOMExpression) : Res DOMExpression :=
  match fuel with
  | O => OutOfFuel
  | S f =>
    let 'mkHtmlElement tag properties content loc := node in
    let '(id, d) := addId parent tag n d in
    if upperStart tag then
      buildHtmlInsert f [SegElement node] loc parent n d
    else
      let d :=
        addStatement
          (match parent with
           | _ :: _ => id ++ js " = Surplus.createElement('" ++ tag ++ js "', "
                          ++ parent ++ js ")"
           | [] => id ++ js " = Surplus.createRootElement('" ++ tag ++ js "')"
           end) d in
      bindR
        (mapR (fun p => match p with
                        | StaticProperty _ _ => Ok []
                        | DynamicProperty _ code _ => compileSegmentsFrom f [] code
                        | Mixin code _ => compileSegmentsFrom f [] code
                        end) properties)
        (fun exprs =>
           let lastMixin := lastMixinIndex properties in
           let finalMixin :=
             match lastMixin with
             | Some j => (S j =? length properties)%nat
             | None => match properties with [] => true | _ => false end
             end in
           let dynamic :=
             existsb isMixin properties
             || existsb (fun e => negb (noApparentSignals e)) exprs in
           let '(stmts, d) :=
             buildStmts properties exprs 0%nat id n lastMixin finalMixin d in
           let d := if negb dynamic then fold_left (fun d s => addStatement s d) stmts d
                    else d in
           bindR
             (forEachIdx (fun c i d => buildChild f c id i d) 0%nat content d)
             (fun d =>
                if dynamic then
                  let d := match content with
                           | _ :: _ => addStatement [cNl] d
                           | [] => d
                           end in
                  let stmts :=
                    match lastMixin with
                    | Some _ => if negb finalMixin then stmts ++ [js "__state"] else stmts
                    | None => stmts
                    end in
                  Ok (addComputation stmts
                        (match lastMixin with Some _ => Some (js "__state") | None => None end)
                        None loc d)
                else Ok d))
  end

with buildChild (fuel : nat) (node : Content) (parent : str) (n : nat)
  (d : DOMExpression) : Res DOMExpression :=
  match fuel with
  | O => OutOfFuel
  | S f =>
    match node with
    | ContElement e => buildHtmlElement f e parent n d
    | HtmlComment text =>
      Ok (addStatement (js "Surplus.createComment(" ++ codeStr text ++ js ", "
                           ++ parent ++ js ")") d)
    | HtmlText text =>
      Ok (addStatement (js "Surplus.createTextNode(" ++ codeStr text ++ js ", "
                           ++ parent ++ js ")") d)
    | HtmlInsert code loc => buildHtmlInsert f code loc parent n d
    end
  end

with buildHtmlInsert (fuel : nat) (code : EmbeddedCode) (loc : LOC) (parent : str)
  (n : nat) (d : DOMExpression) : Res DOMExpression :=
  match fuel with
  | O => OutOfFuel
  | S f =>
    let '(id, d) := addId parent (js "insert") n d in
    bindR (compileSegmentsFrom f [] code)
      (fun ins =>
         let range := js "{ start: " ++ id ++ js ", end: " ++ id ++ js " }" in
         let d := addStatement (id ++ js " = Surplus.createTextNode('', " ++ parent
                                   ++ js ")") d in
         Ok (addComputation [js "Surplus.insert(range, " ++ ins ++ js ");"]
               (Some (js "range")) (Some range) loc d))
  end.

Definition compileSegments (fuel : nat) (segs : list CodeSegment) : Res str :=
  compileSegmentsFrom fuel [] segs.

End Compile.

(** Fuel for [compile]: a call goes down one level of the AST at a time, and
    the loop over a list of segments spends one unit per segment. *)
Fixpoint sizeSeg (s : CodeSegment) : nat :=
  match s with
  | CodeText _ _ => 1%nat
  | SegElement e => S (sizeEl e)
  end
with sizeEl (e : HtmlElement) : nat :=
  match e with
  | mkHtmlElement _ ps cs _ =>
    S (S (S (list_sum (map sizeProp ps) + list_sum (map sizeCont cs))))
  end
with sizeProp (p : Property) : nat :=
  match p with
  | StaticProperty _ _ => 1%nat
  | DynamicProperty _ code _ => S (S (list_sum (map sizeSeg code)))
  | Mixin code _ => S (S (list_sum (map sizeSeg code)))
  end
with sizeCont (c : Content) : nat :=
  match c with
  | ContElement e => S (sizeEl e)
  | HtmlText _ => 1%nat
  | HtmlComment _ => 1%nat
  | HtmlInsert code _ => S (S (S (list_sum (map sizeSeg code))))
  end.

Definition compileFuel (ctl : CodeTopLevel) : nat :=
  (2 * S (list_sum (map sizeSeg (segments ctl))))%nat.

Definition compile (ctl : CodeTopLevel) (opts : Params) : Res str :=
  compileSegments opts (compileFuel ctl) (segments ctl).

(** ** Source-map extraction ([extractMappings], [vlq])

    Numbers are integers; the 32-bit shift of [vlq] wraps as [ToInt32]
    does. *)

Open Scope Z_scope.

Definition toInt32 (z : Z) : Z := (z + 2 ^ 31) mod 2 ^ 32 - 2 ^ 31.
Definition shl1 (z : Z) : Z := toInt32 (toInt32 z * 2).

(** Base-32 digits of a natural number, least significant first. *)
Fixpoint digits32 (fuel : nat) (n : Z) : list Z :=
  match fuel with
  | O => []
  | S f => if n <? 32 then [n] else (n mod 32) :: digits32 f (n / 32)
  end.

Definition vlqFinalDigits : str := js "ABCDEFGHIJKLMNOPQRSTUVWXYZabcdef".
Definition vlqContinuationDigits : str := js "ghijklmnopqrstuvwxyz0123456789+/".

(** [digits[d]] appended to a string: the text [undefined] when there is no
    such element. *)
Definition digitAt (digits : str) (d : Z) : str :=
  match nth_error digits (Z.to_nat d) with
  | Some c => [c]
  | None => js "undefined"
  end.

Definition vlq (num : Z) : str :=
  let num := if num <? 0 then shl1 (- num) + 1 else shl1 num in
  if num <? 0 then
    (* the text of the number starts with a minus sign, which is no digit *)
    concat (map (digitAt vlqContinuationDigits) (digits32 8 (- num))) ++ js "undefined"
  else
    match rev (digits32 8 num) with
    | [] => js "undefined"
    | msd :: others =>
      concat (map (digitAt vlqContinuationDigits) (rev others))
      ++ digitAt vlqFinalDigits msd
    end.

(** [parseInt] of a string of decimal digits. *)
Definition parseDigits (s : str) : Z :=
  fold_left (fun acc c => acc * 10 + (Z.of_N c - 48)) s 0.

Definition numStrZ (z : Z) : str := numStr (Z.to_N z).

(** A match of the mark alternative of [rx.locs] at the head of [s]: the
    digits of the line, the digits of the column and the text after the
    mark. *)
Definition takeDigits (s : str) : str * str :=
  (firstn (spanLen isDigit s) s, skipn (spanLen isDigit s) s).

Definition matchMark (s : str) : option (str * str * str) :=
  match s with
  | c :: r =>
    if (c =? cNul)%N then
      let '(l, r1) := takeDigits r in
      match l, r1 with
      | _ :: _, c1 :: r2 =>
        if (c1 =? cComma)%N then
          let '(k, r3) := takeDigits r2 in
          match k, r3 with
          | _ :: _, c2 :: r4 => if (c2 =? cNul)%N then Some (l, k, r4) else None
          | _, _ => None
          end
        else None
      | _, _ => None
      end
    else None
  | [] => None
  end.

Record MapState := mkMapState {
  mLine : list str;            (* segments of the current line *)
  mLines : list (list str);
  lastGeneratedCol : Z;
  lastSourceLine : Z;
  lastSourceCol : Z;
  lineStartPos : Z;
  lineMarksLength : Z
}.

Definition onNewline (offset : Z) (m : MapState) : MapState :=
  mkMapState [] (mLines m ++ [mLine m]) 0 (lastSourceLine m) (lastSourceCol m)
             (offset + 1) 0.

Definition onMark (sourceLine sourceCol : Z) (offset : Z) (m : MapState) : MapState :=
  let generatedCol := offset - lineStartPos m - lineMarksLength m in
  mkMapState
    (mLine m ++ [vlq (generatedCol - lastGeneratedCol m) ++ js "A"
                 ++ vlq (sourceLine - lastSourceLine m)
                 ++ vlq (sourceCol - lastSourceCol m)])
    (mLines m) generatedCol sourceLine sourceCol (lineStartPos m)
    (lineMarksLength m - 2).

Definition markComment (sourceLine sourceCol : Z) : str :=
  js "/*" ++ numStrZ sourceLine ++ js "," ++ numStrZ sourceCol ++ js "*/".

(** [embedded.replace(rx.locs, callback)]: the matches from left to right,
    [offset] being the index of the match in [embedded]. *)
Fixpoint replaceLocs (fuel : nat) (offset : Z) (s : str) (m : MapState)
  : str * MapState :=
  match fuel with
  | O => ([], m)
  | S f =>
    match s with
    | [] => ([], m)
    | c :: r =>
      if (c =? cNl)%N then
        let '(out, m') := replaceLocs f (offset + 1) r (onNewline offset m) in
        (cNl :: out, m')
      else
        match matchMark s with
        | Some (l, k, r') =>
          let sl := parseDigits l in
          let sc := parseDigits k in
          let '(out, m') :=
            replaceLocs f (offset + Z.of_nat (length s - length r')) r'
                        (onMark sl sc offset m) in
          (markComment sl sc ++ out, m')
        | None =>
          let '(out, m') := replaceLocs f (offset + 1) r m in
          (c :: out, m')
        end
    end
  end.

Record Mappings := mkMappings { mapSrc : str; mappings : str }.

Definition initialMapState : MapState := mkMapState [] [] 0 0 0 0 0.

Definition extractMappings (embedded : str) : Mappings :=
  let '(src, m) := replaceLocs (length embedded) 0 embedded initialMapState in
  let lines := mLines m ++ [mLine m] in
  mkMappings src (join (js ";") (map (join (js ",")) lines)).

Record SourceMap := mkSourceMap {
  version : Z;
  file : str;
  sources : list str;
  sourcesContent : list str;
  names : list str;
  mapMappings : str
}.

Definition createMap (mappings original : str) (opts : Params) : SourceMap :=
  mkSourceMap 3 (targetfile opts) [sourcefile opts] [original] [] mappings.

Definition extractMap (src original : str) (opts : Params) : str * SourceMap :=
  let extract := extractMappings src in
  (mapSrc extract, createMap (mappings extract) original opts).

Close Scope Z_scope.

(** ** The driver ([preprocess])

    The result is a string, the pair of [extract] mode, or the string of
    [append] mode.  The latter ends with the URI-encoded JSON text of the map,
    which is the work of the host's [JSON.stringify] and
    [encodeURIComponent]; it is kept as the stripped source and the map. *)

Inductive Output :=
  | OutCode (code : str)
  | OutExtract (src : str) (map : SourceMap)
  | OutAppend (src : str) (map : SourceMap).

(** The options object as passed by the caller; an absent member is [None]. *)
Record Options := mkOptions {
  o_sourcemap : option str;
  o_sourcefile : option str;
  o_targetfile : option str;
  o_jsx : option bool
}.

Definition truthy (o : option str) : option str :=
  match o with
  | Some (c :: r) => Some (c :: r)
  | _ => None
  end.

Definition paramsOf (opts : option Options) : Params :=
  let opts := match opts with Some o => o | None => mkOptions None None None None end in
  mkParams (truthy (o_sourcemap opts))
           (match truthy (o_sourcefile opts) with Some s => s | None => js "in.js" end)
           (match truthy (o_targetfile opts) with Some s => s | None => js "out.js" end)
           (match o_jsx opts with Some b => b | None => true end).

Definition preprocess (s : str) (opts : option Options) : Res Output :=
  let params := paramsOf opts in
  let toks := tokenize s in
  bindR (parse toks (jsx params)) (fun ast =>
  match transform ast with
  | None => OutOfFuel
  | Some ast2 =>
    bindR (compile ast2 params) (fun code =>
    match sourcemap params with
    | Some m =>
      if eqs m (js "extract") then
        let '(src, map) := extractMap code s params in Ok (OutExtract src map)
      else if eqs m (js "append") then
        let '(src, map) := extractMap code s params in Ok (OutAppend src map)
      else Ok (OutCode code)
    | None => Ok (OutCode code)
    end)
  end).

Definition CRLF : str := [cCr; cNl].

(** ** The entity transform of the transform module
    ([translateHTMLEntitiesToUnicodeInTextNodes])

    The overlay rewrites the text of a text node with [rx.htmlEntity].  The
    table [HtmlEntites] comes from a module that is not part of the sources at
    hand and is a parameter; a name it does not hold, or holds with an empty
    value, leaves the entity as written. *)

Section Entities.

Variable HtmlEntites : str -> option str.

Definition isHexDigit (c : char) : bool :=
  isDigit c || inRange 65 70 c || inRange 97 102 c.

Definition hexValue (c : char) : N :=
  if isDigit c then c - 48 else if inRange 65 70 c then c - 55 else c - 87.

Definition parseHex (s : str) : N := fold_left (fun acc c => acc * 16 + hexValue c) s 0.
Definition parseDec (s : str) : N := fold_left (fun acc c => acc * 10 + (c - 48)) s 0.

(** [String.fromCharCode(n)]: one code unit, [n] modulo 2^16. *)
Definition fromCharCode (n : N) : str := [n mod 65536].

(** A match of [rx.htmlEntity] at the head of [s]: the replacement text and
    the length of the match. *)
Definition matchEntity (s : str) : option (str * nat) :=
  match s with
  | c :: r =>
    if c =? cAmp then
      let dec := match r with
                 | h :: r1 =>
                   let n := spanLen isDigit r1 in
                   if (h =? cHash) && negb (n =? 0)%nat
                      && startsWith [cSemi] (skipn n r1)
                   then Some (fromCharCode (parseDec (firstn n r1)), (n + 3)%nat)
                   else None
                 | [] => None
                 end in
      let hex := match r with
                 | h :: x :: r2 =>
                   let n := spanLen isHexDigit r2 in
                   if (h =? cHash) && (x =? 120) && negb (n =? 0)%nat
                      && startsWith [cSemi] (skipn n r2)
                   then Some (fromCharCode (parseHex (firstn n r2)), (n + 4)%nat)
                   else None
                 | _ => None
                 end in
      let named :=
        let n := spanLen isWord r in
        if negb (n =? 0)%nat && startsWith [cSemi] (skipn n r)
        then Some (match HtmlEntites (firstn n r) with
                   | Some (v :: vs) => v :: vs
                   | _ => firstn (n + 2) s
                   end, (n + 2)%nat)
        else None in
      match dec with
      | Some m => Some m
      | None => match hex with Some m => Some m | None => named end
      end
    else None
  | [] => None
  end.

Fixpoint replaceEntities (fuel : nat) (s : str) : str :=
  match fuel with
  | O => []
  | S f =>
    match s with
    | [] => []
    | c :: r =>
      match matchEntity s with
      | Some (rep, n) => rep ++ replaceEntities f (skipn n s)
      | None => c :: replaceEntities f r
      end
    end
  end.

(** The new text of the node: [raw.replace(rx.htmlEntity, callback)]. *)
Definition translateHTMLEntitiesToUnicodeInTextNodes (raw : str) : str :=
  replaceEntities (length raw) raw.

End Entities.

(** * Properties *)

(** ** Basic facts on strings *)

Lemma eqs_true (a b : str) : eqs a b = true <-> a = b.
Proof.
  revert b; induction a as [|x a IH]; intros [|y b]; simpl; split; intro H;
    try reflexivity; try discriminate.
  - apply andb_true_iff in H as [H1 H2]. apply N.eqb_eq in H1. apply IH in H2.
    now subst.
  - injection H as -> ->. rewrite N.eqb_refl. now apply IH.
Qed.

Lemma eqs_refl (a : str) : eqs a a = true.
Proof. now apply eqs_true. Qed.

Lemma eqs_false (a b : str) : eqs a b = false <-> a <> b.
Proof.
  split.
  - intros H E. apply eqs_true in E. congruence.
  - intro H. destruct (eqs a b) eqn:E; [|reflexivity]. apply eqs_true in E. contradiction.
Qed.

Lemma spanLen_app (f : char -> bool) (a b : str) :
  forallb f a = true ->
  spanLen f (a ++ b) = (length a + spanLen f b)%nat.
Proof.
  induction a as [|x a IH]; simpl; intro H; [reflexivity|].
  apply andb_true_iff in H as [-> H]. now rewrite IH.
Qed.

Lemma firstn_app_exact {A} (a b : list A) : firstn (length a) (a ++ b) = a.
Proof. induction a; simpl; congruence. Qed.

Lemma skipn_app_exact {A} (a b : list A) : skipn (length a) (a ++ b) = b.
Proof. induction a; simpl; congruence. Qed.

(** Closed goals: conjunctions of equations settled by evaluation. *)
Ltac conj_compute :=
  repeat match goal with |- _ /\ _ => split end; vm_compute; reflexivity.

(** ** C1: an event handler and a text child *)

Definition c1_input : str := js "let x = <div onClick={f}>hi</div>;".

Definition c1_output : str :=
  js "let x = (function () {" ++ CRLF
  ++ js "    var __;" ++ CRLF
  ++ js "    __ = Surplus.createRootElement('div')" ++ CRLF
  ++ js "    __.onclick = f;" ++ CRLF
  ++ js "    __.textContent = 'hi';" ++ CRLF
  ++ js "    " ++ CRLF
  ++ js "    return __;" ++ CRLF
  ++ js "})();".

(** C1, as amended: under the default options the output for
    [let x = <div onClick={f}>hi</div>;] is an immediately invoked function
    that declares [__], sets [__.onclick = f;] as a plain statement outside
    any [Surplus.S] computation, and carries the text child as the static
    property statement [__.textContent = 'hi';]; it has no [createTextNode]
    call. *)
Theorem C1_onclick_plain_text_promoted :
  preprocess c1_input None = Ok (OutCode c1_output)
  /\ contains (js "(function () {") c1_output = true
  /\ contains (js "var __;") c1_output = true
  /\ contains (js "__.onclick = f;") c1_output = true
  /\ contains (js "Surplus.S(") c1_output = false
  /\ contains (js "__.textContent = 'hi';") c1_output = true
  /\ contains (js "createTextNode") c1_output = false.
Proof. conj_compute. Qed.

(** C1 as stated fails: the output holds no
    [Surplus.createTextNode('hi', __)]. *)
Lemma C1_no_createTextNode :
  ~ (exists out, preprocess c1_input None = Ok (OutCode out)
                 /\ contains (js "Surplus.createTextNode('hi', __)") out = true).
Proof.
  intros [out [H1 H2]].
  assert (E : preprocess c1_input None = Ok (OutCode c1_output))
    by (vm_compute; reflexivity).
  rewrite E in H1. injection H1 as <-.
  assert (F : contains (js "Surplus.createTextNode('hi', __)") c1_output = false)
    by (vm_compute; reflexivity).
  rewrite F in H2. discriminate H2.
Qed.

(** ** C3: the leaf optimization *)

Definition createRootElementCall (tag : str) : str :=
  js "Surplus.createRootElement(" ++ DQ ++ tag ++ DQ ++ js ")".

(** C3: an element whose tag does not start with an upper-case letter and
    that has no property and no content is compiled to the single call
    [Surplus.createRootElement("tag")] (after its location mark when a
    source map is asked for), and [let x = <div></div>;] gives
    [let x = Surplus.createRootElement("div");] with no function wrapper and
    no computation. *)
Theorem C3_leaf_createRootElement (opts : Params) (fuel : nat) (tag indent : str)
  (loc : LOC) :
  upperStart tag = false ->
  compileHtmlElement opts (S fuel) (mkHtmlElement tag [] [] loc) indent
  = Ok (markLoc (createRootElementCall tag) loc opts)
  /\ (sourcemap opts = None ->
      compileHtmlElement opts (S fuel) (mkHtmlElement tag [] [] loc) indent
      = Ok (createRootElementCall tag))
  /\ preprocess (js "let x = <div></div>;") None
     = Ok (OutCode (js "let x = " ++ createRootElementCall (js "div") ++ js ";"))
  /\ contains (js "function") (js "let x = " ++ createRootElementCall (js "div") ++ js ";")
     = false
  /\ contains (js "Surplus.S(") (js "let x = " ++ createRootElementCall (js "div") ++ js ";")
     = false.
Proof.
  intro H. split; [|split; [|conj_compute]].
  - cbn [compileHtmlElement bindR]. rewrite H. reflexivity.
  - intro Hs. cbn [compileHtmlElement bindR]. rewrite H. unfold markLoc.
    rewrite Hs. reflexivity.
Qed.

Lemma C3_leaf_witness :
  compileHtmlElement (paramsOf None) 1 (mkHtmlElement (js "br") [] [] (mkLOC 0 8 8)) []
  = Ok (createRootElementCall (js "br")).
Proof.
  refine (proj1 (proj2 (C3_leaf_createRootElement (paramsOf None) 0 (js "br") []
                          (mkLOC 0 8 8) _)) _); reflexivity.
Defined.

(** ** C2: sub-components *)

(** The value of a property and the code of a child, as [buildSubComponent]
    computes them. *)
Definition propValue (opts : Params) (fuel : nat) (p : Property) : Res str :=
  match p with
  | StaticProperty _ value => Ok value
  | DynamicProperty _ code _ => compileSegmentsFrom opts fuel [] code
  | Mixin code _ => compileSegmentsFrom opts fuel [] code
  end.

Definition childCode (opts : Params) (fuel : nat) (c : Content) : Res str :=
  match c with
  | ContElement e => compileHtmlElement opts fuel e []
  | HtmlText text => Ok (codeStr (trim text))
  | HtmlInsert code _ => compileSegmentsFrom opts fuel [] code
  | HtmlComment text => Ok (js "document.createComment(" ++ codeStr text ++ js ")")
  end.

(** The grouping in the words of the specification: consecutive properties
    that are no Mixin merge into one object (assigned in order), each Mixin
    stands alone.  [cur] is the object of the run being read. *)
Definition flushGroup (cur : option (list (str * str))) : list PropGroup :=
  match cur with Some o => [GObject o] | None => [] end.

Fixpoint groupFrom (cur : option (list (str * str))) (ps : list Property)
  (vs : list str) : list PropGroup :=
  match ps, vs with
  | p :: ps', v :: vs' =>
    match propName p with
    | None => flushGroup cur ++ GString v :: groupFrom None ps' vs'
    | Some n =>
      groupFrom (Some (objSet (match cur with Some o => o | None => [] end) n v)) ps' vs'
    end
  | _, _ => flushGroup cur
  end.

Definition propertyGroups (ps : list Property) (vs : list str) : list PropGroup :=
  groupFrom None ps vs.

Definition childrenArray (children : list str) (indent : str) : str :=
  let nli := (CRLF ++ indent) ++ js "    " in
  let nlii := nli ++ js "    " in
  match children with
  | [] => js "[]"
  | _ => js "[" ++ nlii ++ join (js "," ++ nlii) children ++ nli ++ js "]"
  end.

(** The children go to the first group; a fresh group is put in front of a
    first group that is a Mixin. *)
Definition withChildren (children : str) (groups : list PropGroup) : list PropGroup :=
  match groups with
  | GString s :: r => GObject [(js "children", children)] :: GString s :: r
  | GObject o :: r => GObject (objSet o (js "children") children) :: r
  | [] => []
  end.

Definition groupText (indent : str) (g : PropGroup) : str :=
  let nl := CRLF ++ indent in
  let nli := nl ++ js "    " in
  match g with
  | GString s => s
  | GObject o =>
    js "{" ++ join (js ",") (map (fun kv => nli ++ fst kv ++ js ": " ++ snd kv) o)
       ++ nl ++ js "}"
  end.

Definition subComponentCall (name indent : str) (groups : list PropGroup) : str :=
  match groups with
  | [GObject o] => name ++ js "(" ++ groupText indent (GObject o) ++ js ")"
  | _ => js "Surplus.subcomponent(" ++ name ++ js ", ["
            ++ join (js ", ") (map (groupText indent) groups) ++ js "])"
  end.

Definition c2_input : str :=
  js "let x = <Foo a=" ++ DQ ++ js "1" ++ DQ ++ js " {...m} b={y}/>;".

Definition c2_output : str :=
  js "let x = Surplus.subcomponent(Foo, [{" ++ CRLF
  ++ js "    a: " ++ DQ ++ js "1" ++ DQ ++ js "," ++ CRLF
  ++ js "    children: []" ++ CRLF
  ++ js "}, m, {" ++ CRLF
  ++ js "    b: y" ++ CRLF
  ++ js "}]);".

Definition addAll (acc : list PropGroup) (ps : list Property) (vs : list str)
  : list PropGroup :=
  fold_left (fun props pv => addProperty props (fst pv) (snd pv)) (combine ps vs) acc.

Lemma mapR_length {A B} (f : A -> Res B) (l : list A) (r : list B) :
  mapR f l = Ok r -> length l = length r.
Proof.
  revert r; induction l as [|x l IH]; simpl; intros r H.
  - injection H as <-. reflexivity.
  - destruct (f x); try discriminate H. simpl in H.
    destruct (mapR f l); try discriminate H. simpl in H. injection H as <-.
    simpl. f_equal. now apply IH.
Qed.

Lemma forEachIdx_addProperty (val : Property -> Res str) (ps : list Property) :
  forall (vs : list str) (i : nat) (acc : list PropGroup),
    mapR val ps = Ok vs ->
    forEachIdx (fun p (_ : nat) props =>
                  bindR (val p) (fun value => Ok (addProperty props p value)))
               i ps acc
    = Ok (addAll acc ps vs).
Proof.
  induction ps as [|p ps IH]; simpl; intros vs i acc H.
  - injection H as <-. reflexivity.
  - destruct (val p) as [v| |]; try discriminate H. simpl in H.
    destruct (mapR val ps) as [vs'| |] eqn:E; try discriminate H. simpl in H.
    injection H as <-. simpl. unfold addAll. simpl. now apply IH.
Qed.

Definition curOf (acc : list PropGroup) : option (list (str * str)) :=
  match rev acc with GObject o :: _ => Some o | _ => None end.
Definition initOf (acc : list PropGroup) : list PropGroup :=
  match rev acc with GObject _ :: b => rev b | _ => acc end.

Lemma curOf_snoc_obj (a : list PropGroup) (o : list (str * str)) :
  curOf (a ++ [GObject o]) = Some o /\ initOf (a ++ [GObject o]) = a.
Proof. unfold curOf, initOf. rewrite rev_app_distr. simpl. now rewrite rev_involutive. Qed.

Lemma curOf_snoc_str (a : list PropGroup) (s : str) :
  curOf (a ++ [GString s]) = None /\ initOf (a ++ [GString s]) = a ++ [GString s].
Proof. unfold curOf, initOf. rewrite rev_app_distr. simpl. auto. Qed.

Lemma init_flush (acc : list PropGroup) : initOf acc ++ flushGroup (curOf acc) = acc.
Proof.
  unfold initOf, curOf. destruct (rev acc) as [|[s|o] b] eqn:E; simpl;
    try apply app_nil_r.
  rewrite <- (rev_involutive acc), E. reflexivity.
Qed.

Lemma addAll_groups (ps : list Property) :
  forall (vs : list str) (acc : list PropGroup),
    addAll acc ps vs = initOf acc ++ groupFrom (curOf acc) ps vs.
Proof.
  induction ps as [|p ps IH]; intros vs acc.
  - simpl. unfold addAll. simpl. symmetry. apply init_flush.
  - destruct vs as [|v vs].
    + unfold addAll. simpl. symmetry. apply init_flush.
    + unfold addAll. simpl. fold (addAll (addProperty acc p v) ps vs).
      rewrite IH. destruct p as [n w|n c l|c l]; simpl.
      * unfold curOf at 2, initOf at 2.
        destruct (rev acc) as [|[s|o] b] eqn:E.
        -- destruct (curOf_snoc_obj acc [(n, v)]) as [-> ->].
           rewrite <- (rev_involutive acc), E. reflexivity.
        -- destruct (curOf_snoc_obj acc [(n, v)]) as [-> ->].
           rewrite <- (rev_involutive acc), E. reflexivity.
        -- change (rev (GObject (objSet o n v) :: b))
             with (rev b ++ [GObject (objSet o n v)]).
           destruct (curOf_snoc_obj (rev b) (objSet o n v)) as [-> ->]. reflexivity.
      * unfold curOf at 2, initOf at 2.
        destruct (rev acc) as [|[s|o] b] eqn:E.
        -- destruct (curOf_snoc_obj acc [(n, v)]) as [-> ->].
           rewrite <- (rev_involutive acc), E. reflexivity.
        -- destruct (curOf_snoc_obj acc [(n, v)]) as [-> ->].
           rewrite <- (rev_involutive acc), E. reflexivity.
        -- change (rev (GObject (objSet o n v) :: b))
             with (rev b ++ [GObject (objSet o n v)]).
           destruct (curOf_snoc_obj (rev b) (objSet o n v)) as [-> ->]. reflexivity.
      * destruct (curOf_snoc_str acc v) as [-> ->].
        rewrite <- app_assoc. simpl.
        rewrite <- (init_flush acc) at 1. now rewrite <- app_assoc.
Qed.

Lemma groupFrom_nonempty (ps : list Property) :
  forall (vs : list str) (cur : option (list (str * str))),
    ps <> [] -> length ps = length vs -> groupFrom cur ps vs <> [].
Proof.
  induction ps as [|p ps IH]; intros vs cur Hne Hlen; [congruence|].
  destruct vs as [|v vs]; [discriminate Hlen|]. simpl.
  destruct (propName p) as [n|].
  - destruct ps as [|q ps].
    + destruct vs; simpl; discriminate.
    + apply IH; [discriminate|]. simpl in *. lia.
  - destruct (flushGroup cur); discriminate.
Qed.

Lemma emitSubComponent_call (name indent : str) (groups : list PropGroup)
  (children : list str) :
  groups <> [] ->
  emitSubComponent (mkSubComponent name groups children) indent
  = Ok (subComponentCall name indent
          (withChildren (childrenArray children indent) groups)).
Proof.
  intro Hne. unfold emitSubComponent, subComponentCall, withChildren.
  cbn [subProperties subChildren subName].
  destruct groups as [|[s|o] r]; [congruence| |].
  - destruct children; reflexivity.
  - destruct r; destruct children; reflexivity.
Qed.

(** C2, as amended: an element whose tag starts with an upper-case letter
    and that has at least one property is compiled (when its property
    values and children compile) to a call built from the property groups
    of the specification: consecutive properties that are no Mixin form
    one object, each Mixin stands alone, the children array goes to the first
    group (a fresh group is put in front of a first Mixin), and the call is
    [Name(object)] for a single object group and
    [Surplus.subcomponent(Name, [group, group, ...])] otherwise; each object
    is written with one member per line, and a static value keeps the quotes
    of the source, so that the example gives [c2_output]. *)
Theorem C2_subcomponent_groups (opts : Params) (fuel : nat) (tag indent : str)
  (ps : list Property) (cs : list Content) (loc : LOC)
  (values children : list str) :
  upperStart tag = true ->
  ps <> [] ->
  mapR (propValue opts fuel) ps = Ok values ->
  mapR (childCode opts fuel) cs = Ok children ->
  compileHtmlElement opts (S (S fuel)) (mkHtmlElement tag ps cs loc) indent
  = Ok (markLoc
          (subComponentCall tag indent
             (withChildren
                (childrenArray (filter (fun c => negb (eqs c [])) children) indent)
                (propertyGroups ps values)))
          loc opts)
  /\ preprocess c2_input None = Ok (OutCode c2_output).
Proof.
  intros Hup Hne Hv Hc. split; [|vm_compute; reflexivity].
  cbn [compileHtmlElement]. rewrite Hup. cbn [buildSubComponent].
  change (fun (p : Property) (_ : nat) (props : list PropGroup) =>
            bindR match p with
                  | StaticProperty _ value => Ok value
                  | DynamicProperty _ code _ => compileSegmentsFrom opts fuel [] code
                  | Mixin code _ => compileSegmentsFrom opts fuel [] code
                  end (fun value => Ok (addProperty props p value)))
    with (fun (p : Property) (_ : nat) (props : list PropGroup) =>
            bindR (propValue opts fuel p) (fun value => Ok (addProperty props p value))).
  rewrite (forEachIdx_addProperty (propValue opts fuel) ps values 0 [] Hv).
  cbn [bindR].
  change (mapR _ cs) with (mapR (childCode opts fuel) cs). rewrite Hc. cbn [bindR].
  rewrite addAll_groups. cbn [initOf curOf rev app].
  rewrite emitSubComponent_call.
  - reflexivity.
  - apply groupFrom_nonempty; [assumption|]. now apply mapR_length in Hv.
Qed.

Lemma C2_subcomponent_witness :
  compileHtmlElement (paramsOf None) 4
    (mkHtmlElement (js "Foo")
       [StaticProperty (js "a") (js "1"); Mixin [CodeText (js "m") (mkLOC 0 0 0)] (mkLOC 0 0 0)]
       [] (mkLOC 0 0 0)) []
  = Ok (js "Surplus.subcomponent(Foo, [{" ++ CRLF ++ js "    a: 1," ++ CRLF
        ++ js "    children: []" ++ CRLF ++ js "}, m])").
Proof.
  refine (proj1 (C2_subcomponent_groups (paramsOf None) 2 (js "Foo") []
            [StaticProperty (js "a") (js "1");
             Mixin [CodeText (js "m") (mkLOC 0 0 0)] (mkLOC 0 0 0)]
            [] (mkLOC 0 0 0) [js "1"; js "m"] [] _ _ _ _)).
  - reflexivity.
  - discriminate.
  - reflexivity.
  - reflexivity.
Defined.

(** C2 as stated fails on its example: the output does not hold the
    one-line form with a single-quoted value. *)
Lemma C2_example_text_differs :
  ~ (exists out, preprocess c2_input None = Ok (OutCode out)
                 /\ contains (js "Surplus.subcomponent(Foo, [{ a: '1', children: [] }, m, { b: y }])")
                             out = true).
Proof.
  intros [out [H1 H2]].
  assert (E : preprocess c2_input None = Ok (OutCode c2_output))
    by (vm_compute; reflexivity).
  rewrite E in H1. injection H1 as <-.
  assert (F : contains (js "Surplus.subcomponent(Foo, [{ a: '1', children: [] }, m, { b: y }])")
                       c2_output = false) by (vm_compute; reflexivity).
  rewrite F in H2. discriminate H2.
Qed.

(** ** C5: HTML entities *)














(** ** The transform pipeline, node by node *)

(** What the four overlays do to a node before [Copy] rebuilds it. *)
Definition localNormalize (e : HtmlElement) : HtmlElement :=
  dropDuplicates (promoteText (translateNames (dropWhitespace e))).

Lemma tf_element (n : nat) (e : HtmlElement) :
  this_HtmlElement (tfThis (S n)) e = tx_HtmlElement Copy (tfThis n) (localNormalize e).
Proof. reflexivity. Qed.

Lemma filter_length_same {A} (f : A -> bool) (l : list A) :
  length (filter f l) = length l -> filter f l = l.
Proof.
  induction l as [|x l IH]; simpl; [reflexivity|].
  destruct (f x); simpl; intro H.
  - f_equal. apply IH. lia.
  - pose proof (filter_length_le f l). lia.
Qed.

Lemma filterIdx_length_le {A} (f : A -> nat -> bool) (l : list A) :
  forall i, (length (filterIdx f i l) <= length l)%nat.
Proof.
  induction l as [|x l IH]; simpl; intro i; [lia|].
  destruct (f x i); simpl; specialize (IH (S i)); lia.
Qed.

Lemma filterIdx_length_same {A} (f : A -> nat -> bool) (l : list A) :
  forall i, length (filterIdx f i l) = length l -> filterIdx f i l = l.
Proof.
  induction l as [|x l IH]; simpl; intros i; [reflexivity|].
  destruct (f x i); simpl; intro H.
  - f_equal. apply IH. lia.
  - pose proof (filterIdx_length_le f l (S i)). lia.
Qed.

Lemma dropWhitespace_eq (tag : str) (ps : list Property) (cs : list Content) (loc : LOC) :
  dropWhitespace (mkHtmlElement tag ps cs loc)
  = mkHtmlElement tag ps (filter nonWhitespace cs) loc.
Proof.
  unfold dropWhitespace.
  destruct (length (filter nonWhitespace cs) =? length cs)%nat eqn:E; simpl.
  - apply Nat.eqb_eq in E. now rewrite (filter_length_same _ _ E).
  - reflexivity.
Qed.

Lemma dropDuplicates_eq (tag : str) (ps : list Property) (cs : list Content) (loc : LOC) :
  dropDuplicates (mkHtmlElement tag ps cs loc)
  = mkHtmlElement tag (uniqueProperties ps) cs loc.
Proof.
  unfold dropDuplicates.
  destruct (length ps =? length (uniqueProperties ps))%nat eqn:E; simpl.
  - apply Nat.eqb_eq in E. unfold uniqueProperties in *.
    now rewrite (filterIdx_length_same _ _ _ (eq_sym E)).
  - reflexivity.
Qed.

(** The properties and the content that reach the duplicate removal. *)
Definition translatedProperties (tag : str) (ps : list Property) : list Property :=
  if lowerStart tag then map translateProperty ps else ps.

Definition promoted (tag : str) (cs : list Content) : option str :=
  match filter nonWhitespace cs with
  | HtmlText text :: _ => if lowerStart tag then Some text else None
  | _ => None
  end.

Definition stagedProperties (tag : str) (ps : list Property) (cs : list Content)
  : list Property :=
  match promoted tag cs with
  | Some text =>
    translatedProperties tag ps ++ [StaticProperty (js "textContent") (codeStr text)]
  | None => translatedProperties tag ps
  end.

Definition stagedContent (tag : str) (cs : list Content) : list Content :=
  match promoted tag cs with
  | Some _ => skipn 1 (filter nonWhitespace cs)
  | None => filter nonWhitespace cs
  end.

Lemma localNormalize_eq (tag : str) (ps : list Property) (cs : list Content) (loc : LOC) :
  localNormalize (mkHtmlElement tag ps cs loc)
  = mkHtmlElement tag (uniqueProperties (stagedProperties tag ps cs))
                  (stagedContent tag cs) loc.
Proof.
  unfold localNormalize. rewrite dropWhitespace_eq.
  unfold translateNames, stagedProperties, stagedContent, promoted, translatedProperties.
  destruct (lowerStart tag) eqn:El.
  - unfold promoteText. destruct (filter nonWhitespace cs) as [|[e|t|t|c l] r];
      rewrite ?El; apply dropDuplicates_eq.
  - unfold promoteText. destruct (filter nonWhitespace cs) as [|[e|t|t|c l] r];
      rewrite ?El; apply dropDuplicates_eq.
Qed.

Lemma tf_element_eq (n : nat) (tag : str) (ps : list Property) (cs : list Content)
  (loc : LOC) :
  this_HtmlElement (tfThis (S n)) (mkHtmlElement tag ps cs loc)
  = match mapM (copyProperty (tfThis n)) (uniqueProperties (stagedProperties tag ps cs)) with
    | None => None
    | Some ps' =>
      match mapM (copyContent (tfThis n)) (stagedContent tag cs) with
      | None => None
      | Some cs' => Some (mkHtmlElement tag ps' cs' loc)
      end
    end.
Proof. rewrite tf_element, localNormalize_eq. reflexivity. Qed.

Lemma mapM_Forall2 {A B} (f : A -> option B) (l : list A) (l' : list B) :
  mapM f l = Some l' <-> Forall2 (fun x y => f x = Some y) l l'.
Proof.
  revert l'; induction l as [|x l IH]; intros l'; simpl.
  - split; intro H.
    + injection H as <-. constructor.
    + inversion H. reflexivity.
  - split; intro H.
    + destruct (f x) as [y|] eqn:E; [|discriminate H].
      destruct (mapM f l) as [ys|] eqn:E2; [|discriminate H].
      simpl in H. injection H as <-. constructor; [assumption|]. now apply IH.
    + inversion H as [|? y ? ys H1 H2]; subst. rewrite H1.
      apply IH in H2. rewrite H2. reflexivity.
Qed.

Lemma Forall2_impl {A B} (R R' : A -> B -> Prop) (l : list A) (l' : list B) :
  (forall x y, In x l -> R x y -> R' x y) -> Forall2 R l l' -> Forall2 R' l l'.
Proof.
  intros H F. induction F as [|x y l l' Hxy F IH]; constructor.
  - apply H; [now left|assumption].
  - apply IH. intros a b Ha. apply H. now right.
Qed.

(** *** More fuel changes nothing *)

Definition extends (t1 t2 : This) : Prop :=
  (forall x y, this_CodeTopLevel t1 x = Some y -> this_CodeTopLevel t2 x = Some y)
  /\ (forall x y, this_CodeSegments t1 x = Some y -> this_CodeSegments t2 x = Some y)
  /\ (forall x y, this_EmbeddedCode t1 x = Some y -> this_EmbeddedCode t2 x = Some y)
  /\ (forall x y, this_HtmlElement t1 x = Some y -> this_HtmlElement t2 x = Some y)
  /\ (forall c l y, this_HtmlInsert t1 c l = Some y -> this_HtmlInsert t2 c l = Some y)
  /\ (forall t l y, this_CodeText t1 t l = Some y -> this_CodeText t2 t l = Some y)
  /\ (forall t y, this_HtmlText t1 t = Some y -> this_HtmlText t2 t = Some y)
  /\ (forall t y, this_HtmlComment t1 t = Some y -> this_HtmlComment t2 t = Some y)
  /\ (forall n v y, this_StaticProperty t1 n v = Some y -> this_StaticProperty t2 n v = Some y)
  /\ (forall n c l y, this_DynamicProperty t1 n c l = Some y ->
                      this_DynamicProperty t2 n c l = Some y)
  /\ (forall c l y, this_Mixin t1 c l = Some y -> this_Mixin t2 c l = Some y).

Lemma mapM_extends {A B} (f g : A -> option B) (l : list A) (l' : list B) :
  (forall x y, f x = Some y -> g x = Some y) -> mapM f l = Some l' -> mapM g l = Some l'.
Proof.
  intros H E. apply mapM_Forall2. apply mapM_Forall2 in E.
  eapply Forall2_impl; [|exact E]. intros x y _. apply H.
Qed.

Lemma option_map_extends {A B} (h : A -> B) (a b : option A) (y : B) :
  (forall x, a = Some x -> b = Some x) -> option_map h a = Some y -> option_map h b = Some y.
Proof.
  intros H E. destruct a as [x|]; [|discriminate E]. now rewrite (H x eq_refl).
Qed.

Lemma bindThis_extends (t1 t2 : This) :
  extends t1 t2 -> extends (bindThis tf t1) (bindThis tf t2).
Proof.
  intros (H1 & H2 & H3 & H4 & H5 & H6 & H7 & H8 & H9 & H10 & H11).
  assert (Hseg : forall x y, copySegment t1 x = Some y -> copySegment t2 x = Some y).
  { intros [t l|e] y; simpl; [apply H6|].
    apply option_map_extends. intro x. apply H4. }
  assert (Hprop : forall x y, copyProperty t1 x = Some y -> copyProperty t2 x = Some y).
  { intros [n v|n c l|c l] y; simpl; [apply H9|apply H10|apply H11]. }
  assert (Hcont : forall x y, copyContent t1 x = Some y -> copyContent t2 x = Some y).
  { intros [e|t|t|c l] y; simpl; [|apply H7|apply H8|apply H5].
    apply option_map_extends. intro x. apply H4. }
  unfold extends. cbn [bindThis this_CodeTopLevel this_CodeSegments this_EmbeddedCode
    this_HtmlElement this_HtmlInsert this_CodeText this_HtmlText this_HtmlComment
    this_StaticProperty this_DynamicProperty this_Mixin].
  repeat match goal with |- _ /\ _ => split end.
  - intros x y. apply option_map_extends. intro z. apply H2.
  - intros x y. apply mapM_extends. exact Hseg.
  - intros x y. apply H2.
  - intros x y. change (tx_HtmlElement tf ?t x)
      with (tx_HtmlElement Copy t (localNormalize x)).
    destruct (localNormalize x) as [tag ps cs loc]. cbn [tx_HtmlElement Copy].
    destruct (mapM (copyProperty t1) ps) as [ps'|] eqn:Ep; [|discriminate].
    destruct (mapM (copyContent t1) cs) as [cs'|] eqn:Ec; [|discriminate].
    intro E. rewrite (mapM_extends _ _ _ _ Hprop Ep), (mapM_extends _ _ _ _ Hcont Ec).
    exact E.
  - intros c l y. apply option_map_extends. intro z. apply H3.
  - intros t l y E. exact E.
  - intros t y E. exact E.
  - intros t y E. exact E.
  - intros n v y E. exact E.
  - intros n c l y. apply option_map_extends. intro z. apply H3.
  - intros c l y. apply option_map_extends. intro z. apply H3.
Qed.

Lemma tfThis_extends_S (n : nat) : extends (tfThis n) (tfThis (S n)).
Proof.
  induction n as [|n IH].
  - unfold extends. cbn [tfThis stuck this_CodeTopLevel this_CodeSegments
      this_EmbeddedCode this_HtmlElement this_HtmlInsert this_CodeText this_HtmlText
      this_HtmlComment this_StaticProperty this_DynamicProperty this_Mixin].
    repeat match goal with |- _ /\ _ => split end; intros; discriminate.
  - apply (bindThis_extends _ _ IH).
Qed.

Lemma extends_refl (t : This) : extends t t.
Proof. unfold extends. repeat match goal with |- _ /\ _ => split end; auto. Qed.

Lemma extends_trans (a b c : This) : extends a b -> extends b c -> extends a c.
Proof.
  unfold extends.
  intros (A1 & A2 & A3 & A4 & A5 & A6 & A7 & A8 & A9 & A10 & A11)
         (B1 & B2 & B3 & B4 & B5 & B6 & B7 & B8 & B9 & B10 & B11).
  repeat match goal with |- _ /\ _ => split end; auto.
Qed.

Lemma tfThis_extends (n m : nat) : (n <= m)%nat -> extends (tfThis n) (tfThis m).
Proof.
  induction 1 as [|m _ IH]; [apply extends_refl|].
  eapply extends_trans; [exact IH|apply tfThis_extends_S].
Qed.

Lemma element_fuel_mono (n m : nat) (e e' : HtmlElement) :
  (n <= m)%nat -> this_HtmlElement (tfThis n) e = Some e' ->
  this_HtmlElement (tfThis m) e = Some e'.
Proof. intros H. apply (tfThis_extends n m H). Qed.

Lemma topLevel_fuel_mono (n m : nat) (x y : CodeTopLevel) :
  (n <= m)%nat -> this_CodeTopLevel (tfThis n) x = Some y ->
  this_CodeTopLevel (tfThis m) x = Some y.
Proof. intros H. apply (tfThis_extends n m H). Qed.

(** *** Every call returns, given the fuel of the node's depth *)

Lemma list_max_map_le {A} (f : A -> nat) (l : list A) (n : nat) :
  (list_max (map f l) <= n)%nat <-> Forall (fun x => (f x <= n)%nat) l.
Proof.
  rewrite list_max_le. rewrite Forall_map. reflexivity.
Qed.

Lemma mapM_total {A B} (f : A -> option B) (l : list A) :
  Forall (fun x => exists y, f x = Some y) l -> exists l', mapM f l = Some l'.
Proof.
  induction 1 as [|x l [y Hy] _ [l' IH]]; simpl.
  - now exists [].
  - rewrite Hy, IH. now exists (y :: l').
Qed.

Lemma uniqueProperties_incl (ps : list Property) (p : Property) :
  In p (uniqueProperties ps) -> In p ps.
Proof.
  unfold uniqueProperties. generalize (lastidOf ps) 0%nat. intros o.
  induction ps as [|q ps IH]; simpl; intros i H; [assumption|].
  match goal with H : In p (if ?b then _ else _) |- _ => destruct b end.
  - destruct H as [->|H]; [now left|right; eauto].
  - right; eauto.
Qed.

Lemma stagedProperties_depth (tag : str) (ps : list Property) (cs : list Content)
  (n : nat) :
  Forall (fun p => (depthProp p <= n)%nat) ps ->
  Forall (fun c => (depthCont c <= n)%nat) cs ->
  Forall (fun p => (depthProp p <= n)%nat) (stagedProperties tag ps cs).
Proof.
  intros Hp Hc.
  assert (Ht : Forall (fun p => (depthProp p <= n)%nat) (translatedProperties tag ps)).
  { unfold translatedProperties. destruct (lowerStart tag); [|assumption].
    apply Forall_map. eapply Forall_impl; [|exact Hp]. intros [?|?|?]; simpl; auto. }
  unfold stagedProperties, promoted.
  destruct (filter nonWhitespace cs) as [|[e|t|t|c l] r] eqn:E; try assumption.
  destruct (lowerStart tag); [|assumption].
  apply Forall_app. split; [assumption|]. constructor; [|constructor].
  assert (Hin : In (HtmlText t) cs).
  { apply (proj1 (filter_In nonWhitespace (HtmlText t) cs)). rewrite E. now left. }
  rewrite Forall_forall in Hc. apply (Hc _ Hin).
Qed.

Lemma stagedContent_incl (tag : str) (cs : list Content) (c : Content) :
  In c (stagedContent tag cs) -> In c cs.
Proof.
  unfold stagedContent. intro H.
  assert (H' : In c (filter nonWhitespace cs)).
  { destruct (promoted tag cs); [|assumption].
    destruct (filter nonWhitespace cs); [destruct H|]. now right. }
  now apply filter_In in H'.
Qed.

Lemma tfThis_total (n : nat) :
  (forall e, (depthEl e <= n)%nat -> exists e', this_HtmlElement (tfThis n) e = Some e')
  /\ (forall segs, (S (list_max (map depthSeg segs)) <= n)%nat ->
        exists segs', this_CodeSegments (tfThis n) segs = Some segs')
  /\ (forall p, (depthProp p <= n)%nat -> exists p', copyProperty (tfThis n) p = Some p')
  /\ (forall c, (depthCont c <= n)%nat -> exists c', copyContent (tfThis n) c = Some c').
Proof.
  induction n as [n IH] using lt_wf_ind.
  assert (Hel : forall e, (depthEl e <= n)%nat ->
                          exists e', this_HtmlElement (tfThis n) e = Some e').
  { intros [tag ps cs loc] Hd. destruct n as [|n]; [simpl in Hd; lia|].
    rewrite tf_element_eq. simpl in Hd. apply le_S_n in Hd.
    apply Nat.max_lub_iff in Hd as [Hp Hc].
    apply list_max_map_le in Hp. apply list_max_map_le in Hc.
    destruct (IH n (Nat.lt_succ_diag_r n)) as (_ & _ & IHp & IHc).
    destruct (mapM_total (copyProperty (tfThis n))
                (uniqueProperties (stagedProperties tag ps cs))) as [ps' ->].
    { pose proof (stagedProperties_depth tag ps cs n Hp Hc) as Hs.
      rewrite Forall_forall in *. intros p Hin. apply IHp, Hs.
      now apply uniqueProperties_incl. }
    destruct (mapM_total (copyContent (tfThis n)) (stagedContent tag cs)) as [cs' ->].
    { rewrite Forall_forall in *. intros c Hin. apply IHc, Hc.
      eapply stagedContent_incl; eassumption. }
    eauto. }
  assert (Hseg1 : forall m s, (m < n)%nat -> (depthSeg s <= m)%nat ->
                              exists s', copySegment (tfThis m) s = Some s').
  { intros m [t l|e] Hm Hd; simpl in *.
    - destruct m; [lia|]. simpl. eauto.
    - destruct (IH m Hm) as (IHe & _). destruct (IHe e Hd) as [e' ->]. simpl. eauto. }
  assert (Hsegs : forall m segs, (m <= n)%nat -> (S (list_max (map depthSeg segs)) <= m)%nat ->
                    exists segs', this_CodeSegments (tfThis m) segs = Some segs').
  { intros m segs Hm Hd. destruct m as [|m]; [lia|]. apply le_S_n in Hd.
    change (this_CodeSegments (tfThis (S m)) segs)
      with (mapM (copySegment (tfThis m)) segs).
    apply mapM_total. apply list_max_map_le in Hd. rewrite Forall_forall in *.
    intros s Hin. apply Hseg1; [lia|auto]. }
  assert (Hemb : forall m code, (m <= n)%nat ->
                   (S (S (list_max (map depthSeg code))) <= m)%nat ->
                   exists code', this_EmbeddedCode (tfThis m) code = Some code').
  { intros m code Hm Hd. destruct m as [|m]; [lia|]. apply le_S_n in Hd.
    change (this_EmbeddedCode (tfThis (S m)) code) with (this_CodeSegments (tfThis m) code).
    apply Hsegs; lia. }
  repeat match goal with |- _ /\ _ => split end.
  - exact Hel.
  - intros segs Hd. apply Hsegs; [lia|assumption].
  - intros [nm v|nm c l|c l] Hd; simpl in Hd; (destruct n as [|n]; [lia|]).
    + simpl. eauto.
    + apply le_S_n in Hd.
      change (copyProperty (tfThis (S n)) (DynamicProperty nm c l))
        with (option_map (fun c' => DynamicProperty nm c' l) (this_EmbeddedCode (tfThis n) c)).
      destruct (Hemb n c) as [c' ->]; [lia|assumption|]. simpl. eauto.
    + apply le_S_n in Hd.
      change (copyProperty (tfThis (S n)) (Mixin c l))
        with (option_map (fun c' => Mixin c' l) (this_EmbeddedCode (tfThis n) c)).
      destruct (Hemb n c) as [c' ->]; [lia|assumption|]. simpl. eauto.
  - intros [e|t|t|c l] Hd; simpl in Hd.
    + destruct (Hel e Hd) as [e' He]. simpl. rewrite He. simpl. eauto.
    + destruct n as [|n]; [lia|]. simpl. eauto.
    + destruct n as [|n]; [lia|]. simpl. eauto.
    + destruct n as [|n]; [lia|]. apply le_S_n in Hd.
      change (copyContent (tfThis (S n)) (HtmlInsert c l))
        with (option_map (fun c' => HtmlInsert c' l) (this_EmbeddedCode (tfThis n) c)).
      destruct (Hemb n c) as [c' ->]; [lia|assumption|]. simpl. eauto.
Qed.

Lemma transform_total (ast : CodeTopLevel) : exists ast', transform ast = Some ast'.
Proof.
  unfold transform, transformFuel.
  change (this_CodeTopLevel (tfThis (S (S (list_max (map depthSeg (segments ast)))))) ast)
    with (option_map mkCodeTopLevel
            (this_CodeSegments (tfThis (S (list_max (map depthSeg (segments ast)))))
               (segments ast))).
  destruct (proj1 (proj2 (tfThis_total (S (list_max (map depthSeg (segments ast))))))
              (segments ast) (le_n _)) as [segs' ->].
  simpl. eauto.
Qed.

(** *** Induction over the calls of the pipeline

    [PE e e'] is shown for every element [e] that the pipeline turns into
    [e'], provided it follows, for one element, from the same fact on the
    elements below it. *)

Section TfInduction.

Variable PE : HtmlElement -> HtmlElement -> Prop.

Definition RSeg (s s' : CodeSegment) : Prop :=
  match s with
  | CodeText t l => s' = CodeText t l
  | SegElement e => exists e', s' = SegElement e' /\ PE e e'
  end.

Definition RProp (p p' : Property) : Prop :=
  match p with
  | StaticProperty n v => p' = StaticProperty n v
  | DynamicProperty n c l => exists c', p' = DynamicProperty n c' l /\ Forall2 RSeg c c'
  | Mixin c l => exists c', p' = Mixin c' l /\ Forall2 RSeg c c'
  end.

Definition RCont (c c' : Content) : Prop :=
  match c with
  | ContElement e => exists e', c' = ContElement e' /\ PE e e'
  | HtmlText t => c' = HtmlText t
  | HtmlComment t => c' = HtmlComment t
  | HtmlInsert code l => exists code', c' = HtmlInsert code' l /\ Forall2 RSeg code code'
  end.

Hypothesis PE_step :
  forall tag ps cs loc ps' cs',
    Forall2 RProp (uniqueProperties (stagedProperties tag ps cs)) ps' ->
    Forall2 RCont (stagedContent tag cs) cs' ->
    PE (mkHtmlElement tag ps cs loc) (mkHtmlElement tag ps' cs' loc).

Lemma tfThis_rel (n : nat) :
  (forall e e', this_HtmlElement (tfThis n) e = Some e' -> PE e e')
  /\ (forall segs segs', this_CodeSegments (tfThis n) segs = Some segs' ->
        Forall2 RSeg segs segs')
  /\ (forall p p', copyProperty (tfThis n) p = Some p' -> RProp p p')
  /\ (forall c c', copyContent (tfThis n) c = Some c' -> RCont c c').
Proof.
  induction n as [n IH] using lt_wf_ind.
  assert (Hel : forall e e', this_HtmlElement (tfThis n) e = Some e' -> PE e e').
  { intros [tag ps cs loc] e' H. destruct n as [|n]; [discriminate H|].
    rewrite tf_element_eq in H.
    destruct (IH n (Nat.lt_succ_diag_r n)) as (_ & _ & IHp & IHc).
    destruct (mapM _ (uniqueProperties _)) as [ps'|] eqn:Ep; [|discriminate H].
    destruct (mapM _ (stagedContent _ _)) as [cs'|] eqn:Ec; [|discriminate H].
    injection H as <-. apply PE_step.
    - apply mapM_Forall2 in Ep. eapply Forall2_impl; [|exact Ep]. intros x y _. apply IHp.
    - apply mapM_Forall2 in Ec. eapply Forall2_impl; [|exact Ec]. intros x y _. apply IHc. }
  assert (Hsegs : forall m segs segs', (m <= n)%nat ->
                    this_CodeSegments (tfThis m) segs = Some segs' -> Forall2 RSeg segs segs').
  { intros m segs segs' Hm H. destruct m as [|m]; [discriminate H|].
    change (this_CodeSegments (tfThis (S m)) segs)
      with (mapM (copySegment (tfThis m)) segs) in H.
    apply mapM_Forall2 in H. eapply Forall2_impl; [|exact H].
    intros [t l|e] s' _ Hs; simpl in *.
    - destruct m; [discriminate Hs|]. simpl in Hs. now injection Hs as <-.
    - destruct (this_HtmlElement (tfThis m) e) as [e'|] eqn:Ee; [|discriminate Hs].
      simpl in Hs. injection Hs as <-. exists e'. split; [reflexivity|].
      destruct (IH m) as (IHe & _); [lia|]. now apply IHe. }
  assert (Hemb : forall m code code', (m <= n)%nat ->
                   this_EmbeddedCode (tfThis m) code = Some code' -> Forall2 RSeg code code').
  { intros m code code' Hm H. destruct m as [|m]; [discriminate H|].
    change (this_EmbeddedCode (tfThis (S m)) code)
      with (this_CodeSegments (tfThis m) code) in H.
    eapply Hsegs; [|exact H]. lia. }
  repeat match goal with |- _ /\ _ => split end.
  - exact Hel.
  - intros segs segs'. apply Hsegs. lia.
  - intros [nm v|nm c l|c l] p' H; (destruct n as [|n]; [discriminate H|]).
    + simpl in H. now injection H as <-.
    + change (copyProperty (tfThis (S n)) (DynamicProperty nm c l))
        with (option_map (fun c' => DynamicProperty nm c' l)
                (this_EmbeddedCode (tfThis n) c)) in H.
      destruct (this_EmbeddedCode (tfThis n) c) as [c'|] eqn:E; [|discriminate H].
      simpl in H. injection H as <-. exists c'. split; [reflexivity|].
      eapply Hemb; [|exact E]. lia.
    + change (copyProperty (tfThis (S n)) (Mixin c l))
        with (option_map (fun c' => Mixin c' l) (this_EmbeddedCode (tfThis n) c)) in H.
      destruct (this_EmbeddedCode (tfThis n) c) as [c'|] eqn:E; [|discriminate H].
      simpl in H. injection H as <-. exists c'. split; [reflexivity|].
      eapply Hemb; [|exact E]. lia.
  - intros [e|t|t|c l] c' H.
    + simpl in H. destruct (this_HtmlElement (tfThis n) e) as [e'|] eqn:Ee;
        [|discriminate H].
      simpl in H. injection H as <-. exists e'. split; [reflexivity|]. now apply Hel.
    + destruct n as [|n]; [discriminate H|]. simpl in H. now injection H as <-.
    + destruct n as [|n]; [discriminate H|]. simpl in H. now injection H as <-.
    + destruct n as [|n]; [discriminate H|].
      change (copyContent (tfThis (S n)) (HtmlInsert c l))
        with (option_map (fun c' => HtmlInsert c' l) (this_EmbeddedCode (tfThis n) c)) in H.
      destruct (this_EmbeddedCode (tfThis n) c) as [c''|] eqn:E; [|discriminate H].
      simpl in H. injection H as <-. exists c''. split; [reflexivity|].
      eapply Hemb; [|exact E]. lia.
Qed.

Lemma transform_rel (ast ast' : CodeTopLevel) :
  transform ast = Some ast' -> Forall2 RSeg (segments ast) (segments ast').
Proof.
  unfold transform, transformFuel. intro H.
  change (this_CodeTopLevel (tfThis (S (S (list_max (map depthSeg (segments ast)))))) ast)
    with (option_map mkCodeTopLevel
            (this_CodeSegments (tfThis (S (list_max (map depthSeg (segments ast)))))
               (segments ast))) in H.
  destruct (this_CodeSegments _ (segments ast)) as [segs'|] eqn:E; [|discriminate H].
  simpl in H. injection H as <-. simpl.
  exact (proj1 (proj2 (tfThis_rel _)) _ _ E).
Qed.

End TfInduction.

(** ** Duplicate removal keeps the last occurrence *)

Definition hasName (n : str) (p : Property) : bool :=
  match propName p with Some m => eqs m n | None => false end.

(** In words: a property is kept when it is a Mixin or when no later
    property carries its name. *)
Fixpoint keepLast (ps : list Property) : list Property :=
  match ps with
  | [] => []
  | p :: r =>
    if match propName p with
       | None => true
       | Some n => negb (existsb (hasName n) r)
       end
    then p :: keepLast r
    else keepLast r
  end.

(** The names of the named properties, in order. *)
Definition propNames (ps : list Property) : list str :=
  flat_map (fun p => match propName p with Some n => [n] | None => [] end) ps.

Lemma objGet_objSet {V} (o : list (str * V)) (k k' : str) (v : V) :
  objGet (objSet o k v) k' = if eqs k k' then Some v else objGet o k'.
Proof.
  induction o as [|[a b] r IH]; simpl; [reflexivity|].
  destruct (eqs a k) eqn:E1; simpl.
  - apply eqs_true in E1. subst a. destruct (eqs k k'); reflexivity.
  - rewrite IH. destruct (eqs a k') eqn:E2; [|reflexivity].
    destruct (eqs k k') eqn:E3; [|reflexivity].
    apply eqs_true in E2, E3. subst. rewrite eqs_refl in E1. discriminate E1.
Qed.

Fixpoint lastIdxFrom (n : str) (i : nat) (ps : list Property) : option nat :=
  match ps with
  | [] => None
  | p :: r =>
    match lastIdxFrom n (S i) r with
    | Some j => Some j
    | None => if hasName n p then Some i else None
    end
  end.

Definition lastidStep (lastid : list (str * nat)) (p : Property) (i : nat)
  : list (str * nat) :=
  match propName p with
  | None => lastid
  | Some n => objSet lastid n i
  end.

Lemma objGet_foldIdx (ps : list Property) :
  forall (i : nat) (acc : list (str * nat)) (n : str),
    objGet (foldIdx lastidStep i ps acc) n
    = match lastIdxFrom n i ps with
      | Some j => Some j
      | None => objGet acc n
      end.
Proof.
  induction ps as [|p r IH]; intros i acc n; simpl; [reflexivity|].
  rewrite IH. destruct (lastIdxFrom n (S i) r); [reflexivity|].
  unfold lastidStep, hasName. destruct (propName p) as [m|]; [|reflexivity].
  rewrite objGet_objSet. destruct (eqs m n); reflexivity.
Qed.

Lemma lastIdxFrom_ge (n : str) (ps : list Property) :
  forall i j, lastIdxFrom n i ps = Some j -> (i <= j)%nat.
Proof.
  induction ps as [|p r IH]; simpl; intros i j H; [discriminate H|].
  destruct (lastIdxFrom n (S i) r) as [k|] eqn:E.
  - injection H as <-. apply IH in E. lia.
  - destruct (hasName n p); [|discriminate H]. injection H as <-. lia.
Qed.

Lemma lastIdxFrom_none (n : str) (ps : list Property) :
  forall i, lastIdxFrom n i ps = None <-> existsb (hasName n) ps = false.
Proof.
  induction ps as [|p r IH]; simpl; intro i; [tauto|].
  destruct (lastIdxFrom n (S i) r) as [k|] eqn:E.
  - split; [discriminate|]. intro H. apply orb_false_iff in H as [_ H].
    apply (IH (S i)) in H. congruence.
  - apply IH in E. rewrite E, orb_false_r. destruct (hasName n p); split; congruence.
Qed.

Lemma lastIdxFrom_app (n : str) (pre ps : list Property) :
  forall i, lastIdxFrom n i (pre ++ ps)
            = match lastIdxFrom n (i + length pre) ps with
              | Some j => Some j
              | None => lastIdxFrom n i pre
              end.
Proof.
  induction pre as [|p pre IH]; simpl; intro i.
  - rewrite Nat.add_0_r. destruct (lastIdxFrom n i ps); reflexivity.
  - rewrite IH. replace (S i + length pre)%nat with (i + S (length pre))%nat by lia.
    destruct (lastIdxFrom n (i + S (length pre)) ps); reflexivity.
Qed.

Lemma filterIdx_keepLast (ps : list Property) :
  forall pre : list Property,
    filterIdx (fun p i =>
                 match propName p with
                 | None => true
                 | Some n => match objGet (lastidOf (pre ++ ps)) n with
                             | Some j => (j =? i)%nat
                             | None => false
                             end
                 end) (length pre) ps
    = keepLast ps.
Proof.
  induction ps as [|p r IH]; intro pre; simpl; [reflexivity|].
  specialize (IH (pre ++ [p])). rewrite <- app_assoc, length_app in IH. simpl in IH.
  rewrite Nat.add_1_r in IH. rewrite IH.
  destruct (propName p) as [n|] eqn:En; [|reflexivity].
  unfold lastidOf.
  change (fun lastid p0 i => match propName p0 with
                             | Some n0 => objSet lastid n0 i
                             | None => lastid
                             end) with lastidStep.
  rewrite objGet_foldIdx, lastIdxFrom_app. simpl.
  assert (Hn : hasName n p = true) by (unfold hasName; rewrite En; apply eqs_refl).
  rewrite Hn.
  destruct (lastIdxFrom n (S (length pre)) r) as [j|] eqn:E.
  - assert (Hex : existsb (hasName n) r = true).
    { destruct (existsb (hasName n) r) eqn:X; [reflexivity|].
      apply (lastIdxFrom_none n r (S (length pre))) in X. congruence. }
    rewrite Hex. simpl. apply lastIdxFrom_ge in E.
    destruct (j =? length pre)%nat eqn:Ej; [|reflexivity].
    apply Nat.eqb_eq in Ej. lia.
  - apply lastIdxFrom_none in E. rewrite E. simpl. now rewrite Nat.eqb_refl.
Qed.

Lemma uniqueProperties_keepLast (ps : list Property) : uniqueProperties ps = keepLast ps.
Proof. exact (filterIdx_keepLast ps []). Qed.

Lemma keepLast_hasName (n : str) (ps : list Property) :
  existsb (hasName n) (keepLast ps) = existsb (hasName n) ps.
Proof.
  induction ps as [|p r IH]; simpl; [reflexivity|].
  destruct (propName p) as [m|] eqn:E; simpl.
  - destruct (existsb (hasName m) r) eqn:X; simpl; [|now rewrite IH].
    rewrite IH. destruct (hasName n p) eqn:Hn; [|reflexivity].
    unfold hasName in Hn. rewrite E in Hn. apply eqs_true in Hn. subst m.
    now rewrite X.
  - now rewrite IH.
Qed.

Lemma propNames_in (n : str) (ps : list Property) :
  In n (propNames ps) <-> existsb (hasName n) ps = true.
Proof.
  induction ps as [|p r IH]; simpl; [split; [tauto|discriminate]|].
  unfold propNames in *. simpl. rewrite in_app_iff, IH, orb_true_iff.
  unfold hasName at 2. destruct (propName p) as [m|]; simpl.
  - rewrite eqs_true. intuition congruence.
  - intuition congruence.
Qed.

Lemma keepLast_NoDup (ps : list Property) : NoDup (propNames (keepLast ps)).
Proof.
  induction ps as [|p r IH]; simpl; [constructor|].
  destruct (propName p) as [n|] eqn:E.
  - destruct (existsb (hasName n) r) eqn:X; simpl; [assumption|].
    unfold propNames. simpl. rewrite E. simpl. constructor; [|assumption].
    intro Hin. apply propNames_in in Hin. rewrite keepLast_hasName in Hin. congruence.
  - unfold propNames. simpl. rewrite E. assumption.
Qed.

Lemma keepLast_fixed (ps : list Property) : NoDup (propNames ps) -> keepLast ps = ps.
Proof.
  induction ps as [|p r IH]; simpl; [reflexivity|].
  unfold propNames. simpl. destruct (propName p) as [n|] eqn:E; simpl; intro H.
  - inversion H as [|? ? Hn Hr]; subst.
    destruct (existsb (hasName n) r) eqn:X.
    + exfalso. apply Hn. now apply propNames_in.
    + simpl. f_equal. now apply IH.
  - f_equal. now apply IH.
Qed.

Lemma keepLast_mixins (ps : list Property) :
  filter isMixin (keepLast ps) = filter isMixin ps.
Proof.
  induction ps as [|p r IH]; simpl; [reflexivity|].
  destruct p as [n v|n c l|c l]; simpl.
  - destruct (existsb (hasName n) r); simpl; assumption.
  - destruct (existsb (hasName n) r); simpl; assumption.
  - now rewrite IH.
Qed.


(** ** C10: promotion of the first text child *)

Definition textContentOf (text : str) : Property :=
  StaticProperty (js "textContent") (codeStr text).

Lemma keepLast_snoc_static (ps : list Property) (n v : str) :
  exists front, keepLast (ps ++ [StaticProperty n v]) = front ++ [StaticProperty n v].
Proof.
  induction ps as [|p r [front IH]]; simpl.
  - now exists [].
  - rewrite IH. match goal with |- context [if ?b then _ else _] => destruct b end.
    + now exists (p :: front).
    + now exists front.
Qed.

Lemma mapM_app_inv {A B} (f : A -> option B) (l1 l2 : list A) (l' : list B) :
  mapM f (l1 ++ l2) = Some l' ->
  exists a b, l' = a ++ b /\ mapM f l1 = Some a /\ mapM f l2 = Some b.
Proof.
  revert l'; induction l1 as [|x l1 IH]; simpl; intros l' H.
  - exists [], l'. auto.
  - destruct (f x) as [y|]; [|discriminate H].
    destruct (mapM f (l1 ++ l2)) as [r|] eqn:E; [|discriminate H].
    simpl in H. injection H as <-.
    destruct (IH r eq_refl) as (a & b & -> & -> & ->).
    exists (y :: a), b. auto.
Qed.

Definition c10_ast : HtmlElement :=
  mkHtmlElement (js "div") []
    [HtmlText (js "a"); ContElement (mkHtmlElement (js "b") [] [] (mkLOC 0 14 14));
     HtmlText (js "c")] (mkLOC 0 8 8).

(** C10, as amended: for every element with a lower-case tag whose first
    child, once the text children made of white space only have been
    removed, is a Text node, the pipeline returns the element with the
    property [textContent] (the text encoded by [codeStr]) as its last
    property, and with the other children that are not white-space text in
    their places, each replaced by its own transform; this holds with any
    number of further children.  The parsed
    [let x = <div>a<b></b>c</div>;] is an example. *)
Theorem C10_first_text_promoted (tag : str) (ps : list Property) (cs : list Content)
  (loc : LOC) (text : str) (rest : list Content) :
  lowerStart tag = true ->
  filter nonWhitespace cs = HtmlText text :: rest ->
  (exists e', this_HtmlElement (tfThis (depthEl (mkHtmlElement tag ps cs loc)))
                (mkHtmlElement tag ps cs loc) = Some e')
  /\ (forall n e',
        this_HtmlElement (tfThis n) (mkHtmlElement tag ps cs loc) = Some e' ->
        exists front rest',
          e' = mkHtmlElement tag (front ++ [textContentOf text]) rest' loc
          /\ Forall2 (fun c c' => copyContent (tfThis (pred n)) c = Some c') rest rest')
  /\ parse (tokenize (js "let x = <div>a<b></b>c</div>;")) true
     = Ok (mkCodeTopLevel [CodeText (js "let x = ") (mkLOC 0 0 0); SegElement c10_ast;
                           CodeText (js ";") (mkLOC 0 28 28)])
  /\ this_HtmlElement (tfThis 2) c10_ast
     = Some (mkHtmlElement (js "div") [textContentOf (js "a")]
               [ContElement (mkHtmlElement (js "b") [] [] (mkLOC 0 14 14));
                HtmlText (js "c")] (mkLOC 0 8 8)).
Proof.
  intros Hl Hf. split; [|split; [|split; vm_compute; reflexivity]].
  - apply (proj1 (tfThis_total _)). apply le_n.
  - intros n e' H. destruct n as [|n]; [discriminate H|].
    rewrite tf_element_eq in H.
    assert (Hp : promoted tag cs = Some text) by (unfold promoted; now rewrite Hf, Hl).
    unfold stagedContent, stagedProperties in H. rewrite Hp, Hf in H.
    cbn [skipn] in H. rewrite uniqueProperties_keepLast in H.
    destruct (keepLast_snoc_static (translatedProperties tag ps) (js "textContent")
                (codeStr text)) as [front Hk].
    rewrite Hk in H.
    destruct (mapM (copyProperty (tfThis n)) _) as [ps'|] eqn:Ep; [|discriminate H].
    destruct (mapM (copyContent (tfThis n)) rest) as [rest'|] eqn:Ec; [|discriminate H].
    injection H as <-.
    apply mapM_app_inv in Ep as (a & b & -> & Ha & Hb).
    destruct n as [|n]; [discriminate Hb|]. simpl in Hb. injection Hb as <-.
    exists a, rest'. split; [reflexivity|]. now apply mapM_Forall2.
Qed.

Lemma C10_first_text_witness :
  exists e', this_HtmlElement (tfThis (depthEl c10_ast)) c10_ast = Some e'.
Proof.
  refine (proj1 (C10_first_text_promoted (js "div") []
            [HtmlText (js "a"); ContElement (mkHtmlElement (js "b") [] [] (mkLOC 0 14 14));
             HtmlText (js "c")] (mkLOC 0 8 8) (js "a")
            [ContElement (mkHtmlElement (js "b") [] [] (mkLOC 0 14 14)); HtmlText (js "c")]
            _ _)); reflexivity.
Defined.

(** C10 as stated fails: a first Text child made of white space is removed,
    not promoted. *)
Lemma C10_blank_first_text_not_promoted :
  ~ (forall tag ps cs loc text rest n e',
       lowerStart tag = true ->
       cs = HtmlText text :: rest ->
       this_HtmlElement (tfThis n) (mkHtmlElement tag ps cs loc) = Some e' ->
       In (textContentOf text) (propertiesOf e')).
Proof.
  intro H.
  specialize (H (js "div") []
                [HtmlText (js " ");
                 ContElement (mkHtmlElement (js "b") [] [] (mkLOC 0 14 14))]
                (mkLOC 0 8 8) (js " ")
                [ContElement (mkHtmlElement (js "b") [] [] (mkLOC 0 14 14))] 2%nat
                (mkHtmlElement (js "div") []
                   [ContElement (mkHtmlElement (js "b") [] [] (mkLOC 0 14 14))]
                   (mkLOC 0 8 8))
                eq_refl eq_refl eq_refl).
  destruct H.
Qed.

(** ** C4: property names after the transform *)

(** [ElIn x e]: the element [x] is [e] or lies within [e], among its
    children or in the code of its properties and inserts. *)
Inductive ElIn (x : HtmlElement) : HtmlElement -> Prop :=
  | ElIn_here : ElIn x x
  | ElIn_child tag ps cs loc e :
      In (ContElement e) cs -> ElIn x e -> ElIn x (mkHtmlElement tag ps cs loc)
  | ElIn_insert tag ps cs loc code l e :
      In (HtmlInsert code l) cs -> In (SegElement e) code -> ElIn x e ->
      ElIn x (mkHtmlElement tag ps cs loc)
  | ElIn_dynamic tag ps cs loc n code l e :
      In (DynamicProperty n code l) ps -> In (SegElement e) code -> ElIn x e ->
      ElIn x (mkHtmlElement tag ps cs loc)
  | ElIn_mixin tag ps cs loc code l e :
      In (Mixin code l) ps -> In (SegElement e) code -> ElIn x e ->
      ElIn x (mkHtmlElement tag ps cs loc).

Definition ElInTop (x : HtmlElement) (ast : CodeTopLevel) : Prop :=
  exists e, In (SegElement e) (segments ast) /\ ElIn x e.

(** Two properties of the same kind and name. *)
Definition sameHead (p p' : Property) : Prop :=
  propName p' = propName p /\ isMixin p' = isMixin p
  /\ (isStatic p = true -> p' = p).

Lemma Forall2_in_r {A B} (R : A -> B -> Prop) (l : list A) (l' : list B) (y : B) :
  Forall2 R l l' -> In y l' -> exists x, In x l /\ R x y.
Proof.
  induction 1 as [|a b l l' Hab F IH]; simpl; [tauto|].
  intros [->|H].
  - exists a. auto.
  - destruct (IH H) as (x & Hx & Hr). exists x. auto.
Qed.

Lemma RProp_sameHead (PE : HtmlElement -> HtmlElement -> Prop) (p p' : Property) :
  RProp PE p p' -> sameHead p p'.
Proof.
  unfold sameHead. destruct p as [n v|n c l|c l]; simpl.
  - intros ->. auto.
  - intros (c' & -> & _). simpl. repeat split. discriminate.
  - intros (c' & -> & _). simpl. repeat split. discriminate.
Qed.

Lemma Forall2_propNames (R : Property -> Property -> Prop) (l l' : list Property) :
  (forall p p', R p p' -> propName p' = propName p) ->
  Forall2 R l l' -> propNames l' = propNames l.
Proof.
  intros H F. induction F as [|p p' l l' Hp F IH]; [reflexivity|].
  unfold propNames in *. simpl. rewrite (H _ _ Hp), IH. reflexivity.
Qed.

Lemma Forall2_mixins (R : Property -> Property -> Prop) (l l' : list Property) :
  (forall p p', R p p' -> isMixin p' = isMixin p) ->
  Forall2 R l l' -> length (filter isMixin l') = length (filter isMixin l).
Proof.
  intros H F. induction F as [|p p' l l' Hp F IH]; [reflexivity|].
  simpl. rewrite (H _ _ Hp). destruct (isMixin p); simpl; congruence.
Qed.

Lemma noDup_step (tag : str) (ps : list Property) (cs : list Content) (loc : LOC)
  (ps' : list Property) (cs' : list Content) :
  let PE := fun (_ e' : HtmlElement) =>
              forall x, ElIn x e' -> NoDup (propNames (propertiesOf x)) in
  Forall2 (RProp PE) (uniqueProperties (stagedProperties tag ps cs)) ps' ->
  Forall2 (RCont PE) (stagedContent tag cs) cs' ->
  PE (mkHtmlElement tag ps cs loc) (mkHtmlElement tag ps' cs' loc).
Proof.
  intros PE Hp Hc x Hx.
  assert (Hseg : forall code code' e, Forall2 (RSeg PE) code code' ->
                   In (SegElement e) code' -> PE e e).
  { intros code code' e F Hin.
    destruct (Forall2_in_r _ _ _ _ F Hin) as ([t l|e0] & _ & Hr); simpl in Hr.
    - discriminate Hr.
    - destruct Hr as (e' & [= ->] & Hpe). exact Hpe. }
  inversion Hx as [|tag0 ps0 cs0 loc0 e Hin He|tag0 ps0 cs0 loc0 code l e Hin Hs He
                   |tag0 ps0 cs0 loc0 n code l e Hin Hs He
                   |tag0 ps0 cs0 loc0 code l e Hin Hs He]; subst.
  - simpl.
    rewrite (Forall2_propNames _ _ _ (fun p p' H => proj1 (RProp_sameHead PE p p' H)) Hp).
    rewrite uniqueProperties_keepLast. apply keepLast_NoDup.
  - destruct (Forall2_in_r _ _ _ _ Hc Hin) as ([e0|t|t|c l] & _ & Hr); simpl in Hr;
      try discriminate Hr.
    + destruct Hr as (e' & [= ->] & Hpe). now apply Hpe.
    + destruct Hr as (c' & Hr & _). discriminate Hr.
  - destruct (Forall2_in_r _ _ _ _ Hc Hin) as ([e0|t|t|c l0] & _ & Hr); simpl in Hr;
      try discriminate Hr.
    + destruct Hr as (e' & Hr & _). discriminate Hr.
    + destruct Hr as (c' & [= -> ->] & F). now apply (Hseg _ _ _ F Hs).
  - destruct (Forall2_in_r _ _ _ _ Hp Hin) as ([n0 v|n0 c l0|c l0] & _ & Hr); simpl in Hr;
      try discriminate Hr.
    + destruct Hr as (c' & [= -> -> ->] & F). now apply (Hseg _ _ _ F Hs).
    + destruct Hr as (c' & Hr & _). discriminate Hr.
  - destruct (Forall2_in_r _ _ _ _ Hp Hin) as ([n0 v|n0 c l0|c l0] & _ & Hr); simpl in Hr;
      try discriminate Hr.
    + destruct Hr as (c' & Hr & _). discriminate Hr.
    + destruct Hr as (c' & [= -> ->] & F). now apply (Hseg _ _ _ F Hs).
Qed.

Definition c4_input : str :=
  js "let x = <div onClick=" ++ DQ ++ js "x" ++ DQ ++ js " onClick={f}/>;".

Definition c4_parsed : HtmlElement :=
  mkHtmlElement (js "div")
    [StaticProperty (js "onClick") (DQ ++ js "x" ++ DQ);
     DynamicProperty (js "onClick") [CodeText (js "f") (mkLOC 0 34 33)] (mkLOC 0 25 25)]
    [] (mkLOC 0 8 8).

(** C4, as amended: the transform returns for every AST, and in its result
    the names of the properties of every element that are no Mixin are
    pairwise distinct.  For each element the properties of the result are,
    in order, those kept by the duplicate removal from the list that
    reaches it (the parsed properties with the event names of the dynamic
    ones translated, followed by the promoted [textContent] when a text is
    promoted): a named property of that list is kept exactly when no later
    one has its name, and every Mixin is kept. *)
Theorem C4_names_distinct_last_kept (ast : CodeTopLevel) :
  exists ast',
    transform ast = Some ast'
    /\ (forall x, ElInTop x ast' -> NoDup (propNames (propertiesOf x)))
    /\ (forall n tag ps cs loc e',
          this_HtmlElement (tfThis n) (mkHtmlElement tag ps cs loc) = Some e' ->
          Forall2 sameHead (keepLast (stagedProperties tag ps cs)) (propertiesOf e')
          /\ length (filter isMixin (propertiesOf e')) = length (filter isMixin ps)).
Proof.
  destruct (transform_total ast) as [ast' H]. exists ast'. split; [exact H|]. split.
  - intros x (e & Hin & Hx).
    pose proof (transform_rel _ noDup_step ast ast' H) as F.
    destruct (Forall2_in_r _ _ _ _ F Hin) as ([t l|e0] & _ & Hr); simpl in Hr.
    + discriminate Hr.
    + destruct Hr as (e1 & [= ->] & Hpe). now apply Hpe.
  - intros n tag ps cs loc e' He. destruct n as [|n]; [discriminate He|].
    rewrite tf_element_eq in He.
    destruct (mapM _ (uniqueProperties _)) as [ps'|] eqn:Ep; [|discriminate He].
    destruct (mapM _ (stagedContent _ _)) as [cs'|] eqn:Ec; [|discriminate He].
    injection He as <-. cbn [propertiesOf].
    rewrite uniqueProperties_keepLast in Ep. apply mapM_Forall2 in Ep.
    assert (F : Forall2 sameHead (keepLast (stagedProperties tag ps cs)) ps').
    { eapply Forall2_impl; [|exact Ep]. intros p p' _ Hc.
      apply (RProp_sameHead (fun _ _ => True)).
      exact (proj1 (proj2 (proj2 (tfThis_rel (fun _ _ => True)
                                    (fun _ _ _ _ _ _ _ _ => I) n))) p p' Hc). }
    split; [exact F|].
    rewrite (Forall2_mixins _ _ _ (fun p p' Hs => proj1 (proj2 Hs)) F), keepLast_mixins.
    unfold stagedProperties, translatedProperties.
    assert (Ht : forall l, filter isMixin (map translateProperty l) = map translateProperty (filter isMixin l)).
    { induction l as [|[?|?|?] l IHl]; simpl; congruence. }
    destruct (promoted tag cs); destruct (lowerStart tag);
      rewrite ?filter_app, ?Ht, ?length_app, ?length_map; simpl; lia.
Qed.

(** C4 as stated fails: in [<div onClick="x" onClick={f}/>] two properties
    are written with the same name, and the static one, which comes first,
    is kept beside the dynamic one (whose name alone is translated). *)
Lemma C4_earlier_same_named_kept :
  parse (tokenize c4_input) true
  = Ok (mkCodeTopLevel [CodeText (js "let x = ") (mkLOC 0 0 0); SegElement c4_parsed;
                        CodeText (js ";") (mkLOC 0 38 38)])
  /\ propNames (propertiesOf c4_parsed) = [js "onClick"; js "onClick"]
  /\ transform (mkCodeTopLevel [SegElement c4_parsed])
     = Some (mkCodeTopLevel
               [SegElement (mkHtmlElement (js "div")
                  [StaticProperty (js "onClick") (DQ ++ js "x" ++ DQ);
                   DynamicProperty (js "onclick") [CodeText (js "f") (mkLOC 0 34 33)]
                                   (mkLOC 0 25 25)]
                  [] (mkLOC 0 8 8))]).
Proof. conj_compute. Qed.

(** ** C7: the pipeline applied twice *)

(** No two Text children follow each other. *)
Fixpoint noAdjacentText (cs : list Content) : Prop :=
  match cs with
  | c :: ((c' :: _) as r) => (isText c = true -> isText c' = false) /\ noAdjacentText r
  | _ => True
  end.

(** The shape of the elements the parser builds: in every element, at any
    depth, no two Text children follow each other. *)
Inductive wfSeg : CodeSegment -> Prop :=
  | wfSeg_text t l : wfSeg (CodeText t l)
  | wfSeg_element e : wfEl e -> wfSeg (SegElement e)
with wfEl : HtmlElement -> Prop :=
  | wfEl_intro tag ps cs loc :
      noAdjacentText cs -> Forall wfProp ps -> Forall wfCont cs ->
      wfEl (mkHtmlElement tag ps cs loc)
with wfProp : Property -> Prop :=
  | wfProp_static n v : wfProp (StaticProperty n v)
  | wfProp_dynamic n code l : Forall wfSeg code -> wfProp (DynamicProperty n code l)
  | wfProp_mixin code l : Forall wfSeg code -> wfProp (Mixin code l)
with wfCont : Content -> Prop :=
  | wfCont_element e : wfEl e -> wfCont (ContElement e)
  | wfCont_text t : wfCont (HtmlText t)
  | wfCont_comment t : wfCont (HtmlComment t)
  | wfCont_insert code l : Forall wfSeg code -> wfCont (HtmlInsert code l).

Lemma noAdjacentText_filter (cs : list Content) :
  noAdjacentText cs -> noAdjacentText (filter nonWhitespace cs).
Proof.
  assert (G : forall cs, noAdjacentText cs ->
                noAdjacentText (filter nonWhitespace cs)
                /\ (forall c r, cs = c :: r -> isText c = true ->
                      match filter nonWhitespace r with
                      | c' :: _ => isText c' = false
                      | [] => True
                      end)).
  { clear cs. induction cs as [|c r IH]; [simpl; split; [tauto|discriminate]|].
    intro H.
    assert (Hr : noAdjacentText r) by (destruct r; [exact I|apply H]).
    destruct (IH Hr) as [IH1 IH2]. split.
    - simpl. destruct (nonWhitespace c) eqn:E; [|assumption].
      destruct (filter nonWhitespace r) as [|c' r'] eqn:Ef; [exact I|].
      split; [|assumption]. intro Hc.
      destruct r as [|d r0]; [discriminate Ef|]. destruct H as [H1 H2].
      specialize (H1 Hc). simpl in Ef.
      destruct (nonWhitespace d) eqn:Ed.
      + injection Ef as <- <-. assumption.
      + destruct d; try discriminate H1; discriminate Ed.
    - intros c0 r0 [= <- <-] Hc.
      destruct r as [|d r0]; [exact I|]. destruct H as [H1 H2]. specialize (H1 Hc).
      simpl. destruct (nonWhitespace d) eqn:Ed; [assumption|].
      destruct d; try discriminate H1; discriminate Ed. }
  intro H. apply (G cs H).
Qed.

Lemma toLowerCase_not_event (name : str) :
  jsxEventProperty name = true -> jsxEventProperty (toLowerCase name) = false.
Proof.
  destruct name as [|o [|n [|c r]]]; try discriminate. simpl.
  intro H. apply andb_true_iff in H as [H Hc]. apply andb_true_iff in H as [Ho Hn].
  apply N.eqb_eq in Ho, Hn. subst o n. cbn [isUpper inRange N.leb N.compare andb].
  change (isUpper 111) with false. change (isUpper 110) with false. cbv iota.
  change (111 =? 111) with true. change (110 =? 110) with true. cbn [andb].
  rewrite Hc. unfold isUpper, inRange in *.
  apply andb_true_iff in Hc as [H1 H2]. apply N.leb_le in H1, H2.
  apply andb_false_iff. right. apply N.leb_gt. lia.
Qed.

Lemma translateJSXPropertyName_idem (name : str) :
  translateJSXPropertyName (translateJSXPropertyName name) = translateJSXPropertyName name.
Proof.
  unfold translateJSXPropertyName. destruct (jsxEventProperty name) eqn:E.
  - destruct (eqs name (js "onDoubleClick")); [reflexivity|].
    now rewrite (toLowerCase_not_event name E).
  - now rewrite E.
Qed.

(** The names of the dynamic properties are translated already. *)
Definition translatedName (p : Property) : Prop := translateProperty p = p.

Lemma map_fixed {A} (f : A -> A) (l : list A) :
  Forall (fun x => f x = x) l -> map f l = l.
Proof. induction 1; simpl; congruence. Qed.

Lemma Forall2_Forall_r {A B} (R : A -> B -> Prop) (Q : B -> Prop) (l : list A)
  (l' : list B) :
  (forall x y, In x l -> R x y -> Q y) -> Forall2 R l l' -> Forall Q l'.
Proof.
  intros H F. induction F as [|x y l l' Hxy F IH]; constructor.
  - apply (H x y); [now left|assumption].
  - apply IH. intros a b Ha. apply H. now right.
Qed.

Lemma Forall_exists_fuel {A} (f : nat -> A -> option A) (l : list A) :
  (forall n m x y, (n <= m)%nat -> f n x = Some y -> f m x = Some y) ->
  Forall (fun x => exists n, f n x = Some x) l ->
  exists n, Forall (fun x => f n x = Some x) l.
Proof.
  intros Hm F. induction F as [|x l [n Hn] F [k IH]].
  - exists 0%nat. constructor.
  - exists (Nat.max n k). constructor.
    + eapply Hm; [|exact Hn]. lia.
    + eapply Forall_impl; [|exact IH]. intros a Ha. eapply Hm; [|exact Ha]. lia.
Qed.

Lemma mapM_fixed {A} (f : A -> option A) (l : list A) :
  Forall (fun x => f x = Some x) l -> mapM f l = Some l.
Proof. induction 1 as [|x l Hx F IH]; simpl; [reflexivity|]. now rewrite Hx, IH. Qed.

Lemma copySegment_mono (n m : nat) (s s' : CodeSegment) :
  (n <= m)%nat -> copySegment (tfThis n) s = Some s' -> copySegment (tfThis m) s = Some s'.
Proof.
  intros H. destruct (tfThis_extends n m H) as (_ & _ & _ & H4 & _ & H6 & _).
  destruct s as [t l|e]; simpl; [apply H6|].
  apply option_map_extends. intro x. apply H4.
Qed.

Lemma copyProperty_mono (n m : nat) (p p' : Property) :
  (n <= m)%nat -> copyProperty (tfThis n) p = Some p' -> copyProperty (tfThis m) p = Some p'.
Proof.
  intros H.
  destruct (tfThis_extends n m H) as (_ & _ & _ & _ & _ & _ & _ & _ & H9 & H10 & H11).
  destruct p as [nm v|nm c l|c l]; simpl; [apply H9|apply H10|apply H11].
Qed.

Lemma copyContent_mono (n m : nat) (c c' : Content) :
  (n <= m)%nat -> copyContent (tfThis n) c = Some c' -> copyContent (tfThis m) c = Some c'.
Proof.
  intros H.
  destruct (tfThis_extends n m H) as (_ & _ & _ & H4 & H5 & _ & H7 & H8 & _).
  destruct c as [e|t|t|c l]; simpl; [|apply H7|apply H8|apply H5].
  apply option_map_extends. intro x. apply H4.
Qed.

(** What one run of the pipeline establishes about an element [e']: a
    second run returns [e'] itself. *)
Definition fixedEl (e e' : HtmlElement) : Prop :=
  wfEl e -> exists n, this_HtmlElement (tfThis n) e' = Some e'.

Lemma fixed_segments (code code' : list CodeSegment) :
  Forall wfSeg code -> Forall2 (RSeg fixedEl) code code' ->
  exists n, this_EmbeddedCode (tfThis n) code' = Some code'.
Proof.
  intros Hw F.
  assert (G : Forall (fun s => exists n, copySegment (tfThis n) s = Some s) code').
  { eapply Forall2_Forall_r; [|exact F]. intros [t l|e] s' Hin Hr; simpl in Hr.
    - subst s'. exists 1%nat. reflexivity.
    - destruct Hr as (e' & -> & Hf). rewrite Forall_forall in Hw.
      specialize (Hw _ Hin). inversion Hw as [|? Hwe]; subst.
      destruct (Hf Hwe) as [n Hn]. exists n. simpl. now rewrite Hn. }
  destruct (Forall_exists_fuel (fun n => copySegment (tfThis n)) code'
              copySegment_mono G) as [n Hn].
  exists (S (S n)).
  change (this_EmbeddedCode (tfThis (S (S n))) code')
    with (mapM (copySegment (tfThis n)) code').
  now apply mapM_fixed.
Qed.

Lemma stagedProperties_wf (tag : str) (ps : list Property) (cs : list Content) :
  Forall wfProp ps -> Forall wfProp (stagedProperties tag ps cs).
Proof.
  intro H.
  assert (Ht : Forall wfProp (translatedProperties tag ps)).
  { unfold translatedProperties. destruct (lowerStart tag); [|assumption].
    apply Forall_map. eapply Forall_impl; [|exact H].
    intros [?|?|?] Hp; simpl; inversion Hp; now constructor. }
  unfold stagedProperties. destruct (promoted tag cs); [|assumption].
  apply Forall_app. split; [assumption|]. repeat constructor.
Qed.

Lemma stagedProperties_translated (tag : str) (ps : list Property) (cs : list Content) :
  lowerStart tag = true -> Forall translatedName (stagedProperties tag ps cs).
Proof.
  intro Hl.
  assert (Ht : Forall translatedName (translatedProperties tag ps)).
  { unfold translatedProperties. rewrite Hl. apply Forall_map.
    apply Forall_forall. intros [?|n c l|?] _; unfold translatedName; simpl;
      try reflexivity.
    now rewrite translateJSXPropertyName_idem. }
  unfold stagedProperties. destruct (promoted tag cs); [|assumption].
  apply Forall_app. split; [assumption|]. repeat constructor.
Qed.

Lemma RCont_isText (PE : HtmlElement -> HtmlElement -> Prop) (c c' : Content) :
  RCont PE c c' -> isText c' = isText c /\ nonWhitespace c' = nonWhitespace c.
Proof.
  destruct c as [e|t|t|code l]; simpl.
  - intros (e' & -> & _). auto.
  - intros ->. auto.
  - intros ->. auto.
  - intros (code' & -> & _). auto.
Qed.

Lemma stagedContent_head (tag : str) (cs : list Content) :
  noAdjacentText cs ->
  Forall (fun c => nonWhitespace c = true) (stagedContent tag cs)
  /\ (lowerStart tag = true ->
      match stagedContent tag cs with
      | c :: _ => isText c = false
      | [] => True
      end).
Proof.
  intro Hn. apply noAdjacentText_filter in Hn.
  assert (Hf : Forall (fun c => nonWhitespace c = true) (filter nonWhitespace cs)).
  { apply Forall_forall. intros c Hc. now apply filter_In in Hc. }
  unfold stagedContent, promoted.
  destruct (filter nonWhitespace cs) as [|c r]; [split; [constructor|tauto]|].
  destruct c as [e|t|t|code l]; try (split; [assumption|reflexivity]).
  destruct (lowerStart tag); [|split; [assumption|discriminate]].
  simpl. split; [now inversion Hf|]. intros _.
  destruct r as [|c' r']; [exact I|]. now apply Hn.
Qed.

Lemma fixed_step (tag : str) (ps : list Property) (cs : list Content) (loc : LOC)
  (ps' : list Property) (cs' : list Content) :
  Forall2 (RProp fixedEl) (uniqueProperties (stagedProperties tag ps cs)) ps' ->
  Forall2 (RCont fixedEl) (stagedContent tag cs) cs' ->
  fixedEl (mkHtmlElement tag ps cs loc) (mkHtmlElement tag ps' cs' loc).
Proof.
  intros Hp Hc Hw. inversion Hw as [? ? ? ? Hadj Hwp Hwc]; subst.
  (* the content of the result is left alone by the overlays *)
  destruct (stagedContent_head tag cs Hadj) as [Hnw Hhead].
  assert (Hcs1 : filter nonWhitespace cs' = cs').
  { apply filter_length_same. f_equal.
    assert (G : Forall (fun c => nonWhitespace c = true) cs').
    { clear Hhead. induction Hc as [|c c' l l' Hcc F IH]; constructor.
      - rewrite (proj2 (RCont_isText _ _ _ Hcc)). now inversion Hnw.
      - apply IH. now inversion Hnw. }
    clear -G. induction G as [|c l Hc G IH]; simpl; [reflexivity|].
    rewrite Hc. simpl. now rewrite IH. }
  assert (Hprom : promoted tag cs' = None).
  { unfold promoted. rewrite Hcs1. destruct (lowerStart tag) eqn:El.
    - specialize (Hhead eq_refl). inversion Hc as [|c c' l l' Hcc F]; subst.
      + reflexivity.
      + rewrite <- H in Hhead. destruct (RCont_isText _ _ _ Hcc) as [Ht _].
        destruct c'; try reflexivity. simpl in Ht. congruence.
    - destruct cs' as [|[?|?|?|?] ?]; reflexivity. }
  assert (Hcs2 : stagedContent tag cs' = cs')
    by (unfold stagedContent; now rewrite Hprom).
  (* and so are its properties *)
  assert (Hnames : propNames ps' = propNames (uniqueProperties (stagedProperties tag ps cs)))
    by (apply (Forall2_propNames _ _ _
                 (fun p p' H => proj1 (RProp_sameHead fixedEl p p' H)) Hp)).
  assert (Hps1 : translatedProperties tag ps' = ps').
  { unfold translatedProperties. destruct (lowerStart tag) eqn:El; [|reflexivity].
    apply map_fixed. eapply Forall2_Forall_r; [|exact Hp].
    intros p p' Hin Hr.
    pose proof (stagedProperties_translated tag ps cs El) as Ht.
    rewrite Forall_forall in Ht. specialize (Ht p (uniqueProperties_incl _ _ Hin)).
    unfold translatedName in *. destruct p as [n v|n c l|c l]; simpl in Hr.
    - now subst p'.
    - destruct Hr as (c' & -> & _). simpl in *. congruence.
    - destruct Hr as (c' & -> & _). reflexivity. }
  assert (Hps2 : uniqueProperties (stagedProperties tag ps' cs') = ps').
  { unfold stagedProperties. rewrite Hprom, Hps1, uniqueProperties_keepLast.
    apply keepLast_fixed. rewrite Hnames, uniqueProperties_keepLast.
    apply keepLast_NoDup. }
  (* below, a second run returns the same properties and children *)
  assert (Gp : Forall (fun p => exists n, copyProperty (tfThis n) p = Some p) ps').
  { eapply Forall2_Forall_r; [|exact Hp]. intros p p' Hin Hr.
    pose proof (stagedProperties_wf tag ps cs Hwp) as Hs.
    rewrite Forall_forall in Hs. specialize (Hs p (uniqueProperties_incl _ _ Hin)).
    destruct p as [n v|n c l|c l]; simpl in Hr.
    - subst p'. exists 1%nat. reflexivity.
    - destruct Hr as (c' & -> & F). inversion Hs; subst.
      destruct (fixed_segments c c') as [k Hk]; [assumption|assumption|].
      exists (S k).
      change (copyProperty (tfThis (S k)) (DynamicProperty n c' l))
        with (option_map (fun x => DynamicProperty n x l) (this_EmbeddedCode (tfThis k) c')).
      now rewrite Hk.
    - destruct Hr as (c' & -> & F). inversion Hs; subst.
      destruct (fixed_segments c c') as [k Hk]; [assumption|assumption|].
      exists (S k).
      change (copyProperty (tfThis (S k)) (Mixin c' l))
        with (option_map (fun x => Mixin x l) (this_EmbeddedCode (tfThis k) c')).
      now rewrite Hk. }
  assert (Gc : Forall (fun c => exists n, copyContent (tfThis n) c = Some c) cs').
  { eapply Forall2_Forall_r; [|exact Hc]. intros c c' Hin Hr.
    rewrite Forall_forall in Hwc. specialize (Hwc c (stagedContent_incl _ _ _ Hin)).
    destruct c as [e|t|t|code l]; simpl in Hr.
    - destruct Hr as (e' & -> & Hf). inversion Hwc; subst.
      destruct (Hf H0) as [k Hk]. exists k. simpl. now rewrite Hk.
    - subst c'. exists 1%nat. reflexivity.
    - subst c'. exists 1%nat. reflexivity.
    - destruct Hr as (code' & -> & F). inversion Hwc; subst.
      destruct (fixed_segments code code') as [k Hk]; [assumption|assumption|].
      exists (S k).
      change (copyContent (tfThis (S k)) (HtmlInsert code' l))
        with (option_map (fun x => HtmlInsert x l) (this_EmbeddedCode (tfThis k) code')).
      now rewrite Hk. }
  destruct (Forall_exists_fuel (fun n => copyProperty (tfThis n)) ps'
              copyProperty_mono Gp) as [n1 H1].
  destruct (Forall_exists_fuel (fun n => copyContent (tfThis n)) cs'
              copyContent_mono Gc) as [n2 H2].
  exists (S (Nat.max n1 n2)). rewrite tf_element_eq, Hps2, Hcs2.
  rewrite mapM_fixed, mapM_fixed; [reflexivity| |].
  - eapply Forall_impl; [|exact H2]. intros c. apply copyContent_mono. lia.
  - eapply Forall_impl; [|exact H1]. intros p. apply copyProperty_mono. lia.
Qed.

(** On an AST of the parser's shape the transform is idempotent. *)
Lemma transform_idempotent_wf (ast ast1 : CodeTopLevel) :
  Forall wfSeg (segments ast) -> transform ast = Some ast1 -> transform ast1 = Some ast1.
Proof.
  intros Hw H.
  pose proof (transform_rel fixedEl fixed_step ast ast1 H) as F.
  destruct (fixed_segments (segments ast) (segments ast1) Hw F) as [n Hn].
  destruct (transform_total ast1) as [ast2 H2].
  assert (Hn' : this_CodeTopLevel (tfThis (S n)) ast1 = Some ast1).
  { change (this_CodeTopLevel (tfThis (S n)) ast1)
      with (option_map mkCodeTopLevel (this_CodeSegments (tfThis n) (segments ast1))).
    destruct n as [|n]; [discriminate Hn|].
    change (this_EmbeddedCode (tfThis (S n)) (segments ast1))
      with (this_CodeSegments (tfThis n) (segments ast1)) in Hn.
    rewrite (proj1 (proj2 (tfThis_extends n (S n) (Nat.le_succ_diag_r n))) _ _ Hn).
    destruct ast1. reflexivity. }
  unfold transform in H2 |- *.
  pose proof (topLevel_fuel_mono _ (Nat.max (S n) (transformFuel ast1)) _ _
                (Nat.le_max_l _ _) Hn') as A.
  pose proof (topLevel_fuel_mono _ (Nat.max (S n) (transformFuel ast1)) _ _
                (Nat.le_max_r _ _) H2) as B.
  rewrite H2. congruence.
Qed.

(** *** The parser builds that shape *)

Lemma bindP_Ok {A B} (m : P A) (k : A -> P B) (st : PState) (r : B * PState) :
  bindP m k st = Ok r -> exists a st1, m st = Ok (a, st1) /\ k a st1 = Ok r.
Proof. unfold bindP. destruct (m st) as [[a st1]| |]; try discriminate. eauto. Qed.

Ltac pure_read H :=
  first [ unfold NOT in H | unfold IS in H | unfold isEOF in H | unfold curTOK in H
        | unfold LOC_ in H | unfold PARENS in H | unfold retP in H ];
  injection H as ? ?; subst.

Ltac pstep H :=
  lazymatch type of H with
  | bindP _ _ _ = Ok _ =>
    let a := fresh "a" in
    let s := fresh "s" in
    let Hm := fresh "Hm" in
    apply bindP_Ok in H; destruct H as (a & s & Hm & H); cbv beta in H;
    try pure_read Hm
  | ERR _ _ _ _ = Ok _ => unfold ERR in H; discriminate H
  | retP _ _ = Ok _ => unfold retP in H; injection H as ? ?; subst
  | (if ?b then _ else _) _ = Ok _ => destruct b eqn:?
  end.

Tactic Notation "pbind" hyp(H) "as" ident(a) ident(s) ident(Hm) :=
  apply bindP_Ok in H; destruct H as (a & s & Hm & H); cbv beta in H.

Section ParserShape.

Variable TOKS : list str.
Variable jsx : bool.

Definition isStop (t : str) : bool :=
  eqs t (js "<") || eqs t (js "<!--")
  || (if jsx then eqs t (js "{") else eqs t (js "@")) || eqs t (js "</").

(** Where a text ends: at the end of the input or before a token that
    starts another kind of child or closes the element. *)
Definition stopAt (st : PState) : Prop := EOF st = true \/ isStop (TOK st) = true.

Lemma htmlTextLoop_stop (fuel : nat) :
  forall text st c st',
    htmlTextLoop jsx fuel text st = Ok (c, st') -> isText c = true /\ stopAt st'.
Proof.
  induction fuel as [|f IH]; intros text st c st' H; [discriminate H|].
  cbn [htmlTextLoop] in H. pstep H. pstep H. pstep H.
  - pstep H. eapply IH. exact H.
  - pstep H. split; [reflexivity|]. unfold stopAt, isStop.
    destruct (EOF st'); [now left|right]. simpl in Heqb.
    destruct (eqs (TOK st') (js "<")); [reflexivity|].
    destruct (eqs (TOK st') (js "<!--")); [reflexivity|].
    destruct jsx.
    + destruct (eqs (TOK st') (js "{")); [reflexivity|].
      destruct (eqs (TOK st') (js "</")); [reflexivity|discriminate Heqb].
    + destruct (eqs (TOK st') (js "@")); [reflexivity|].
      destruct (eqs (TOK st') (js "</")); [reflexivity|discriminate Heqb].
Qed.

Lemma htmlCommentLoop_shape (fuel : nat) :
  forall text start st c st',
    htmlCommentLoop TOKS fuel text start st = Ok (c, st') ->
    isText c = false /\ wfCont c.
Proof.
  induction fuel as [|f IH]; intros text start st c st' H; [discriminate H|].
  cbn [htmlCommentLoop] in H. pstep H. pstep H. pstep H.
  - pstep H. eapply IH. exact H.
  - pstep H.
    + pstep H.
    + pstep H. pstep H. split; [reflexivity|constructor].
Qed.

Lemma htmlComment_shape (fuel : nat) (st : PState) (c : Content) (st' : PState) :
  htmlComment TOKS fuel st = Ok (c, st') -> isText c = false /\ wfCont c.
Proof.
  unfold htmlComment. intro H. pstep H. pstep H; [pstep H|].
  pstep H. pstep H. eapply htmlCommentLoop_shape. exact H.
Qed.

Lemma noAdjacentText_snoc (cs : list Content) (c : Content) :
  noAdjacentText cs ->
  (match rev cs with c0 :: _ => isText c0 = true -> isText c = false | [] => True end) ->
  noAdjacentText (cs ++ [c]).
Proof.
  induction cs as [|a [|b r] IH]; intros H1 H2.
  - exact I.
  - simpl in *. auto.
  - destruct H1 as [H1 H1']. change ((a :: b :: r) ++ [c]) with (a :: b :: (r ++ [c])).
    split; [assumption|]. apply IH; [assumption|].
    simpl in H2 |- *. destruct (rev r ++ [b]) eqn:E.
    + destruct (rev r); discriminate E.
    + simpl in H2. exact H2.
Qed.

Definition lastIsText (cs : list Content) : bool :=
  match rev cs with c :: _ => isText c | [] => false end.

Lemma pushText_wf (a : CodeAcc) : Forall wfSeg (accSegments a) -> Forall wfSeg (pushText a).
Proof.
  intro H. unfold pushText. destruct (accText a); [assumption|].
  apply Forall_app. split; [assumption|]. repeat constructor.
Qed.

Lemma jsxFinish_wf (n : nat) (segs : list CodeSegment) (last : str) (loc : LOC)
  (code : EmbeddedCode) :
  Forall wfSeg segs -> jsxFinish n segs last loc = Ok code -> Forall wfSeg code.
Proof.
  intros Hw H. unfold jsxFinish in H. destruct segs as [|[t l|e] r].
  - injection H as <-. repeat constructor.
  - injection H as <-. constructor; [constructor|].
    apply Forall_app. split; [now inversion Hw|]. repeat constructor.
  - discriminate H.
Qed.

(** The statements of the mutual induction, one per function of the parser. *)
Definition shapeElement (fuel : nat) : Prop :=
  forall st e st', htmlElement TOKS jsx fuel st = Ok (e, st') -> wfEl e.
Definition shapeProperties (fuel : nat) : Prop :=
  forall acc st ps st',
    Forall wfProp acc -> propertiesLoop TOKS jsx fuel acc st = Ok (ps, st') ->
    Forall wfProp ps.
Definition shapeContent (fuel : nat) : Prop :=
  forall acc st cs st',
    Forall wfCont acc -> noAdjacentText acc ->
    (lastIsText acc = true -> stopAt st) ->
    contentLoop TOKS jsx fuel acc st = Ok (cs, st') ->
    Forall wfCont cs /\ noAdjacentText cs.
Definition shapeEmbedded (fuel : nat) : Prop :=
  forall st code st', embeddedCode TOKS jsx fuel st = Ok (code, st') -> Forall wfSeg code.
Definition shapeEmbeddedLoop (fuel : nat) : Prop :=
  forall a st a' st',
    Forall wfSeg (accSegments a) -> embeddedLoop TOKS jsx fuel a st = Ok (a', st') ->
    Forall wfSeg (accSegments a').
Definition shapeJsxEmbedded (fuel : nat) : Prop :=
  forall st code st', jsxEmbeddedCode TOKS jsx fuel st = Ok (code, st') -> Forall wfSeg code.
Definition shapeBalanced (fuel : nat) : Prop :=
  forall a st a' st',
    Forall wfSeg (accSegments a) -> balancedParens TOKS jsx fuel a st = Ok (a', st') ->
    Forall wfSeg (accSegments a').
Definition shapeBalancedLoop (fuel : nat) : Prop :=
  forall e a st a' st',
    Forall wfSeg (accSegments a) -> balancedLoop TOKS jsx fuel e a st = Ok (a', st') ->
    Forall wfSeg (accSegments a').

Definition shapeAll (fuel : nat) : Prop :=
  shapeElement fuel /\ shapeProperties fuel /\ shapeContent fuel /\ shapeEmbedded fuel
  /\ shapeEmbeddedLoop fuel /\ shapeJsxEmbedded fuel /\ shapeBalanced fuel
  /\ shapeBalancedLoop fuel.

Lemma property_shape (fuel : nat) (pe pj : P EmbeddedCode) :
  (forall st code st', pe st = Ok (code, st') -> Forall wfSeg code) ->
  (forall st code st', pj st = Ok (code, st') -> Forall wfSeg code) ->
  forall st p st', property TOKS jsx fuel pe pj st = Ok (p, st') -> wfProp p.
Proof.
  intros He Hj st p st' H. unfold property in H. pstep H.
  match goal with X : context [matchIdentifier ?t] |- _ =>
    destruct (matchIdentifier t) end; [pstep H|].
  pstep H. pstep H. pstep H. pstep H. pstep H; [pstep H|].
  pstep H. pstep H. pstep H. pstep H.
  - pstep H. pstep H. constructor.
  - pstep H.
    + pstep H. pstep H. constructor. eapply Hj. eassumption.
    + pstep H.
      * pstep H. pstep H. constructor. eapply He. eassumption.
      * pstep H.
Qed.

Lemma mixin_shape (pe : P EmbeddedCode) :
  (forall st code st', pe st = Ok (code, st') -> Forall wfSeg code) ->
  forall st p st', mixin TOKS pe st = Ok (p, st') -> wfProp p.
Proof.
  intros He st p st' H. unfold mixin in H. pstep H. pstep H; [pstep H|].
  pstep H. pstep H. pstep H. pstep H. constructor. eapply He. eassumption.
Qed.

Lemma jsxMixin_shape (pj : P EmbeddedCode) :
  (forall st code st', pj st = Ok (code, st') -> Forall wfSeg code) ->
  forall st p st', jsxMixin TOKS pj st = Ok (p, st') -> wfProp p.
Proof.
  intros Hj st p st' H. unfold jsxMixin in H. pstep H. pstep H; [pstep H|].
  pstep H. pstep H. pstep H. constructor. eapply Hj. eassumption.
Qed.

Lemma htmlInsert_shape (pe : P EmbeddedCode) :
  (forall st code st', pe st = Ok (code, st') -> Forall wfSeg code) ->
  forall st c st', htmlInsert TOKS pe st = Ok (c, st') -> isText c = false /\ wfCont c.
Proof.
  intros He st c st' H. unfold htmlInsert in H. pstep H. pstep H; [pstep H|].
  pstep H. pstep H. pstep H. pstep H. split; [reflexivity|].
  constructor. eapply He. eassumption.
Qed.

Lemma jsxHtmlInsert_shape (pj : P EmbeddedCode) :
  (forall st code st', pj st = Ok (code, st') -> Forall wfSeg code) ->
  forall st c st', jsxHtmlInsert pj st = Ok (c, st') -> isText c = false /\ wfCont c.
Proof.
  intros Hj st c st' H. unfold jsxHtmlInsert in H. pstep H. pstep H. pstep H.
  split; [reflexivity|]. constructor. eapply Hj. eassumption.
Qed.

Lemma shape_embeddedLoop_step (f : nat) : shapeAll f -> shapeEmbeddedLoop (S f).
Proof.
  intros (_ & _ & _ & _ & IHl & _ & IHb & _) a st a' st' Hw H.
  cbn [embeddedLoop] in H. pstep H. pstep H. pstep H.
  - pstep H. apply (IHl _ _ _ _) in H; [exact H|].
    match goal with X : context [parens ?t] |- _ => destruct (parens t) end.
    + eapply IHb; eassumption.
    + pstep Hm.
      * pstep Hm. pstep Hm. assumption.
      * pstep Hm. pstep Hm. assumption.
  - pstep H. assumption.
Qed.

Lemma shape_embedded_step (f : nat) : shapeAll f -> shapeEmbedded (S f).
Proof.
  intros (_ & _ & _ & _ & IHl & _) st code st' H.
  cbn [embeddedCode] in H. pstep H. pstep H.
  match goal with
  | X : context [pushText ?a] |- _ =>
    assert (Hw : Forall wfSeg (pushText a))
      by (apply pushText_wf; eapply IHl; [|eassumption]; constructor);
    destruct (pushText a); [pstep H|]
  end.
  pstep H. assumption.
Qed.

Lemma shape_balanced_step (f : nat) : shapeAll f -> shapeBalanced (S f).
Proof.
  intros (_ & _ & _ & _ & _ & _ & _ & IHl) a st a' st' Hw H.
  cbn [balancedParens] in H. pstep H. pstep H.
  match goal with X : context [parens ?t] |- _ => destruct (parens t) end; [|pstep H].
  pstep H. pstep H. pstep H. pstep H; [pstep H|].
  pstep H. pstep H. pstep H. cbn [accSegments].
  eapply IHl; [|eassumption]. assumption.
Qed.

Lemma shape_balancedLoop_step (f : nat) : shapeAll f -> shapeBalancedLoop (S f).
Proof.
  intros (IHe & _ & _ & _ & _ & _ & IHb & IHl) e a st a' st' Hw H.
  cbn [balancedLoop] in H. pstep H. pstep H. pstep H.
  - pstep H. apply (IHl _ _ _ _ _) in H; [exact H|].
    pstep Hm; [pstep Hm; pstep Hm; assumption|].
    pstep Hm; [pstep Hm; pstep Hm; assumption|].
    pstep Hm; [pstep Hm; pstep Hm; assumption|].
    pstep Hm.
    + pstep Hm. pstep Hm. pstep Hm. cbn [accSegments].
      apply Forall_app. split; [now apply pushText_wf|].
      constructor; [|constructor]. constructor. eapply IHe. eassumption.
    + match goal with X : context [parens ?t] |- _ => destruct (parens t) end.
      * eapply IHb; eassumption.
      * pstep Hm. pstep Hm. assumption.
  - pstep H. assumption.
Qed.

Lemma shape_jsxEmbedded_step (f : nat) : shapeAll f -> shapeJsxEmbedded (S f).
Proof.
  intros (_ & _ & _ & _ & _ & _ & IHb & _) st code st' H.
  cbn [jsxEmbeddedCode] in H. pstep H. pstep H; [pstep H|].
  pstep H. pstep H.
  match goal with
  | X : context [jsxFinish ?n ?sg ?t ?l] |- _ =>
    destruct (jsxFinish n sg t l) as [c| |] eqn:E; try discriminate H
  end.
  injection H as <- <-. eapply jsxFinish_wf; [|exact E].
  eapply IHb; [|eassumption]. constructor.
Qed.

Lemma shape_properties_step (f : nat) : shapeAll f -> shapeProperties (S f).
Proof.
  intros (_ & IHp & _ & IHe & _ & IHj & _) acc st ps st' Hw H.
  cbn [propertiesLoop] in H. pstep H. pstep H. pstep H.
  - pstep H. pstep H. apply (IHp _ _ _ _) in H; [exact H|].
    apply Forall_app. split; [assumption|]. constructor; [|constructor].
    match goal with X : context [matchIdentifier ?t] |- _ =>
      destruct (matchIdentifier t) end.
    + pstep Hm; [eapply mixin_shape; [apply IHe|eassumption]|].
      pstep Hm; [eapply jsxMixin_shape; [apply IHj|eassumption]|].
      pstep Hm.
    + eapply property_shape; [apply IHe|apply IHj|eassumption].
  - pstep H. assumption.
Qed.

Lemma shape_content_step (f : nat) : shapeAll f -> shapeContent (S f).
Proof.
  intros (IHel & _ & IHc & IHe & _ & IHj & _) acc st cs st' Hw Hadj Hstop H.
  cbn [contentLoop] in H. pstep H. pstep H. pstep H.
  - pbind H as c s1 Hm.
    assert (Hc : wfCont c
                 /\ (isText c = true -> lastIsText acc = false /\ stopAt s1)).
    { pstep Hm.
      - pbind Hm as e s2 He. pstep Hm.
        split; [constructor; eapply IHel; eassumption|discriminate].
      - pstep Hm.
        { destruct (htmlInsert_shape _ IHe _ _ _ Hm) as [Ht Hwc].
          split; [assumption|congruence]. }
        pstep Hm.
        { destruct (jsxHtmlInsert_shape _ IHj _ _ _ Hm) as [Ht Hwc].
          split; [assumption|congruence]. }
        pstep Hm.
        { destruct (htmlComment_shape _ _ _ _ Hm) as [Ht Hwc].
          split; [assumption|congruence]. }
        destruct (htmlTextLoop_stop _ _ _ _ _ Hm) as [Ht Hs].
        split; [destruct c; try discriminate Ht; constructor|].
        intros _. split; [|assumption].
        destruct (lastIsText acc) eqn:El; [|reflexivity]. exfalso.
        match goal with
        | X : negb (EOF ?s0) && negb (eqs (TOK ?s0) (js "</")) = true |- _ =>
          apply andb_true_iff in X as [Heof Hclose];
          destruct (Hstop eq_refl) as [Hs0|Hs0];
          [ rewrite Hs0 in Heof; discriminate Heof
          | unfold isStop in Hs0; apply negb_true_iff in Hclose;
            rewrite Hclose in Hs0;
            repeat match goal with
                   | Y : eqs (TOK s0) _ = false |- _ => rewrite Y in Hs0; clear Y
                   end;
            destruct jsx; simpl in *;
            repeat match goal with
                   | Y : eqs (TOK s0) _ = false |- _ => rewrite Y in Hs0; clear Y
                   end;
            discriminate Hs0 ]
        end. }
    destruct Hc as [Hwc Htext].
    eapply IHc; [| | |exact H].
    + apply Forall_app. split; [assumption|]. constructor; [assumption|constructor].
    + apply noAdjacentText_snoc; [assumption|].
      unfold lastIsText in Htext. destruct (rev acc) as [|c0 r]; [exact I|].
      intro Hc0. destruct (isText c) eqn:Ea; [|reflexivity].
      destruct (Htext eq_refl) as [Hl _]. congruence.
    + unfold lastIsText. rewrite rev_app_distr. simpl. intro Ha. now apply Htext.
  - pstep H. split; assumption.
Qed.

Lemma shape_element_step (f : nat) : shapeAll f -> shapeElement (S f).
Proof.
  intros (_ & IHp & IHc & _) st e st' H.
  cbn [htmlElement] in H. pstep H. pstep H; [pstep H|].
  pstep H. pstep H. pbind H as tag stTag Htag.
  destruct tag as [|c0 tag]; [pstep H|].
  pstep H. pbind H as ps stPs Hps0.
  assert (Hps : Forall wfProp ps).
  { eapply IHp; [|eassumption]. constructor. }
  pstep H. pstep H; [pstep H|].
  pstep H. pstep H. pstep H.
  - pbind H as cs stCs Hcs0.
    destruct (IHc _ _ _ _ (Forall_nil _) I
                (fun X => False_ind _ (Bool.diff_false_true X)) Hcs0) as [Hwc Hadj].
    pstep H. pstep H; [pstep H|].
    pstep H. pstep H. pstep H; [pstep H|].
    pstep H. pstep H; [pstep H|]. pstep H. pstep H.
    now constructor.
  - pstep H. constructor; [exact I|assumption|constructor].
Qed.

Lemma shape_all (fuel : nat) : shapeAll fuel.
Proof.
  induction fuel as [|f IH].
  - unfold shapeAll, shapeElement, shapeProperties, shapeContent, shapeEmbedded,
      shapeEmbeddedLoop, shapeJsxEmbedded, shapeBalanced, shapeBalancedLoop.
    repeat match goal with |- _ /\ _ => split end; intros; discriminate.
  - unfold shapeAll. repeat match goal with |- _ /\ _ => split end.
    + now apply shape_element_step.
    + now apply shape_properties_step.
    + now apply shape_content_step.
    + now apply shape_embedded_step.
    + now apply shape_embeddedLoop_step.
    + now apply shape_jsxEmbedded_step.
    + now apply shape_balanced_step.
    + now apply shape_balancedLoop_step.
Qed.

Lemma codeTopLevelLoop_shape (fuel : nat) :
  forall segs text loc st ctl st',
    Forall wfSeg segs ->
    codeTopLevelLoop TOKS jsx fuel segs text loc st = Ok (ctl, st') ->
    Forall wfSeg (segments ctl).
Proof.
  induction fuel as [|f IH]; intros segs text loc st ctl st' Hw H; [discriminate H|].
  cbn [codeTopLevelLoop] in H. pstep H. pstep H. pstep H.
  - pstep H.
    + pstep H. pstep H. eapply IH; [|exact H].
      apply Forall_app. split.
      * apply (pushText_wf (mkCodeAcc segs text loc)). assumption.
      * constructor; [|constructor]. constructor.
        eapply (proj1 (shape_all f)). eassumption.
    + pstep H; [pstep H; eapply IH; eassumption|].
      pstep H; [pstep H; eapply IH; eassumption|].
      pstep H; [pstep H; eapply IH; eassumption|].
      pstep H. eapply IH; eassumption.
  - pstep H. cbn [segments]. apply (pushText_wf (mkCodeAcc segs text loc)). assumption.
Qed.

Lemma parse_shape (ast : CodeTopLevel) :
  parse TOKS jsx = Ok ast -> Forall wfSeg (segments ast).
Proof.
  unfold parse, codeTopLevel. intro H.
  destruct (bindP _ _ _) as [[ctl st']| |] eqn:E; try discriminate H.
  injection H as <-. pstep E. eapply codeTopLevelLoop_shape; [|exact E]. constructor.
Qed.

End ParserShape.

(** C7: for every AST that the parser returns, the transform returns, and
    the transform applied to its own result returns that result
    unchanged. *)
Theorem C7_transform_idempotent (toks : list str) (jsx : bool) (ast : CodeTopLevel) :
  parse toks jsx = Ok ast ->
  exists ast1, transform ast = Some ast1 /\ transform ast1 = Some ast1.
Proof.
  intro H. destruct (transform_total ast) as [ast1 H1]. exists ast1.
  split; [exact H1|]. eapply transform_idempotent_wf; [|exact H1].
  eapply parse_shape. exact H.
Qed.

Lemma C7_transform_idempotent_witness :
  exists ast1, transform ex1_ast = Some ast1 /\ transform ast1 = Some ast1.
Proof.
  refine (C7_transform_idempotent
            (tokenize (js "let x = <div onClick={f}>hi</div>;")) true ex1_ast _).
  vm_compute. reflexivity.
Defined.

(** ** C6: code without markup *)

(** *** The tokens of a string, joined, give the string back *)

Ltac neq_chars c :=
  repeat match goal with
         | H : c <> ?k |- _ =>
           let E1 := fresh "E" in
           let E2 := fresh "E" in
           assert (E1 : (c =? k) = false) by (now apply N.eqb_neq);
           assert (E2 : (k =? c) = false) by (apply N.eqb_neq; congruence);
           clear H
         end.

Ltac split_ifs :=
  repeat match goal with
         | |- context [if ?b then _ else _] => destruct b
         end.

(** Comparisons of two known characters are evaluated. *)
Ltac closed_eqb :=
  repeat match goal with
         | |- context [N.eqb ?a ?b] =>
           let v := eval vm_compute in (N.eqb a b) in
           lazymatch v with
           | true => change (N.eqb a b) with true
           | false => change (N.eqb a b) with false
           end
         end.

Ltac token_atoms r :=
  closed_eqb; cbn [andb orb negb];
  repeat match goal with
         | |- context [startsWith ?p r] => destruct (startsWith p r)
         end;
  repeat match goal with
         | |- context [nextIsWord ?x] => destruct (nextIsWord x)
         end;
  cbn [andb orb negb];
  try (destruct r; split_ifs); lia.

Lemma token_progress (c : char) (r : str) :
  match fixedToken (c :: r) with
  | Some n => (1 <= n)%nat
  | None => (1 <= miscRun (c :: r))%nat
  end.
Proof.
  unfold fixedToken. cbn [miscRun]. unfold isSpecial.
  change (startsWith (js "<!--") (c :: r)) with ((cLt =? c) && startsWith (js "!--") r).
  change (startsWith (js "-->") (c :: r)) with ((cMinus =? c) && startsWith (js "->") r).
  change (startsWith (js "{...") (c :: r)) with ((cLbrc =? c) && startsWith (js "...") r).
  change (startsWith (js "//") (c :: r)) with ((cSlash =? c) && startsWith [cSlash] r).
  change (startsWith (js "/*") (c :: r)) with ((cSlash =? c) && startsWith [cStar] r).
  change (startsWith (js "*/") (c :: r)) with ((cStar =? c) && startsWith [cSlash] r).
  destruct (N.eq_dec c cLt) as [->|N1]; [token_atoms r|].
  destruct (N.eq_dec c cGt) as [->|N2]; [token_atoms r|].
  destruct (N.eq_dec c cAt) as [->|N3]; [token_atoms r|].
  destruct (N.eq_dec c cEq) as [->|N4]; [token_atoms r|].
  destruct (N.eq_dec c cSlash) as [->|N5].
  { closed_eqb. cbn [andb orb negb]. destruct r as [|d r']; [cbn; lia|].
    change (startsWith [cGt] (d :: r')) with ((cGt =? d) && true).
    change (startsWith [cSlash] (d :: r')) with ((cSlash =? d) && true).
    change (startsWith [cStar] (d :: r')) with ((cStar =? d) && true).
    rewrite !andb_true_r, (N.eqb_sym cGt d), (N.eqb_sym cSlash d), (N.eqb_sym cStar d).
    destruct (d =? cGt); destruct (d =? cSlash); destruct (d =? cStar);
      cbn [andb orb negb]; lia. }
  destruct (N.eq_dec c cLpar) as [->|N6]; [token_atoms r|].
  destruct (N.eq_dec c cRpar) as [->|N7]; [token_atoms r|].
  destruct (N.eq_dec c cLbrk) as [->|N8]; [token_atoms r|].
  destruct (N.eq_dec c cRbrk) as [->|N9]; [token_atoms r|].
  destruct (N.eq_dec c cLbrc) as [->|N10]; [token_atoms r|].
  destruct (N.eq_dec c cRbrc) as [->|N11]; [token_atoms r|].
  destruct (N.eq_dec c cDq) as [->|N12]; [token_atoms r|].
  destruct (N.eq_dec c cSq) as [->|N13]; [token_atoms r|].
  destruct (N.eq_dec c cNl) as [->|N14]; [token_atoms r|].
  destruct (N.eq_dec c cStar) as [->|N15]; [token_atoms r|].
  destruct (N.eq_dec c cMinus) as [->|N16]; [token_atoms r|].
  neq_chars c.
  repeat match goal with E : _ = false |- _ => rewrite E; clear E end.
  cbn [andb orb negb]. lia.
Qed.

Lemma tokens_concat (fuel : nat) :
  forall s, (length s <= fuel)%nat -> concat (tokens fuel s) = s.
Proof.
  induction fuel as [|f IH]; intros s Hl.
  - destruct s; [reflexivity|simpl in Hl; lia].
  - destruct s as [|c r]; [reflexivity|].
    cbn [tokens]. pose proof (token_progress c r) as Hp.
    assert (Hk : forall n, (1 <= n)%nat ->
                   concat (firstn n (c :: r) :: tokens f (skipn n (c :: r))) = c :: r).
    { intros n Hn. cbn [concat]. rewrite IH; [apply firstn_skipn|].
      rewrite length_skipn. cbn [length] in *. lia. }
    destruct (fixedToken (c :: r)) as [n|]; [now apply Hk|].
    destruct (miscRun (c :: r)) as [|n] eqn:Em; [lia|]. apply Hk. lia.
Qed.

Lemma tokenize_concat (s : str) : concat (tokenize s) = s.
Proof. apply tokens_concat. apply le_n. Qed.

(** *** The lexical structure that [codeTopLevel] follows

    A scan of the tokens that knows strings and comments as the top level of
    the parser does: it reports an opening angle token met in code, a string
    or a block comment left open at the end, or none of these. *)

Inductive ScanMode :=
  | InCode
  | InString (quote text : str)
  | InLineComment
  | InBlockComment.

Inductive ScanResult := Clean | FoundLt | OpenString | OpenComment.

Fixpoint scan (mode : ScanMode) (toks : list str) : ScanResult :=
  match toks with
  | [] =>
    match mode with
    | InCode | InLineComment => Clean
    | InString _ _ => OpenString
    | InBlockComment => OpenComment
    end
  | t :: r =>
    match mode with
    | InCode =>
      if eqs t (js "<") then FoundLt
      else if isQuoteTok t then scan (InString t t) r
      else if eqs t (js "//") then scan InLineComment r
      else if eqs t (js "/*") then scan InBlockComment r
      else scan InCode r
    | InString quote text =>
      if negb (eqs t quote) || stringEscapedEnd text
      then scan (InString quote (text ++ t)) r
      else scan InCode r
    | InLineComment =>
      if eqs t [cNl] then scan InCode r else scan InLineComment r
    | InBlockComment =>
      if eqs t (js "*/") then scan InCode r else scan InBlockComment r
    end
  end.

(** The parser state that stands before the tokens [toks]. *)
Definition stateAt (toks : list str) (l c p : N) : PState :=
  match toks with
  | [] => mkPState [] [] true l c p
  | t :: r => mkPState t r false l c p
  end.

Definition atTokens (toks : list str) (st : PState) : Prop :=
  exists l c p, st = stateAt toks l c p.

Lemma NEXT_stateAt (t : str) (r : list str) (st : PState) :
  atTokens (t :: r) st -> exists st', NEXT st = Ok (tt, st') /\ atTokens r st'.
Proof.
  intros (l & c & p & ->). unfold NEXT. cbn [stateAt TOK rest EOF LINE COL POS].
  destruct (eqs t [cNl]); destruct r; eexists; (split; [reflexivity|]);
    do 3 eexists; reflexivity.
Qed.

Lemma atTokens_cons (t : str) (r : list str) (st : PState) :
  atTokens (t :: r) st -> EOF st = false /\ TOK st = t.
Proof. intros (l & c & p & ->). auto. Qed.

Lemma atTokens_nil (st : PState) : atTokens [] st -> EOF st = true.
Proof. intros (l & c & p & ->). reflexivity. Qed.

(** The end of a string, of a line comment and of a block comment: the
    text read (with what was read before) and the tokens that remain; [None]
    when the end of the input comes first. *)
Fixpoint stringEnd (quote text : str) (toks : list str) : option (str * list str) :=
  match toks with
  | [] => None
  | t :: r =>
    if negb (eqs t quote) || stringEscapedEnd text
    then stringEnd quote (text ++ t) r
    else Some (text ++ t, r)
  end.

Fixpoint lineCommentEnd (text : str) (toks : list str) : str * list str :=
  match toks with
  | [] => (text, [])
  | t :: r => if eqs t [cNl] then (text ++ t, r) else lineCommentEnd (text ++ t) r
  end.

Fixpoint blockCommentEnd (text : str) (toks : list str) : option (str * list str) :=
  match toks with
  | [] => None
  | t :: r =>
    if eqs t (js "*/") then Some (text ++ t, r) else blockCommentEnd (text ++ t) r
  end.

Lemma scan_string (quote text : str) (toks : list str) :
  scan (InString quote text) toks
  = match stringEnd quote text toks with
    | None => OpenString
    | Some (_, toks') => scan InCode toks'
    end.
Proof.
  revert text; induction toks as [|t r IH]; intro text; simpl; [reflexivity|].
  destruct (negb (eqs t quote) || stringEscapedEnd text); [apply IH|reflexivity].
Qed.

Lemma scan_lineComment (toks : list str) :
  forall text, scan InLineComment toks = scan InCode (snd (lineCommentEnd text toks)).
Proof.
  induction toks as [|t r IH]; intro text; simpl; [reflexivity|].
  destruct (eqs t [cNl]); [reflexivity|apply IH].
Qed.

Lemma scan_blockComment (toks : list str) :
  forall text,
    scan InBlockComment toks
    = match blockCommentEnd text toks with
      | None => OpenComment
      | Some (_, toks') => scan InCode toks'
      end.
Proof.
  induction toks as [|t r IH]; intro text; simpl; [reflexivity|].
  destruct (eqs t (js "*/")); [reflexivity|apply IH].
Qed.

Lemma stringEnd_text (quote : str) (toks : list str) :
  forall text text' toks',
    stringEnd quote text toks = Some (text', toks') ->
    text' ++ concat toks' = text ++ concat toks /\ (length toks' < length toks)%nat.
Proof.
  induction toks as [|t r IH]; intros text text' toks' H; simpl in H; [discriminate H|].
  destruct (negb (eqs t quote) || stringEscapedEnd text).
  - apply IH in H as [H1 H2]. rewrite H1. cbn [concat length].
    rewrite <- app_assoc. split; [reflexivity|lia].
  - injection H as <- <-. cbn [concat length]. rewrite <- app_assoc. split; [reflexivity|lia].
Qed.

Lemma lineCommentEnd_text (toks : list str) :
  forall text,
    fst (lineCommentEnd text toks) ++ concat (snd (lineCommentEnd text toks))
    = text ++ concat toks
    /\ (length (snd (lineCommentEnd text toks)) <= length toks)%nat.
Proof.
  induction toks as [|t r IH]; intro text; simpl; [split; [reflexivity|lia]|].
  destruct (eqs t [cNl]); simpl.
  - rewrite <- app_assoc. split; [reflexivity|lia].
  - destruct (IH (text ++ t)) as [H1 H2]. rewrite H1, <- app_assoc.
    split; [reflexivity|lia].
Qed.

Lemma blockCommentEnd_text (toks : list str) :
  forall text text' toks',
    blockCommentEnd text toks = Some (text', toks') ->
    text' ++ concat toks' = text ++ concat toks /\ (length toks' < length toks)%nat.
Proof.
  induction toks as [|t r IH]; intros text text' toks' H; simpl in H; [discriminate H|].
  destruct (eqs t (js "*/")).
  - injection H as <- <-. cbn [concat length]. rewrite <- app_assoc. split; [reflexivity|lia].
  - apply IH in H as [H1 H2]. rewrite H1. cbn [concat length].
    rewrite <- app_assoc. split; [reflexivity|lia].
Qed.

Lemma bind_isEOF {B} (k : bool -> P B) (st : PState) :
  bindP isEOF k st = k (EOF st) st.
Proof. reflexivity. Qed.

Lemma bind_curTOK {B} (k : str -> P B) (st : PState) :
  bindP curTOK k st = k (TOK st) st.
Proof. reflexivity. Qed.

Lemma bind_LOC {B} (k : LOC -> P B) (st : PState) :
  bindP LOC_ k st = k (mkLOC (LINE st) (COL st) (POS st)) st.
Proof. reflexivity. Qed.

Lemma bind_NOT {B} (t : String.string) (k : bool -> P B) (st : PState) :
  bindP (NOT t) k st = k (negb (eqs (TOK st) (js t))) st.
Proof. reflexivity. Qed.

Lemma bind_Ok {A B} (m : P A) (k : A -> P B) (st st' : PState) (a : A) :
  m st = Ok (a, st') -> bindP m k st = k a st'.
Proof. unfold bindP. now intros ->. Qed.

Lemma bind_Throw {A B} (m : P A) (k : A -> P B) (st : PState) (msg : str) :
  m st = Throw msg -> bindP m k st = Throw msg.
Proof. unfold bindP. now intros ->. Qed.

Ltac reads := repeat (first [rewrite bind_isEOF | rewrite bind_curTOK | rewrite bind_LOC
                            | rewrite bind_NOT]; cbv beta).

Section TopLevel.

Variable TOKS : list str.
Variable jsx : bool.

Lemma quotedLoop_runs (fuel : nat) :
  forall quote text start toks st,
    (length toks < fuel)%nat -> atTokens toks st ->
    match stringEnd quote text toks with
    | None => exists msg, quotedLoop TOKS fuel quote text start st = Throw msg
    | Some (text', toks') =>
      exists st', quotedLoop TOKS fuel quote text start st = Ok (text', st')
                  /\ atTokens toks' st'
    end.
Proof.
  induction fuel as [|f IH]; intros quote text start toks st Hf Hst; [lia|].
  cbn [quotedLoop]. reads.
  destruct toks as [|t r].
  - rewrite (atTokens_nil _ Hst). cbn [negb andb stringEnd]. eexists. reflexivity.
  - destruct (atTokens_cons _ _ _ Hst) as [-> ->]. cbn [negb andb stringEnd].
    destruct (NEXT_stateAt _ _ _ Hst) as (st1 & Hn & Hst1).
    destruct (negb (eqs t quote) || stringEscapedEnd text) eqn:E.
    + rewrite (bind_Ok _ _ _ _ _ Hn). apply IH; [simpl in Hf; lia|assumption].
    + rewrite (bind_Ok _ _ _ _ _ Hn). unfold retP. exists st1. auto.
Qed.

Lemma singleLineLoop_runs (fuel : nat) :
  forall text toks st,
    (length toks < fuel)%nat -> atTokens toks st ->
    exists st', singleLineLoop fuel text st = Ok (fst (lineCommentEnd text toks), st')
                /\ atTokens (snd (lineCommentEnd text toks)) st'.
Proof.
  induction fuel as [|f IH]; intros text toks st Hf Hst; [lia|].
  cbn [singleLineLoop]. reads.
  destruct toks as [|t r].
  - rewrite (atTokens_nil _ Hst). cbn [negb andb lineCommentEnd fst snd].
    exists st. auto.
  - destruct (atTokens_cons _ _ _ Hst) as [-> ->]. cbn [negb andb lineCommentEnd].
    destruct (NEXT_stateAt _ _ _ Hst) as (st1 & Hn & Hst1).
    destruct (eqs t [cNl]) eqn:E; cbn [negb].
    + rewrite (bind_Ok _ _ _ _ _ Hn). unfold retP. exists st1. auto.
    + rewrite (bind_Ok _ _ _ _ _ Hn). apply IH; [simpl in Hf; lia|assumption].
Qed.

Lemma multiLineLoop_runs (fuel : nat) :
  forall text start toks st,
    (length toks < fuel)%nat -> atTokens toks st ->
    match blockCommentEnd text toks with
    | None => exists msg, multiLineLoop TOKS fuel text start st = Throw msg
    | Some (text', toks') =>
      exists st', multiLineLoop TOKS fuel text start st = Ok (text', st')
                  /\ atTokens toks' st'
    end.
Proof.
  induction fuel as [|f IH]; intros text start toks st Hf Hst; [lia|].
  cbn [multiLineLoop]. reads.
  destruct toks as [|t r].
  - rewrite (atTokens_nil _ Hst). cbn [negb andb blockCommentEnd]. eexists. reflexivity.
  - destruct (atTokens_cons _ _ _ Hst) as [-> ->]. cbn [negb andb blockCommentEnd].
    destruct (NEXT_stateAt _ _ _ Hst) as (st1 & Hn & Hst1).
    destruct (eqs t (js "*/")) eqn:E; cbn [negb].
    + rewrite (bind_Ok _ _ _ _ _ Hn). unfold retP. exists st1. auto.
    + rewrite (bind_Ok _ _ _ _ _ Hn). apply IH; [simpl in Hf; lia|assumption].
Qed.

Lemma quotedString_runs (fuel : nat) (t : str) (r : list str) (st : PState) :
  (length r < fuel)%nat -> atTokens (t :: r) st -> isQuoteTok t = true ->
  match stringEnd t t r with
  | None => exists msg, quotedString TOKS fuel st = Throw msg
  | Some (text', toks') =>
    exists st', quotedString TOKS fuel st = Ok (text', st') /\ atTokens toks' st'
  end.
Proof.
  intros Hf Hst Hq. unfold quotedString. reads.
  destruct (atTokens_cons _ _ _ Hst) as [_ Ht]. rewrite Ht, Hq. cbn [negb]. reads.
  destruct (NEXT_stateAt _ _ _ Hst) as (st1 & Hn & Hst1).
  rewrite (bind_Ok _ _ _ _ _ Hn). now apply quotedLoop_runs.
Qed.

Lemma codeSingleLineComment_runs (fuel : nat) (r : list str) (st : PState) :
  (length r + 1 < fuel)%nat -> atTokens (js "//" :: r) st ->
  exists st',
    codeSingleLineComment TOKS fuel st = Ok (fst (lineCommentEnd (js "//") r), st')
    /\ atTokens (snd (lineCommentEnd (js "//") r)) st'.
Proof.
  intros Hf Hst. unfold codeSingleLineComment. reads.
  destruct (atTokens_cons _ _ _ Hst) as [_ Ht]. rewrite Ht.
  change (eqs (js "//") (js "//")) with true. cbn [negb].
  exact (singleLineLoop_runs fuel [] (js "//" :: r) st ltac:(simpl; lia) Hst).
Qed.

Lemma codeMultiLineComment_runs (fuel : nat) (r : list str) (st : PState) :
  (length r + 1 < fuel)%nat -> atTokens (js "/*" :: r) st ->
  match blockCommentEnd (js "/*") r with
  | None => exists msg, codeMultiLineComment TOKS fuel st = Throw msg
  | Some (text', toks') =>
    exists st', codeMultiLineComment TOKS fuel st = Ok (text', st') /\ atTokens toks' st'
  end.
Proof.
  intros Hf Hst. unfold codeMultiLineComment. reads.
  destruct (atTokens_cons _ _ _ Hst) as [_ Ht]. rewrite Ht.
  change (eqs (js "/*") (js "/*")) with true. cbn [negb]. reads.
  exact (multiLineLoop_runs fuel [] (mkLOC (LINE st) (COL st) (POS st))
           (js "/*" :: r) st ltac:(simpl; lia) Hst).
Qed.

Lemma codeTopLevelLoop_runs (fuel : nat) :
  forall text loc toks st,
    (length toks + 2 <= fuel)%nat -> atTokens toks st ->
    match scan InCode toks with
    | Clean =>
      exists st',
        codeTopLevelLoop TOKS jsx fuel [] text loc st
        = Ok (mkCodeTopLevel (pushText (mkCodeAcc [] (text ++ concat toks) loc)), st')
    | OpenString | OpenComment =>
      exists msg, codeTopLevelLoop TOKS jsx fuel [] text loc st = Throw msg
    | FoundLt => True
    end.
Proof.
  induction fuel as [|f IH]; intros text loc toks st Hf Hst; [lia|].
  cbn [codeTopLevelLoop]. reads. destruct toks as [|t r].
  - rewrite (atTokens_nil _ Hst). cbn [negb scan concat]. rewrite app_nil_r.
    unfold retP. eauto.
  - destruct (atTokens_cons _ _ _ Hst) as [He Ht]. rewrite He, Ht. cbn [negb scan].
    cbn [length] in Hf.
    destruct (eqs t (js "<")) eqn:E1; [exact I|].
    destruct (isQuoteTok t) eqn:E2.
    { rewrite scan_string.
      pose proof (quotedString_runs f t r st ltac:(lia) Hst E2) as Hq.
      destruct (stringEnd t t r) as [[text' toks']|] eqn:Es.
      - destruct Hq as (st1 & Hq & Hst1). rewrite (bind_Ok _ _ _ _ _ Hq).
        destruct (stringEnd_text _ _ _ _ _ Es) as [H1 H2].
        specialize (IH (text ++ text') loc toks' st1 ltac:(lia) Hst1).
        replace (text ++ concat (t :: r)) with ((text ++ text') ++ concat toks').
        + exact IH.
        + cbn [concat]. now rewrite <- app_assoc, H1.
      - destruct Hq as (msg & Hq). rewrite (bind_Throw _ _ _ _ Hq). eauto. }
    destruct (eqs t (js "//")) eqn:E3.
    { apply eqs_true in E3. rewrite E3 in Ht, Hst |- *. clear E3 E1 E2.
      rewrite (scan_lineComment r (js "//")).
      destruct (codeSingleLineComment_runs f r st ltac:(lia) Hst) as (st1 & Hq & Hst1).
      rewrite (bind_Ok _ _ _ _ _ Hq).
      destruct (lineCommentEnd_text r (js "//")) as [H1 H2].
      specialize (IH (text ++ fst (lineCommentEnd (js "//") r)) loc
                     (snd (lineCommentEnd (js "//") r)) st1 ltac:(lia) Hst1).
      replace (text ++ concat (js "//" :: r))
        with ((text ++ fst (lineCommentEnd (js "//") r))
                ++ concat (snd (lineCommentEnd (js "//") r))).
      - exact IH.
      - cbn [concat]. now rewrite <- app_assoc, H1. }
    destruct (eqs t (js "/*")) eqn:E4.
    { apply eqs_true in E4. rewrite E4 in Ht, Hst |- *. clear E4 E1 E2 E3.
      rewrite (scan_blockComment r (js "/*")).
      pose proof (codeMultiLineComment_runs f r st ltac:(lia) Hst) as Hq.
      destruct (blockCommentEnd (js "/*") r) as [[text' toks']|] eqn:Es.
      - destruct Hq as (st1 & Hq & Hst1). rewrite (bind_Ok _ _ _ _ _ Hq).
        destruct (blockCommentEnd_text _ _ _ _ Es) as [H1 H2].
        specialize (IH (text ++ text') loc toks' st1 ltac:(lia) Hst1).
        replace (text ++ concat (js "/*" :: r)) with ((text ++ text') ++ concat toks').
        + exact IH.
        + cbn [concat]. now rewrite <- app_assoc, H1.
      - destruct Hq as (msg & Hq). rewrite (bind_Throw _ _ _ _ Hq). eauto. }
    destruct (NEXT_stateAt _ _ _ Hst) as (st1 & Hn & Hst1).
    rewrite (bind_Ok _ _ _ _ _ Hn).
    specialize (IH (text ++ t) loc r st1 ltac:(lia) Hst1).
    replace (text ++ concat (t :: r)) with ((text ++ t) ++ concat r)
      by (cbn [concat]; now rewrite <- app_assoc).
    exact IH.
Qed.

Lemma parse_runs :
  match scan InCode TOKS with
  | Clean =>
    parse TOKS jsx
    = Ok (mkCodeTopLevel (pushText (mkCodeAcc [] (concat TOKS) (mkLOC 0 0 0))))
  | OpenString | OpenComment => exists msg, parse TOKS jsx = Throw msg
  | FoundLt => True
  end.
Proof.
  assert (Hst : atTokens TOKS (initialState TOKS)).
  { exists 0, 0, 0. unfold initialState, stateAt. destruct TOKS; reflexivity. }
  pose proof (codeTopLevelLoop_runs (parseFuel TOKS) []
                (mkLOC (LINE (initialState TOKS)) (COL (initialState TOKS))
                       (POS (initialState TOKS)))
                TOKS (initialState TOKS) ltac:(unfold parseFuel; lia) Hst) as H.
  assert (Hl : mkLOC (LINE (initialState TOKS)) (COL (initialState TOKS))
                     (POS (initialState TOKS)) = mkLOC 0 0 0)
    by (unfold initialState; destruct TOKS; reflexivity).
  rewrite Hl in H. unfold parse, codeTopLevel. rewrite bind_LOC, Hl.
  destruct (scan InCode TOKS); [| exact I | |].
  - destruct H as (st' & ->). reflexivity.
  - destruct H as (msg & ->). eauto.
  - destruct H as (msg & ->). eauto.
Qed.

End TopLevel.

Lemma transform_codeText (segs : list CodeSegment) :
  (forall seg, In seg segs -> exists text loc, seg = CodeText text loc) ->
  (length segs <= 1)%nat ->
  transform (mkCodeTopLevel segs) = Some (mkCodeTopLevel segs).
Proof.
  intros H Hl. destruct segs as [|seg [|seg' r]]; [reflexivity| |cbn [length] in Hl; lia].
  destruct (H seg (or_introl eq_refl)) as (text & loc & ->). reflexivity.
Qed.

Lemma compile_codeText (text : str) (loc : LOC) (opts : Params) :
  compile (mkCodeTopLevel [CodeText text loc]) opts = Ok (markBlockLocs text loc opts).
Proof. reflexivity. Qed.

Lemma preprocess_codeText (s : str) (opts : option Options) :
  sourcemap (paramsOf opts) = None ->
  parse (tokenize s) (jsx (paramsOf opts))
  = Ok (mkCodeTopLevel (pushText (mkCodeAcc [] s (mkLOC 0 0 0)))) ->
  preprocess s opts = Ok (OutCode s).
Proof.
  intros Hs Hp. unfold preprocess. rewrite Hp. cbn [bindR].
  destruct s as [|c r]; cbn [pushText accText accSegments accLoc app].
  - rewrite transform_codeText; [|intros seg []|cbn [length]; lia].
    change (compile (mkCodeTopLevel []) (paramsOf opts)) with (@Ok str []).
    cbn [bindR]. now rewrite Hs.
  - rewrite transform_codeText;
      [|intros seg [<-|[]]; eauto|cbn [length]; lia].
    rewrite compile_codeText. unfold markBlockLocs. rewrite Hs. reflexivity.
Qed.

(** C6, as amended: with no source map asked for, an input whose tokens
    hold no opening angle token outside strings and comments, and in which
    every string and every block comment is closed, is returned unchanged;
    when a string or a block comment is left open, [preprocess] throws the
    parser's error instead. *)
Theorem C6_code_without_markup (s : str) (opts : option Options) :
  sourcemap (paramsOf opts) = None ->
  (scan InCode (tokenize s) = Clean -> preprocess s opts = Ok (OutCode s))
  /\ (scan InCode (tokenize s) = OpenString \/ scan InCode (tokenize s) = OpenComment ->
      exists msg, preprocess s opts = Throw msg).
Proof.
  intro Hs. pose proof (parse_runs (tokenize s) (jsx (paramsOf opts))) as H. split.
  - intro E. rewrite E in H. rewrite tokenize_concat in H.
    now apply preprocess_codeText.
  - intros E. unfold preprocess.
    destruct E as [E|E]; rewrite E in H; destruct H as (msg & ->);
      exists msg; reflexivity.
Qed.

Lemma C6_code_without_markup_witness :
  preprocess (js "a < b; // it's <here>") None = Ok (OutCode (js "a < b; // it's <here>")).
Proof.
  refine (proj1 (C6_code_without_markup (js "a < b; // it's <here>") None _) _);
    vm_compute; reflexivity.
Defined.

(** C6 as stated fails: a string left open holds no token outside strings
    and comments, and the parser throws. *)
Lemma C6_open_string_throws :
  ~ (forall s, scan InCode (tokenize s) <> FoundLt ->
               preprocess s None = Ok (OutCode s)).
Proof.
  intro H. specialize (H (js "it's")).
  assert (E : preprocess (js "it's") None
              = Throw (js "unterminated string at line 0 col 2: ``'s''"))
    by (vm_compute; reflexivity).
  rewrite E in H. discriminate H. vm_compute. discriminate.
Qed.

(** ** Source-map extraction *)

Open Scope Z_scope.

(** The generated text, piece by piece: text that holds neither a newline
    nor the delimiter of a mark, a newline, and a mark as [locationMark]
    writes it. *)
Inductive Piece :=
  | Plain (s : str)
  | Newline
  | Mark (loc : LOC).

Definition plainChar (c : char) : bool := negb (c =? cNul)%N && negb (c =? cNl)%N.

Definition wfPiece (p : Piece) : bool :=
  match p with
  | Plain s => forallb plainChar s
  | _ => true
  end.


(** The text handed to [extractMappings]. *)
Definition embedPiece (p : Piece) : str :=
  match p with
  | Plain s => s
  | Newline => [cNl]
  | Mark loc => locationMark loc
  end.

Definition embed (ps : list Piece) : str := concat (map embedPiece ps).

(** The text expected back: each mark replaced by its comment. *)
Definition emitPiece (p : Piece) : str :=
  match p with
  | Plain s => s
  | Newline => [cNl]
  | Mark loc => markComment (Z.of_N (line loc)) (Z.of_N (col loc))
  end.

Definition emitted (ps : list Piece) : str := concat (map emitPiece ps).

(** The column reached at the end of a text: the number of characters after
    its last newline. *)
Fixpoint columnFrom (c : Z) (s : str) : Z :=
  match s with
  | [] => c
  | x :: r => if (x =? cNl)%N then columnFrom 0 r else columnFrom (c + 1) r
  end.

Definition columnOf (s : str) : Z := columnFrom 0 s.

Definition consHead {A} (x : A) (ls : list (list A)) : list (list A) :=
  match ls with
  | l :: r => (x :: l) :: r
  | [] => [[x]]
  end.

(** The marks of each line of the emitted text, each with the column at which
    its comment starts there; [out] is the text emitted so far. *)
Fixpoint markColumns (out : str) (ps : list Piece) : list (list (Z * LOC)) :=
  match ps with
  | [] => [[]]
  | Plain s :: r => markColumns (out ++ s) r
  | Newline :: r => [] :: markColumns (out ++ [cNl]) r
  | Mark loc :: r =>
    consHead (columnOf out, loc) (markColumns (out ++ emitPiece (Mark loc)) r)
  end.

(** One segment of the mappings: the generated column, the source file, the
    source line and the source column, each relative to the one before. *)
Definition segment (lastGen lastLine lastCol g : Z) (loc : LOC) : str :=
  vlq (g - lastGen) ++ js "A" ++ vlq (Z.of_N (line loc) - lastLine)
      ++ vlq (Z.of_N (col loc) - lastCol).

Fixpoint segmentsOf (lastGen lastLine lastCol : Z) (marks : list (Z * LOC))
  : list str :=
  match marks with
  | [] => []
  | (g, loc) :: r =>
    segment lastGen lastLine lastCol g loc
    :: segmentsOf g (Z.of_N (line loc)) (Z.of_N (col loc)) r
  end.

Definition lastSource (lastLine lastCol : Z) (marks : list (Z * LOC)) : Z * Z :=
  fold_left (fun _ m => (Z.of_N (line (snd m)), Z.of_N (col (snd m))))
            marks (lastLine, lastCol).

(** The generated column restarts on each line; the source position is
    carried over. *)
Fixpoint linesFrom (lastGen lastLine lastCol : Z) (lines : list (list (Z * LOC)))
  : list (list str) :=
  match lines with
  | [] => []
  | l :: r =>
    segmentsOf lastGen lastLine lastCol l
    :: linesFrom 0 (fst (lastSource lastLine lastCol l))
                 (snd (lastSource lastLine lastCol l)) r
  end.

(** The callback of [extractMappings], piece by piece. *)
Fixpoint runPieces (offset : Z) (ps : list Piece) (m : MapState) : MapState :=
  match ps with
  | [] => m
  | Plain s :: r => runPieces (offset + Z.of_nat (length s)) r m
  | Newline :: r => runPieces (offset + 1) r (onNewline offset m)
  | Mark loc :: r =>
    runPieces (offset + Z.of_nat (length (locationMark loc))) r
              (onMark (Z.of_N (line loc)) (Z.of_N (col loc)) offset m)
  end.

Definition glue {A} (pre : list A) (ls : list (list A)) : list (list A) :=
  match ls with
  | l :: r => (pre ++ l) :: r
  | [] => [pre]
  end.

Definition notNl (s : str) : bool := forallb (fun x => negb (x =? cNl)%N) s.

(** *** Decimal numbers *)

Ltac ascii_code :=
  match goal with
  | |- context [Z.of_N (N_of_ascii ?a)] =>
    let v := eval vm_compute in (Z.of_N (N_of_ascii a)) in
    change (Z.of_N (N_of_ascii a)) with v
  end.

Lemma js_cons (a : ascii) (s : String.string) :
  js (String.String a s) = N_of_ascii a :: js s.
Proof. reflexivity. Qed.

Lemma string_of_uint_digits (d : Decimal.uint) :
  forallb isDigit (js (DecimalString.NilEmpty.string_of_uint d)) = true.
Proof.
  induction d; cbn [DecimalString.NilEmpty.string_of_uint]; [reflexivity|..];
    rewrite js_cons; cbn [forallb]; rewrite IHd; reflexivity.
Qed.

Lemma numStr_digits (n : N) : forallb isDigit (numStr n) = true.
Proof.
  unfold numStr, DecimalString.NilZero.string_of_uint.
  destruct (N.to_uint n) eqn:E; try apply string_of_uint_digits. reflexivity.
Qed.

Lemma numStr_nonempty (n : N) : numStr n <> [].
Proof.
  unfold numStr, DecimalString.NilZero.string_of_uint.
  destruct (N.to_uint n); cbn [DecimalString.NilEmpty.string_of_uint];
    rewrite js_cons; discriminate.
Qed.

Lemma parseDigits_acc (d : Decimal.uint) : forall acc : positive,
  fold_left (fun a c => a * 10 + (Z.of_N c - 48))
            (js (DecimalString.NilEmpty.string_of_uint d)) (Z.pos acc)
  = Z.pos (Pos.of_uint_acc d acc).
Proof.
  induction d; intro acc;
    cbn [DecimalString.NilEmpty.string_of_uint Pos.of_uint_acc];
    [reflexivity|..]; rewrite js_cons; cbn [fold_left];
    rewrite <- IHd; f_equal; ascii_code; lia.
Qed.

Lemma parseDigits_uint (d : Decimal.uint) :
  parseDigits (js (DecimalString.NilEmpty.string_of_uint d)) = Z.of_N (Pos.of_uint d).
Proof.
  unfold parseDigits.
  induction d; cbn [DecimalString.NilEmpty.string_of_uint Pos.of_uint];
    [reflexivity|rewrite js_cons; cbn [fold_left]; ascii_code; exact IHd|..];
    rewrite js_cons; cbn [fold_left Z.of_N]; rewrite <- parseDigits_acc;
    f_equal; ascii_code; reflexivity.
Qed.

Lemma parseDigits_numStr (n : N) : parseDigits (numStr n) = Z.of_N n.
Proof.
  rewrite <- (DecimalN.Unsigned.of_to n) at 2.
  unfold numStr, DecimalString.NilZero.string_of_uint, N.of_uint.
  destruct (N.to_uint n) eqn:E; try apply parseDigits_uint. reflexivity.
Qed.

Lemma numStrZ_of_N (n : N) : numStrZ (Z.of_N n) = numStr n.
Proof. unfold numStrZ. now rewrite N2Z.id. Qed.

(** *** The scan of [replaceLocs] over the pieces *)

Lemma takeDigits_digits (a b : str) (c : char) :
  forallb isDigit a = true -> isDigit c = false ->
  takeDigits (a ++ c :: b) = (a, c :: b).
Proof.
  intros Ha Hc. unfold takeDigits. rewrite (spanLen_app _ _ _ Ha).
  cbn [spanLen]. rewrite Hc, Nat.add_0_r.
  now rewrite firstn_app_exact, skipn_app_exact.
Qed.

Lemma matchMark_digits (l k rest : str) :
  l <> [] -> k <> [] -> forallb isDigit l = true -> forallb isDigit k = true ->
  matchMark (cNul :: l ++ cComma :: k ++ cNul :: rest) = Some (l, k, rest).
Proof.
  intros Hl Hk Dl Dk. unfold matchMark. rewrite N.eqb_refl.
  rewrite (takeDigits_digits l _ cComma Dl eq_refl).
  destruct l as [|x l]; [congruence|]. rewrite N.eqb_refl.
  rewrite (takeDigits_digits k _ cNul Dk eq_refl).
  destruct k as [|y k]; [congruence|]. rewrite N.eqb_refl. reflexivity.
Qed.

Lemma locationMark_app (loc : LOC) (rest : str) :
  locationMark loc ++ rest
  = cNul :: numStr (line loc) ++ cComma :: numStr (col loc) ++ cNul :: rest.
Proof.
  unfold locationMark. cbn [app]. f_equal. rewrite <- app_assoc. f_equal.
  cbn [app]. f_equal. now rewrite <- app_assoc.
Qed.

Lemma matchMark_locationMark (loc : LOC) (rest : str) :
  matchMark (locationMark loc ++ rest)
  = Some (numStr (line loc), numStr (col loc), rest).
Proof.
  rewrite locationMark_app.
  apply matchMark_digits; auto using numStr_nonempty, numStr_digits.
Qed.

Lemma replaceLocs_nil (fuel : nat) (offset : Z) (m : MapState) :
  replaceLocs fuel offset [] m = ([], m).
Proof. destruct fuel; reflexivity. Qed.

Lemma replaceLocs_plain (s : str) : forall rest fuel offset m,
  forallb plainChar s = true ->
  replaceLocs (length s + fuel) offset (s ++ rest) m
  = (s ++ fst (replaceLocs fuel (offset + Z.of_nat (length s)) rest m),
     snd (replaceLocs fuel (offset + Z.of_nat (length s)) rest m)).
Proof.
  induction s as [|c s IH]; intros rest fuel offset m H.
  - cbn [length app Nat.add Z.of_nat]. rewrite Z.add_0_r.
    now destruct (replaceLocs fuel offset rest m).
  - cbn [forallb] in H. apply andb_true_iff in H as [Hc H].
    apply andb_true_iff in Hc as [H0 H1]. apply negb_true_iff in H0, H1.
    cbn [length app Nat.add replaceLocs]. rewrite H1. cbn [matchMark]. rewrite H0.
    rewrite (IH rest fuel (offset + 1) m H).
    replace (offset + 1 + Z.of_nat (length s)) with (offset + Z.of_nat (S (length s)))
      by lia.
    reflexivity.
Qed.

Lemma replaceLocs_mark (f : nat) (offset : Z) (loc : LOC) (rest : str) (m : MapState) :
  replaceLocs (S f) offset (locationMark loc ++ rest) m
  = (markComment (Z.of_N (line loc)) (Z.of_N (col loc))
       ++ fst (replaceLocs f (offset + Z.of_nat (length (locationMark loc))) rest
                 (onMark (Z.of_N (line loc)) (Z.of_N (col loc)) offset m)),
     snd (replaceLocs f (offset + Z.of_nat (length (locationMark loc))) rest
            (onMark (Z.of_N (line loc)) (Z.of_N (col loc)) offset m))).
Proof.
  pose proof (matchMark_locationMark loc rest) as Hm.
  assert (Hlen : (length (locationMark loc ++ rest) - length rest)%nat
                 = length (locationMark loc)) by (rewrite length_app; lia).
  revert Hm Hlen. rewrite locationMark_app. intros Hm Hlen.
  cbn [replaceLocs]. change (cNul =? cNl)%N with false. cbv iota.
  rewrite Hm, Hlen, !parseDigits_numStr.
  now destruct (replaceLocs f _ rest _).
Qed.

Lemma replaceLocs_pieces (ps : list Piece) : forall fuel offset m,
  forallb wfPiece ps = true -> (length (embed ps) <= fuel)%nat ->
  replaceLocs fuel offset (embed ps) m = (emitted ps, runPieces offset ps m).
Proof.
  induction ps as [|p ps IH]; intros fuel offset m Hwf Hf.
  - apply replaceLocs_nil.
  - cbn [forallb] in Hwf. apply andb_true_iff in Hwf as [Hp Hwf].
    unfold embed, emitted in *. cbn [map concat] in *. rewrite length_app in Hf.
    destruct p as [s| |loc]; cbn [embedPiece emitPiece runPieces wfPiece] in *.
    + replace fuel with (length s + (fuel - length s))%nat by lia.
      rewrite (replaceLocs_plain s _ _ _ _ Hp), IH by (assumption || lia).
      reflexivity.
    + destruct fuel as [|f]; [cbn [length] in Hf; lia|].
      cbn [app replaceLocs]. rewrite N.eqb_refl.
      rewrite IH by (assumption || (cbn [length] in Hf; lia)). reflexivity.
    + destruct fuel as [|f].
      { unfold locationMark in Hf. cbn [app length] in Hf. lia. }
      rewrite replaceLocs_mark, IH; [reflexivity|assumption|].
      unfold locationMark in Hf. cbn [app length] in Hf. lia.
Qed.

(** *** Columns *)

Lemma columnFrom_app (a b : str) : forall c,
  columnFrom c (a ++ b) = columnFrom (columnFrom c a) b.
Proof.
  induction a as [|x a IH]; intro c; cbn [app columnFrom]; [reflexivity|].
  destruct (x =? cNl)%N; apply IH.
Qed.

Lemma columnFrom_notNl (s : str) : forall c,
  notNl s = true -> columnFrom c s = c + Z.of_nat (length s).
Proof.
  unfold notNl. induction s as [|x s IH]; intros c H; cbn [columnFrom length].
  - cbn. lia.
  - cbn [forallb] in H. apply andb_true_iff in H as [Hx H].
    apply negb_true_iff in Hx. rewrite Hx, IH by assumption. lia.
Qed.



Lemma columnOf_app_notNl (out s : str) :
  notNl s = true -> columnOf (out ++ s) = columnOf out + Z.of_nat (length s).
Proof.
  intro H. unfold columnOf. rewrite columnFrom_app. now apply columnFrom_notNl.
Qed.

Lemma columnOf_newline (out : str) : columnOf (out ++ [cNl]) = 0.
Proof. unfold columnOf. rewrite columnFrom_app. reflexivity. Qed.

Lemma forallb_impl {A} (f g : A -> bool) (l : list A) :
  (forall x, f x = true -> g x = true) -> forallb f l = true -> forallb g l = true.
Proof.
  intros H. induction l as [|x l IH]; cbn [forallb]; [reflexivity|].
  intro E. apply andb_true_iff in E as [E1 E2]. now rewrite (H _ E1), IH.
Qed.

Lemma digits_notNl (s : str) : forallb isDigit s = true -> notNl s = true.
Proof.
  apply forallb_impl. intros x H. unfold isDigit, inRange in H.
  apply andb_true_iff in H as [H _]. apply N.leb_le in H.
  apply negb_true_iff, N.eqb_neq. unfold cNl. lia.
Qed.

Lemma plain_notNl (s : str) : forallb plainChar s = true -> notNl s = true.
Proof.
  apply forallb_impl. intros x H. now apply andb_true_iff in H as [_ H].
Qed.

Lemma notNl_app (a b : str) : notNl (a ++ b) = notNl a && notNl b.
Proof. apply forallb_app. Qed.

Lemma markComment_notNl (n k : N) : notNl (markComment (Z.of_N n) (Z.of_N k)) = true.
Proof.
  unfold markComment. rewrite !numStrZ_of_N, !notNl_app.
  rewrite (digits_notNl _ (numStr_digits n)), (digits_notNl _ (numStr_digits k)).
  reflexivity.
Qed.

(** The comment is two characters longer than the mark it replaces. *)
Lemma markComment_length (loc : LOC) :
  length (markComment (Z.of_N (line loc)) (Z.of_N (col loc)))
  = (length (locationMark loc) + 2)%nat.
Proof.
  unfold markComment, locationMark. rewrite !numStrZ_of_N, !length_app.
  cbn [length js map String.list_ascii_of_string]. lia.
Qed.

(** *** The mappings, line by line *)

Lemma markColumns_nonempty (ps : list Piece) : forall out, markColumns out ps <> [].
Proof.
  induction ps as [|[s| |loc] ps IH]; intro out; cbn [markColumns];
    try discriminate; [apply IH|].
  unfold consHead. destruct (markColumns _ ps); discriminate.
Qed.

Lemma runPieces_lines (ps : list Piece) : forall out offset m,
  forallb wfPiece ps = true ->
  offset - lineStartPos m - lineMarksLength m = columnOf out ->
  mLines (runPieces offset ps m) ++ [mLine (runPieces offset ps m)]
  = mLines m
    ++ glue (mLine m)
         (linesFrom (lastGeneratedCol m) (lastSourceLine m) (lastSourceCol m)
                    (markColumns out ps)).
Proof.
  induction ps as [|p ps IH]; intros out offset m Hwf Hinv.
  - cbn [runPieces markColumns linesFrom segmentsOf glue]. now rewrite app_nil_r.
  - cbn [forallb] in Hwf. apply andb_true_iff in Hwf as [Hp Hwf].
    destruct p as [s| |loc]; cbn [runPieces markColumns wfPiece] in *.
    + apply IH; [assumption|].
      rewrite columnOf_app_notNl by now apply plain_notNl. lia.
    + rewrite (IH (out ++ [cNl])); [|assumption|].
      * cbn [onNewline mLines mLine lastGeneratedCol lastSourceLine lastSourceCol
             linesFrom segmentsOf lastSource fold_left fst snd glue].
        rewrite <- app_assoc, app_nil_r. f_equal. cbn [app]. f_equal.
        destruct (markColumns (out ++ [cNl]) ps) eqn:E;
          [now apply markColumns_nonempty in E|].
        reflexivity.
      * cbn [onNewline lineStartPos lineMarksLength]. rewrite columnOf_newline. lia.
    + rewrite (IH (out ++ emitPiece (Mark loc))); [|assumption|].
      * unfold onMark.
        cbn [mLines mLine lastGeneratedCol lastSourceLine lastSourceCol].
        rewrite Hinv.
        destruct (markColumns (out ++ emitPiece (Mark loc)) ps) eqn:E;
          [now apply markColumns_nonempty in E|].
        cbn [consHead linesFrom segmentsOf lastSource fold_left glue fst snd].
        unfold segment. now rewrite <- app_assoc.
      * unfold onMark. cbn [lineStartPos lineMarksLength emitPiece].
        rewrite columnOf_app_notNl by apply markComment_notNl.
        rewrite markComment_length. lia.
Qed.









Close Scope Z_scope.

(** * Further properties of the code *)

(** ** The tokenizer *)

Lemma tokens_nonempty (fuel : nat) : forall s, Forall (fun t => t <> []) (tokens fuel s).
Proof.
  induction fuel as [|f IH]; intros [|c r]; cbn [tokens]; try constructor.
  - pose proof (token_progress c r) as Hp.
    destruct (fixedToken (c :: r)) as [n|].
    + constructor; [|apply IH]. destruct n; [lia|]. cbn [firstn]. discriminate.
    + destruct (miscRun (c :: r)) as [|n] eqn:E; [lia|].
      constructor; [cbn [firstn]; discriminate|apply IH].
Qed.

(** X1: the tokenizer loses nothing: the tokens of a text, put end to end,
    are the text, whatever it holds (the token pattern matches at every
    position), and no token is empty. *)
Theorem X1_tokenize_lossless (s : str) :
  concat (tokenize s) = s /\ Forall (fun t => t <> []) (tokenize s).
Proof. split; [apply tokenize_concat|apply tokens_nonempty]. Qed.

(** ** Location marks and numbers of the source map *)

Open Scope Z_scope.

(** X2: a mark written by [locationMark] is read back by the mark pattern of
    [rx.locs], whatever follows it, and [parseInt] of the two groups gives
    the line and the column of the location. *)
Theorem X2_mark_read_back (loc : LOC) (rest : str) :
  exists l k,
    matchMark (locationMark loc ++ rest) = Some (l, k, rest)
    /\ parseDigits l = Z.of_N (line loc)
    /\ parseDigits k = Z.of_N (col loc).
Proof.
  exists (numStr (line loc)), (numStr (col loc)).
  split; [apply matchMark_locationMark|]. split; apply parseDigits_numStr.
Qed.

(** The Base64 alphabet of the source-map format, and the reading of one
    variable-length quantity as that format defines it: five value bits a
    digit, least significant group first, the sixth bit of a digit telling
    that another digit follows, the lowest bit of the value being the sign. *)
Definition base64Digits : str := vlqFinalDigits ++ vlqContinuationDigits.

Fixpoint indexOf (c : char) (l : str) : option Z :=
  match l with
  | [] => None
  | x :: r => if (x =? c)%N then Some 0 else option_map Z.succ (indexOf c r)
  end.

Definition vlqSigned (v : Z) : Z := if Z.odd v then - (v / 2) else v / 2.

Fixpoint vlqDecode (shift acc : Z) (s : str) : option (Z * str) :=
  match s with
  | [] => None
  | c :: r =>
    match indexOf c base64Digits with
    | None => None
    | Some d =>
      let acc := acc + (d mod 32) * shift in
      if d <? 32 then Some (vlqSigned acc, r) else vlqDecode (shift * 32) acc r
    end
  end.

(** The digits of [vlq], least significant first: continuation digits, then
    the final digit. *)
Fixpoint vlqText (ds : list Z) : str :=
  match ds with
  | [] => js "undefined"
  | d :: r =>
    match r with
    | [] => digitAt vlqFinalDigits d
    | _ :: _ => digitAt vlqContinuationDigits d ++ vlqText r
    end
  end.

Definition digitReadsBack (d : Z) : bool :=
  match digitAt vlqFinalDigits d, digitAt vlqContinuationDigits d with
  | [f], [c] =>
    match indexOf f base64Digits, indexOf c base64Digits with
    | Some i, Some j => (i =? d) && (j =? d + 32)
    | _, _ => false
    end
  | _, _ => false
  end.

Lemma digits_read_back (d : Z) : 0 <= d < 32 -> digitReadsBack d = true.
Proof.
  intro H.
  assert (E : forallb digitReadsBack (map Z.of_nat (seq 0 32)) = true)
    by (vm_compute; reflexivity).
  rewrite forallb_forall in E. apply E. apply in_map_iff.
  exists (Z.to_nat d). split; [lia|]. apply in_seq. lia.
Qed.

Lemma toInt32_small (z : Z) : - 2 ^ 31 <= z < 2 ^ 31 -> toInt32 z = z.
Proof. intro H. unfold toInt32. rewrite Z.mod_small; lia. Qed.

Lemma shl1_small (z : Z) : - 2 ^ 30 <= z < 2 ^ 30 -> shl1 z = 2 * z.
Proof.
  intro H. unfold shl1. rewrite (toInt32_small z) by lia.
  rewrite toInt32_small; lia.
Qed.

Lemma vlqText_snoc (l : list Z) (m : Z) :
  vlqText (l ++ [m])
  = concat (map (digitAt vlqContinuationDigits) l) ++ digitAt vlqFinalDigits m.
Proof.
  induction l as [|x l IH]; [reflexivity|].
  cbn [app map concat]. rewrite <- app_assoc, <- IH.
  destruct l; reflexivity.
Qed.

Lemma vlq_text (n : Z) :
  - 2 ^ 30 < n < 2 ^ 30 ->
  vlq n = vlqText (digits32 8 (if n <? 0 then 2 * - n + 1 else 2 * n)).
Proof.
  intro H. unfold vlq.
  assert (E : (if n <? 0 then shl1 (- n) + 1 else shl1 n)
              = (if n <? 0 then 2 * - n + 1 else 2 * n)).
  { destruct (Z.ltb_spec n 0); rewrite shl1_small; lia. }
  rewrite E. clear E. set (v := if n <? 0 then 2 * - n + 1 else 2 * n).
  assert (Hv : 0 <= v) by (subst v; destruct (Z.ltb_spec n 0); lia).
  destruct (Z.ltb_spec v 0); [lia|].
  destruct (digits32 8 v) as [|x l] using rev_ind; [reflexivity|].
  rewrite rev_app_distr. cbn [rev app]. rewrite rev_involutive.
  symmetry. apply vlqText_snoc.
Qed.

Lemma digits32_cons (f : nat) (v : Z) :
  (0 < f)%nat -> exists y r, digits32 f v = y :: r.
Proof.
  destruct f as [|f]; [lia|]. intros _. cbn [digits32].
  destruct (v <? 32); eauto.
Qed.

Lemma vlqText_decode (fuel : nat) : forall v shift acc rest,
  0 <= v < 32 ^ Z.of_nat fuel -> (0 < fuel)%nat ->
  vlqDecode shift acc (vlqText (digits32 fuel v) ++ rest)
  = Some (vlqSigned (acc + v * shift), rest).
Proof.
  induction fuel as [|f IH]; intros v shift acc rest Hv Hf; [lia|].
  cbn [digits32]. destruct (Z.ltb_spec v 32) as [Hs|Hb].
  - pose proof (digits_read_back v ltac:(lia)) as Hd. unfold digitReadsBack in Hd.
    cbn [vlqText].
    destruct (digitAt vlqFinalDigits v) as [|c [|? ?]]; try discriminate Hd.
    destruct (digitAt vlqContinuationDigits v) as [|c' [|? ?]]; try discriminate Hd.
    destruct (indexOf c base64Digits) as [i|] eqn:Ei; [|discriminate Hd].
    destruct (indexOf c' base64Digits) as [j|]; [|discriminate Hd].
    apply andb_true_iff in Hd as [Hi _]. apply Z.eqb_eq in Hi. subst i.
    cbn [app vlqDecode]. rewrite Ei. cbv zeta.
    destruct (Z.ltb_spec v 32); [|lia]. rewrite Z.mod_small by lia. reflexivity.
  - assert (Hf' : (0 < f)%nat).
    { destruct f; [|lia]. change (32 ^ Z.of_nat 1) with 32 in Hv. lia. }
    assert (Hq : 0 <= v / 32 < 32 ^ Z.of_nat f).
    { split; [apply Z.div_pos; lia|]. apply Z.div_lt_upper_bound; [lia|].
      rewrite Nat2Z.inj_succ, Z.pow_succ_r in Hv by lia. lia. }
    destruct (digits32_cons f (v / 32) Hf') as (y & r & Er).
    pose proof (IH (v / 32) (shift * 32) (acc + v mod 32 * shift) rest Hq Hf') as IH'.
    rewrite Er in *. cbn [vlqText].
    pose proof (Z.mod_pos_bound v 32 ltac:(lia)) as Hm.
    pose proof (digits_read_back (v mod 32) Hm) as Hd. unfold digitReadsBack in Hd.
    destruct (digitAt vlqFinalDigits (v mod 32)) as [|c [|? ?]]; try discriminate Hd.
    destruct (digitAt vlqContinuationDigits (v mod 32)) as [|c' [|? ?]];
      try discriminate Hd.
    destruct (indexOf c base64Digits) as [i|]; [|discriminate Hd].
    destruct (indexOf c' base64Digits) as [j|] eqn:Ej; [|discriminate Hd].
    apply andb_true_iff in Hd as [_ Hj]. apply Z.eqb_eq in Hj. subst j.
    cbn [app vlqDecode]. rewrite Ej. cbv zeta.
    destruct (Z.ltb_spec (v mod 32 + 32) 32); [lia|].
    replace ((v mod 32 + 32) mod 32) with (v mod 32)
      by (rewrite <- Z.add_mod_idemp_r, Z.mod_same, Z.add_0_r, Z.mod_mod; lia).
    cbn [vlqText] in IH'. rewrite IH'. do 3 f_equal.
    pose proof (Z.div_mod v 32 ltac:(lia)). nia.
Qed.

(** X3: for a number of less than thirty-one bits, what [vlq] writes is the
    Base64 variable-length quantity of the source-map format: read back, it
    gives the number, and the reading stops where the text of [vlq] ends. *)
Theorem X3_vlq_read_back (n : Z) (rest : str) :
  - 2 ^ 30 < n < 2 ^ 30 ->
  vlqDecode 1 0 (vlq n ++ rest) = Some (n, rest).
Proof.
  intro H. rewrite (vlq_text n H).
  assert (Hb : 32 ^ Z.of_nat 8 = 2 ^ 40) by reflexivity.
  rewrite vlqText_decode; [|rewrite Hb; destruct (Z.ltb_spec n 0); lia|lia].
  do 2 f_equal. unfold vlqSigned. rewrite Z.add_0_l, Z.mul_1_r.
  destruct (Z.ltb_spec n 0).
  - assert (E : Z.odd (2 * - n + 1) = true)
      by (rewrite Z.odd_add, Z.odd_mul; reflexivity).
    rewrite E. rewrite <- (Z.div_unique (2 * - n + 1) 2 (- n) 1); lia.
  - assert (E : Z.odd (2 * n) = false) by (rewrite Z.odd_mul; reflexivity).
    rewrite E. rewrite <- (Z.div_unique (2 * n) 2 n 0); lia.
Qed.

Lemma X3_vlq_read_back_witness :
  vlqDecode 1 0 (vlq (-1234567) ++ js "A") = Some (-1234567, js "A").
Proof. apply (X3_vlq_read_back (-1234567) (js "A")). cbn. lia. Defined.

(** X4: past that size the shift of [vlq] wraps to a negative 32-bit
    number, whose text starts with a minus sign: what is written then
    ends with the text [undefined], which is no Base64 digit. *)
Theorem X4_vlq_wraps (n : Z) :
  2 ^ 30 <= n < 2 ^ 31 -> exists t, vlq n = t ++ js "undefined".
Proof.
  intro H. unfold vlq. destruct (Z.ltb_spec n 0); [lia|].
  assert (E : shl1 n = 2 * n - 2 ^ 32).
  { unfold shl1. rewrite (toInt32_small n) by lia. unfold toInt32.
    rewrite <- (Z.mod_unique (n * 2 + 2 ^ 31) (2 ^ 32) 1 (2 * n - 2 ^ 31)); lia. }
  rewrite E. destruct (Z.ltb_spec (2 * n - 2 ^ 32) 0); [|lia]. eauto.
Qed.

Lemma X4_vlq_wraps_witness : exists t, vlq (2 ^ 30) = t ++ js "undefined".
Proof. apply (X4_vlq_wraps (2 ^ 30)). cbn. lia. Defined.

Close Scope Z_scope.

(** ** String literals ([codeStr]) *)

(** The value of a single-quoted JavaScript string literal, as far as the
    escapes that [codeStr] writes go: a backslash before a backslash or a
    quote stands for that character, a backslash before a newline continues
    the line and stands for nothing, a quote ends the literal, and a line
    terminator that is not escaped is an error.  The text after the literal
    is returned with the value. *)
Fixpoint literalValue (s : str) : option (str * str) :=
  match s with
  | [] => None
  | c :: r =>
    if c =? cSq then Some ([], r)
    else if c =? cBsl then
      match r with
      | d :: r' =>
        if d =? cNl then literalValue r'
        else if (d =? cBsl) || (d =? cSq) then
          match literalValue r' with
          | Some (t, rest) => Some (d :: t, rest)
          | None => None
          end
        else None
      | [] => None
      end
    else if (c =? cNl) || (c =? cCr) then None
    else match literalValue r with
         | Some (t, rest) => Some (c :: t, rest)
         | None => None
         end
  end.

Definition readLiteral (s : str) : option (str * str) :=
  match s with
  | c :: r => if c =? cSq then literalValue r else None
  | [] => None
  end.

(** A text without its line breaks (newline, or carriage return and
    newline). *)
Fixpoint dropLineBreaks (s : str) : str :=
  match s with
  | [] => []
  | c :: r =>
    if c =? cNl then dropLineBreaks r
    else match r with
         | d :: r' => if (c =? cCr) && (d =? cNl) then dropLineBreaks r'
                      else c :: dropLineBreaks r
         | [] => [c]
         end
  end.

(** Every carriage return is followed by a newline. *)
Fixpoint noLoneCr (s : str) : bool :=
  match s with
  | [] => true
  | c :: r =>
    if c =? cCr then
      match r with
      | d :: r' => (d =? cNl) && noLoneCr r'
      | [] => false
      end
    else noLoneCr r
  end.

Definition codeBody (s : str) : str :=
  escapeNewlines (escapeSingleQuotes (escapeBackslashes s)).

Lemma codeBody_bsl (r : str) : codeBody (cBsl :: r) = cBsl :: cBsl :: codeBody r.
Proof.
  unfold codeBody. cbn [escapeBackslashes]. closed_eqb.
  cbn [escapeSingleQuotes]. closed_eqb. cbn [escapeNewlines]. closed_eqb.
  cbn [andb]. now destruct (escapeSingleQuotes (escapeBackslashes r)).
Qed.

Lemma codeBody_sq (r : str) : codeBody (cSq :: r) = cBsl :: cSq :: codeBody r.
Proof.
  unfold codeBody. cbn [escapeBackslashes]. closed_eqb.
  cbn [escapeSingleQuotes]. closed_eqb. cbn [escapeNewlines]. closed_eqb.
  cbn [andb]. now destruct (escapeSingleQuotes (escapeBackslashes r)).
Qed.

Lemma codeBody_nl (r : str) : codeBody (cNl :: r) = cBsl :: cNl :: codeBody r.
Proof.
  unfold codeBody. cbn [escapeBackslashes]. closed_eqb.
  cbn [escapeSingleQuotes]. closed_eqb. cbn [escapeNewlines]. closed_eqb.
  reflexivity.
Qed.

Lemma codeBody_crnl (r : str) :
  codeBody (cCr :: cNl :: r) = cBsl :: cNl :: codeBody r.
Proof.
  unfold codeBody. cbn [escapeBackslashes]. closed_eqb.
  cbn [escapeSingleQuotes]. closed_eqb. cbn [escapeNewlines]. closed_eqb.
  reflexivity.
Qed.

Lemma codeBody_other (c : char) (r : str) :
  (c =? cBsl) = false -> (c =? cSq) = false -> (c =? cNl) = false ->
  (c =? cCr) = false -> codeBody (c :: r) = c :: codeBody r.
Proof.
  intros H1 H2 H3 H4. unfold codeBody. cbn [escapeBackslashes]. rewrite H1.
  cbn [escapeSingleQuotes]. rewrite H2. cbn [escapeNewlines]. rewrite H3, H4.
  cbn [andb]. now destruct (escapeSingleQuotes (escapeBackslashes r)).
Qed.

Lemma dropLineBreaks_other (c : char) (r : str) :
  (c =? cNl) = false -> (c =? cCr) = false ->
  dropLineBreaks (c :: r) = c :: dropLineBreaks r.
Proof.
  intros H1 H2. cbn [dropLineBreaks]. rewrite H1, H2. now destruct r.
Qed.

Lemma literalValue_codeBody (n : nat) : forall s rest,
  (length s <= n)%nat -> noLoneCr s = true ->
  literalValue (codeBody s ++ cSq :: rest) = Some (dropLineBreaks s, rest).
Proof.
  induction n as [|n IH]; intros [|c r] rest Hl Hs;
    try (cbn [length] in Hl; lia);
    try (cbn [codeBody escapeBackslashes escapeSingleQuotes escapeNewlines app
              literalValue dropLineBreaks]; now rewrite N.eqb_refl).
  cbn [length] in Hl.
  destruct (c =? cBsl) eqn:E1.
  { apply N.eqb_eq in E1. subst c. rewrite codeBody_bsl.
    cbn [app literalValue]. closed_eqb. cbn [orb].
    cbn [noLoneCr] in Hs. revert Hs. closed_eqb. intro Hs.
    rewrite (IH r rest ltac:(lia) Hs).
    now rewrite dropLineBreaks_other by reflexivity. }
  destruct (c =? cSq) eqn:E2.
  { apply N.eqb_eq in E2. subst c. rewrite codeBody_sq.
    cbn [app literalValue]. closed_eqb. cbn [orb].
    cbn [noLoneCr] in Hs. revert Hs. closed_eqb. intro Hs.
    rewrite (IH r rest ltac:(lia) Hs).
    now rewrite dropLineBreaks_other by reflexivity. }
  destruct (c =? cNl) eqn:E3.
  { apply N.eqb_eq in E3. subst c. rewrite codeBody_nl.
    cbn [app literalValue dropLineBreaks]. closed_eqb.
    cbn [noLoneCr] in Hs. revert Hs. closed_eqb. intro Hs.
    apply IH; [lia|assumption]. }
  destruct (c =? cCr) eqn:E4.
  { apply N.eqb_eq in E4. subst c. cbn [noLoneCr] in Hs. revert Hs. closed_eqb.
    destruct r as [|d r']; [discriminate|]. intro Hs.
    apply andb_true_iff in Hs as [Hd Hs]. apply N.eqb_eq in Hd. subst d.
    rewrite codeBody_crnl. cbn [app literalValue dropLineBreaks]. closed_eqb.
    cbn [andb]. apply IH; [cbn [length] in Hl; lia|assumption]. }
  rewrite codeBody_other by assumption. cbn [app literalValue].
  rewrite E1, E2, E3, E4. cbn [orb].
  cbn [noLoneCr] in Hs. rewrite E4 in Hs.
  rewrite (IH r rest ltac:(lia) Hs).
  now rewrite dropLineBreaks_other by assumption.
Qed.

(** X5: what [codeStr] writes is one well-formed single-quoted literal,
    whatever backslashes and quotes the text holds, and its value is the
    text without its line breaks: each newline, with the carriage return
    before it, is written as a line continuation, which stands for
    nothing (a carriage return with no newline after it is left as it
    is). *)
Theorem X5_codeStr_literal (s rest : str) :
  noLoneCr s = true ->
  readLiteral (codeStr s ++ rest) = Some (dropLineBreaks s, rest).
Proof.
  intro H. unfold codeStr. cbn [app readLiteral]. rewrite N.eqb_refl.
  rewrite <- app_assoc. cbn [app].
  exact (literalValue_codeBody (length s) s rest (le_n _) H).
Qed.

Lemma X5_codeStr_literal_witness :
  readLiteral (codeStr (js "it's a\b" ++ [cCr; cNl] ++ js "c") ++ js ";")
  = Some (js "it's a\bc", js ";").
Proof.
  apply (X5_codeStr_literal (js "it's a\b" ++ [cCr; cNl] ++ js "c") (js ";")).
  reflexivity.
Defined.

(** ** Code without markup, with a source map *)

Open Scope Z_scope.

Lemma extractMappings_pieces (ps : list Piece) :
  forallb wfPiece ps = true ->
  extractMappings (embed ps)
  = mkMappings (emitted ps)
      (join (js ";") (map (join (js ",")) (linesFrom 0 0 0 (markColumns [] ps)))).
Proof.
  intro Hwf. unfold extractMappings.
  rewrite (replaceLocs_pieces ps _ 0 initialMapState Hwf (le_n _)).
  rewrite (runPieces_lines ps [] 0 initialMapState Hwf eq_refl).
  cbn [initialMapState mLines mLine lastGeneratedCol lastSourceLine lastSourceCol app].
  destruct (markColumns [] ps) eqn:E; [now apply markColumns_nonempty in E|].
  reflexivity.
Qed.

(** The pieces of a block of code as [markBlockLocs] marks it: a mark at the
    start, and one after each newline, for the next line and column 0. *)
Fixpoint linePieces (ln : N) (lines : list str) : list Piece :=
  match lines with
  | [] => []
  | l :: r => Newline :: Mark (mkLOC ln 0 0) :: Plain l :: linePieces (ln + 1) r
  end.

Definition blockPieces (loc : LOC) (lines : list str) : list Piece :=
  match lines with
  | [] => [Mark loc]
  | l0 :: r => Mark loc :: Plain l0 :: linePieces (line loc + 1) r
  end.

(** The text expected back: each line behind the comment of its position. *)
Fixpoint numberLines (ln : N) (lines : list str) : list str :=
  match lines with
  | [] => []
  | l :: r => (js "/*" ++ numStr ln ++ js ",0*/" ++ l) :: numberLines (ln + 1) r
  end.

Fixpoint lineMarks (ln : N) (n : nat) : list (list (Z * LOC)) :=
  match n with
  | O => []
  | S k => [(0, mkLOC ln 0 0)] :: lineMarks (ln + 1) k
  end.

Definition noNul (s : str) : bool := forallb (fun c => negb (c =? cNul)%N) s.

Lemma join_cons (sep x : str) (xs : list str) :
  join sep (x :: xs) = x ++ concat (map (fun l => sep ++ l) xs).
Proof.
  revert x. induction xs as [|y ys IH]; intro x.
  - cbn [join map concat]. now rewrite app_nil_r.
  - change (join sep (x :: y :: ys)) with (x ++ sep ++ join sep (y :: ys)).
    cbn [map concat]. rewrite IH, <- (app_assoc sep y). reflexivity.
Qed.

Lemma splitOn_cons (c : char) (s : str) : exists l ls, splitOn c s = l :: ls.
Proof.
  induction s as [|x r IH]; cbn [splitOn]; [eauto|].
  destruct (x =? c)%N; [eauto|]. destruct IH as (l & ls & ->). eauto.
Qed.

Lemma splitOn_plain (s : str) :
  noNul s = true -> Forall (fun l => forallb plainChar l = true) (splitOn cNl s).
Proof.
  unfold noNul. induction s as [|x r IH]; cbn [splitOn forallb]; intro H.
  - repeat constructor.
  - apply andb_true_iff in H as [Hx H]. specialize (IH H).
    destruct (x =? cNl)%N eqn:E; [constructor; [reflexivity|exact IH]|].
    destruct (splitOn cNl r) as [|l ls]; inversion IH; subst;
      constructor; auto; cbn [forallb]; unfold plainChar at 1; rewrite Hx, E; auto.
Qed.

Lemma markLines_pieces (lines : list str) : forall loc i offset,
  concat (map (fun l => [cNl] ++ l) (markLines loc i offset lines))
  = embed (linePieces (line loc + i) lines).
Proof.
  induction lines as [|l r IH]; intros loc i offset; [reflexivity|].
  cbn [markLines map concat linePieces]. rewrite IH.
  unfold embed. cbn [map concat embedPiece app].
  rewrite <- app_assoc, (N.add_assoc (line loc) i 1). reflexivity.
Qed.

Lemma markBlockLocs_pieces (s : str) (loc : LOC) (opts : Params) (m : str) :
  sourcemap opts = Some m ->
  markBlockLocs s loc opts = embed (blockPieces loc (splitOn cNl s)).
Proof.
  intro H. unfold markBlockLocs. rewrite H.
  destruct (splitOn_cons cNl s) as (l0 & r & ->).
  rewrite join_cons, markLines_pieces. reflexivity.
Qed.

Lemma linePieces_wf (lines : list str) : forall ln,
  Forall (fun l => forallb plainChar l = true) lines ->
  forallb wfPiece (linePieces ln lines) = true.
Proof.
  induction lines as [|l r IH]; intros ln H; [reflexivity|].
  inversion H; subst. cbn [linePieces forallb wfPiece andb]. rewrite IH by assumption.
  now rewrite andb_true_r.
Qed.

Lemma blockPieces_wf (loc : LOC) (lines : list str) :
  Forall (fun l => forallb plainChar l = true) lines ->
  forallb wfPiece (blockPieces loc lines) = true.
Proof.
  intro H. destruct lines as [|l0 r]; [reflexivity|]. inversion H; subst.
  cbn [blockPieces forallb wfPiece andb]. rewrite linePieces_wf by assumption.
  now rewrite andb_true_r.
Qed.

Lemma markComment_col0 (ln : N) :
  markComment (Z.of_N ln) (Z.of_N 0) = js "/*" ++ numStr ln ++ js ",0*/".
Proof. unfold markComment. now rewrite !numStrZ_of_N. Qed.

Lemma linePieces_emitted (lines : list str) : forall ln,
  emitted (linePieces ln lines)
  = concat (map (fun l => [cNl] ++ l) (numberLines ln lines)).
Proof.
  induction lines as [|l r IH]; intro ln; [reflexivity|].
  unfold emitted in *. cbn [linePieces map concat emitPiece numberLines line col].
  rewrite IH, markComment_col0, <- !app_assoc. reflexivity.
Qed.

Lemma linePieces_columns (lines : list str) : forall ln out,
  markColumns out (linePieces ln lines) = [] :: lineMarks ln (length lines).
Proof.
  induction lines as [|l r IH]; intros ln out; [reflexivity|].
  cbn [linePieces markColumns length lineMarks]. rewrite IH.
  cbn [consHead]. now rewrite columnOf_newline.
Qed.

Lemma lineMarks_segments (n : nat) : forall ln,
  linesFrom 0 (Z.of_N ln) 0 (lineMarks (ln + 1) n) = repeat [js "AACA"] n.
Proof.
  induction n as [|n IH]; intro ln; [reflexivity|].
  cbn [lineMarks linesFrom segmentsOf lastSource fold_left fst snd repeat line col].
  rewrite IH. do 2 f_equal. unfold segment. cbn [line col].
  replace (Z.of_N (ln + 1) - Z.of_N ln) with 1 by lia. reflexivity.
Qed.

(** The text compiled for such a source, marks included, and what
    [preprocess] makes of it in each mode. *)
Lemma preprocess_code_marked (s : str) (opts : option Options) (m : str) :
  scan InCode (tokenize s) = Clean -> s <> [] ->
  sourcemap (paramsOf opts) = Some m ->
  preprocess s opts
  = let code := markBlockLocs s (mkLOC 0 0 0) (paramsOf opts) in
    if eqs m (js "extract") then
      Ok (OutExtract (mapSrc (extractMappings code))
            (createMap (mappings (extractMappings code)) s (paramsOf opts)))
    else if eqs m (js "append") then
      Ok (OutAppend (mapSrc (extractMappings code))
            (createMap (mappings (extractMappings code)) s (paramsOf opts)))
    else Ok (OutCode code).
Proof.
  intros Hc Hne Hs.
  pose proof (parse_runs (tokenize s) (jsx (paramsOf opts))) as Hp.
  rewrite Hc, tokenize_concat in Hp.
  unfold preprocess. rewrite Hp. cbn [bindR].
  destruct s as [|c r]; [congruence|].
  cbn [pushText accText accSegments accLoc app].
  rewrite transform_codeText; [|intros seg [<-|[]]; eauto|cbn [length]; lia].
  rewrite compile_codeText. cbn [bindR]. rewrite Hs. unfold extractMap. cbv zeta.
  destruct (eqs m (js "extract")); [reflexivity|].
  destruct (eqs m (js "append")); reflexivity.
Qed.

Lemma code_extracted (s : str) (opts : Params) (m : str) :
  sourcemap opts = Some m -> noNul s = true ->
  extractMappings (markBlockLocs s (mkLOC 0 0 0) opts)
  = mkMappings (join [cNl] (numberLines 0 (splitOn cNl s)))
      (join (js ";")
         (js "AAAA" :: repeat (js "AACA") (length (splitOn cNl s) - 1))).
Proof.
  intros Hs Hn. rewrite (markBlockLocs_pieces s _ opts m Hs).
  rewrite extractMappings_pieces by (apply blockPieces_wf, splitOn_plain, Hn).
  destruct (splitOn_cons cNl s) as (l0 & r & ->). f_equal.
  - unfold emitted. cbn [blockPieces map concat emitPiece line col numberLines].
    fold (emitted (linePieces (0 + 1) r)).
    rewrite linePieces_emitted, join_cons, markComment_col0, <- !app_assoc.
    reflexivity.
  - cbn [blockPieces markColumns line]. rewrite linePieces_columns.
    cbn [consHead linesFrom segmentsOf lastSource fold_left fst snd line col map].
    change (Z.of_N 0) with 0.
    pose proof (lineMarks_segments (length r) 0) as E.
    change (Z.of_N 0) with 0 in E. rewrite E.
    cbn [length Nat.sub]. rewrite Nat.sub_0_r. f_equal. f_equal.
    clear E. induction (length r) as [|n IH]; [reflexivity|].
    cbn [repeat map]. now rewrite IH.
Qed.

(** X6: with the source map extracted (or appended), a source that holds no
    markup and no character U+0000 comes back with each of its lines
    behind a comment that tells the line and column 0, and the mappings
    tell just that: one segment a line, at generated column 0, for column 0
    of the same line of the source. *)
Theorem X6_code_with_source_map (s : str) (opts : option Options) :
  scan InCode (tokenize s) = Clean -> s <> [] -> noNul s = true ->
  let src := join [cNl] (numberLines 0 (splitOn cNl s)) in
  let map :=
    createMap (join (js ";")
                 (js "AAAA" :: repeat (js "AACA") (length (splitOn cNl s) - 1)))
              s (paramsOf opts) in
  (sourcemap (paramsOf opts) = Some (js "extract") ->
   preprocess s opts = Ok (OutExtract src map))
  /\ (sourcemap (paramsOf opts) = Some (js "append") ->
      preprocess s opts = Ok (OutAppend src map)).
Proof.
  intros Hc Hne Hn src map. split; intro Hs;
    rewrite (preprocess_code_marked s opts _ Hc Hne Hs);
    cbv zeta; rewrite (code_extracted s _ _ Hs Hn); reflexivity.
Qed.

Definition extractOptions : Options :=
  mkOptions (Some (js "extract")) None None None.

Lemma X6_code_with_source_map_witness :
  preprocess (js "a = 1;" ++ [cNl] ++ js "b = 2;") (Some extractOptions)
  = Ok (OutExtract (js "/*0,0*/a = 1;" ++ [cNl] ++ js "/*1,0*/b = 2;")
          (mkSourceMap 3 (js "out.js") [js "in.js"]
             [js "a = 1;" ++ [cNl] ++ js "b = 2;"] [] (js "AAAA;AACA"))).
Proof.
  apply (X6_code_with_source_map (js "a = 1;" ++ [cNl] ++ js "b = 2;")
           (Some extractOptions));
    first [reflexivity | discriminate].
Defined.

(** X7: any other text given as [sourcemap] turns the marks on but neither
    mode of extraction: the code returned still holds the raw marks, and
    starts with the one of line 0, column 0, between two characters
    U+0000. *)
Theorem X7_other_sourcemap_keeps_marks (s : str) (opts : option Options) (m : str) :
  scan InCode (tokenize s) = Clean -> s <> [] ->
  sourcemap (paramsOf opts) = Some m ->
  eqs m (js "extract") = false -> eqs m (js "append") = false ->
  exists code,
    preprocess s opts = Ok (OutCode (locationMark (mkLOC 0 0 0) ++ code)).
Proof.
  intros Hc Hne Hs H1 H2. rewrite (preprocess_code_marked s opts m Hc Hne Hs).
  cbv zeta. rewrite H1, H2. unfold markBlockLocs. rewrite Hs.
  destruct (splitOn cNl s); [exists []; now rewrite app_nil_r|eauto].
Qed.

Lemma X7_other_sourcemap_keeps_marks_witness :
  exists code,
    preprocess (js "a = 1;") (Some (mkOptions (Some (js "inline")) None None None))
    = Ok (OutCode (locationMark (mkLOC 0 0 0) ++ code)).
Proof.
  apply (X7_other_sourcemap_keeps_marks (js "a = 1;")
           (Some (mkOptions (Some (js "inline")) None None None)) (js "inline"));
    first [reflexivity | discriminate].
Defined.

Close Scope Z_scope.

(** ** Sub-components without properties *)

Definition isOk {A} (r : Res A) : bool :=
  match r with
  | Ok _ => true
  | _ => false
  end.

Lemma bindR_isOk {A B} (m : Res A) (k : A -> Res B) :
  isOk (bindR m k) = true -> exists a, m = Ok a /\ isOk (k a) = true.
Proof. destruct m; cbn [bindR isOk]; intro H; try discriminate H. eauto. Qed.

Lemma emitSubComponent_without_properties (tag : str) (children : list str)
      (ind : str) :
  isOk (emitSubComponent (mkSubComponent tag [] children) ind) = false.
Proof. reflexivity. Qed.

Lemma subcomponent_never_ok (opts : Params) (fuel : nat) (tag : str)
      (content : list Content) (loc : LOC) (ind : str) :
  upperStart tag = true ->
  isOk (compileHtmlElement opts fuel (mkHtmlElement tag [] content loc) ind) = false.
Proof.
  intro Hu. destruct fuel as [|f]; [reflexivity|].
  cbn [compileHtmlElement]. rewrite Hu.
  destruct (isOk _) eqn:E; [|reflexivity]. exfalso.
  apply bindR_isOk in E as (code & E & _).
  assert (E' : isOk (bindR (buildSubComponent opts f (mkHtmlElement tag [] content loc))
                       (fun sub => emitSubComponent sub ind)) = true)
    by now rewrite E.
  apply bindR_isOk in E' as (sub & Hb & He).
  destruct f as [|f]; [discriminate Hb|].
  cbn [buildSubComponent forEachIdx bindR] in Hb.
  destruct (mapR _ content) as [children| |]; try discriminate Hb.
  cbn [bindR] in Hb. injection Hb as <-.
  now rewrite emitSubComponent_without_properties in He.
Qed.

Lemma compileSegmentsFrom_never_ok (opts : Params) (bad : CodeSegment) :
  (forall fuel ind,
      match bad with
      | SegElement e => isOk (compileHtmlElement opts fuel e ind) = false
      | CodeText _ _ => False
      end) ->
  forall segs fuel res,
    In bad segs -> isOk (compileSegmentsFrom opts fuel res segs) = false.
Proof.
  intros Hbad segs. induction segs as [|seg r IH]; intros fuel res Hin; [destruct Hin|].
  destruct fuel as [|f]; [reflexivity|]. cbn [compileSegmentsFrom].
  destruct (isOk _) eqn:E; [|reflexivity]. exfalso.
  apply bindR_isOk in E as (code & E & Hk).
  destruct Hin as [->|Hin].
  - destruct bad as [t l|e]; [exact (Hbad O [])|].
    specialize (Hbad f (indent res)). now rewrite E in Hbad.
  - now rewrite (IH f (res ++ code) Hin) in Hk.
Qed.

(** X8: an element that names a sub-component (its tag starts with a capital
    letter) and has no property at all is never compiled: [emitSubComponent]
    assigns the children to the first property group, and there is none.
    With no content either, the element alone throws; and a top level that
    holds such an element gives no code, whatever else it holds. *)
Theorem X8_subcomponent_without_properties (opts : Params) (tag : str)
        (content : list Content) (loc : LOC) :
  upperStart tag = true ->
  (forall fuel ind code,
      compileHtmlElement opts fuel (mkHtmlElement tag [] content loc) ind <> Ok code)
  /\ (forall fuel ind, exists msg,
        compileHtmlElement opts (S (S fuel)) (mkHtmlElement tag [] [] loc) ind
        = Throw msg)
  /\ (forall ctl code,
        In (SegElement (mkHtmlElement tag [] content loc)) (segments ctl) ->
        compile ctl opts <> Ok code).
Proof.
  intro Hu. split; [|split].
  - intros fuel ind code E.
    pose proof (subcomponent_never_ok opts fuel tag content loc ind Hu) as H.
    now rewrite E in H.
  - intros fuel ind. cbn [compileHtmlElement]. rewrite Hu.
    cbn [buildSubComponent forEachIdx mapR bindR filter emitSubComponent
         subProperties]. eauto.
  - intros ctl code Hin E. unfold compile, compileSegments in E.
    pose proof (compileSegmentsFrom_never_ok opts
                  (SegElement (mkHtmlElement tag [] content loc))
                  (fun fuel ind => subcomponent_never_ok opts fuel tag content loc ind Hu)
                  (segments ctl) (compileFuel ctl) [] Hin) as H.
    now rewrite E in H.
Qed.

Lemma X8_subcomponent_without_properties_witness :
  exists msg, preprocess (js "let x = <Foo/>;") None = Throw msg.
Proof.
  destruct (proj1 (proj2 (X8_subcomponent_without_properties
                            (paramsOf None) (js "Foo") [] (mkLOC 0 8 8) eq_refl))
                  2%nat []) as (msg & E).
  exists msg. vm_compute in E. injection E as <-. vm_compute. reflexivity.
Defined.

(** ** The transform pipeline as one recursive rewriting *)

(** The rewriting of a tree from the leaves up: the parts of an element are
    rewritten, and then the element itself, by the four overlays in their
    order ([localNormalize]). *)
Fixpoint normalizeSegment (s : CodeSegment) : CodeSegment :=
  match s with
  | CodeText t l => CodeText t l
  | SegElement e => SegElement (normalizeElement e)
  end
with normalizeElement (e : HtmlElement) : HtmlElement :=
  match e with
  | mkHtmlElement tag ps cs loc =>
    localNormalize
      (mkHtmlElement tag (map normalizeProperty ps) (map normalizeContent cs) loc)
  end
with normalizeProperty (p : Property) : Property :=
  match p with
  | StaticProperty n v => StaticProperty n v
  | DynamicProperty n code l => DynamicProperty n (map normalizeSegment code) l
  | Mixin code l => Mixin (map normalizeSegment code) l
  end
with normalizeContent (c : Content) : Content :=
  match c with
  | ContElement e => ContElement (normalizeElement e)
  | HtmlText t => HtmlText t
  | HtmlComment t => HtmlComment t
  | HtmlInsert code l => HtmlInsert (map normalizeSegment code) l
  end.

Definition isNormalized (e e' : HtmlElement) : Prop := e' = normalizeElement e.

Lemma RSeg_normalize (segs segs' : list CodeSegment) :
  Forall2 (RSeg isNormalized) segs segs' -> segs' = map normalizeSegment segs.
Proof.
  induction 1 as [|s s' l l' H F IH]; [reflexivity|]. cbn [map]. rewrite <- IH.
  f_equal. destruct s as [t l0|e]; cbn [RSeg normalizeSegment] in *; [exact H|].
  destruct H as (e' & -> & ->). reflexivity.
Qed.

Lemma RProp_normalize (ps ps' : list Property) :
  Forall2 (RProp isNormalized) ps ps' -> ps' = map normalizeProperty ps.
Proof.
  induction 1 as [|p p' l l' H F IH]; [reflexivity|]. cbn [map]. rewrite <- IH.
  f_equal. destruct p as [n v|n c l0|c l0]; cbn [RProp normalizeProperty] in *.
  - exact H.
  - destruct H as (c' & -> & H). now rewrite (RSeg_normalize _ _ H).
  - destruct H as (c' & -> & H). now rewrite (RSeg_normalize _ _ H).
Qed.

Lemma RCont_normalize (cs cs' : list Content) :
  Forall2 (RCont isNormalized) cs cs' -> cs' = map normalizeContent cs.
Proof.
  induction 1 as [|c c' l l' H F IH]; [reflexivity|]. cbn [map]. rewrite <- IH.
  f_equal. destruct c as [e|t|t|code l0]; cbn [RCont normalizeContent] in *;
    try exact H.
  - destruct H as (e' & -> & ->). reflexivity.
  - destruct H as (code' & -> & H). now rewrite (RSeg_normalize _ _ H).
Qed.

Lemma propName_normalize (p : Property) : propName (normalizeProperty p) = propName p.
Proof. now destruct p. Qed.

Lemma existsb_hasName_normalize (n : str) (ps : list Property) :
  existsb (hasName n) (map normalizeProperty ps) = existsb (hasName n) ps.
Proof.
  induction ps as [|p r IH]; [reflexivity|]. cbn [map existsb]. rewrite IH.
  unfold hasName. now rewrite propName_normalize.
Qed.

Lemma keepLast_normalize (ps : list Property) :
  keepLast (map normalizeProperty ps) = map normalizeProperty (keepLast ps).
Proof.
  induction ps as [|p r IH]; [reflexivity|]. cbn [map keepLast].
  rewrite propName_normalize, IH.
  destruct (propName p) as [n|]; [|reflexivity].
  rewrite existsb_hasName_normalize.
  destruct (negb (existsb (hasName n) r)); reflexivity.
Qed.

Lemma filter_nonWhitespace_normalize (cs : list Content) :
  filter nonWhitespace (map normalizeContent cs)
  = map normalizeContent (filter nonWhitespace cs).
Proof.
  induction cs as [|c r IH]; [reflexivity|]. cbn [map filter]. rewrite IH.
  destruct c; cbn [normalizeContent]; try reflexivity.
  destruct (nonWhitespace (HtmlText text)); reflexivity.
Qed.

Lemma promoted_normalize (tag : str) (cs : list Content) :
  promoted tag (map normalizeContent cs) = promoted tag cs.
Proof.
  unfold promoted. rewrite filter_nonWhitespace_normalize.
  destruct (filter nonWhitespace cs) as [|[e|t|t|c l] r]; reflexivity.
Qed.

Lemma translatedProperties_normalize (tag : str) (ps : list Property) :
  translatedProperties tag (map normalizeProperty ps)
  = map normalizeProperty (translatedProperties tag ps).
Proof.
  unfold translatedProperties. destruct (lowerStart tag); [|reflexivity].
  rewrite !map_map. apply map_ext. now intros [n v|n c l|c l].
Qed.

Lemma normalize_step (tag : str) (ps : list Property) (cs : list Content) (loc : LOC)
      (ps' : list Property) (cs' : list Content) :
  Forall2 (RProp isNormalized) (uniqueProperties (stagedProperties tag ps cs)) ps' ->
  Forall2 (RCont isNormalized) (stagedContent tag cs) cs' ->
  isNormalized (mkHtmlElement tag ps cs loc) (mkHtmlElement tag ps' cs' loc).
Proof.
  intros Hp Hc. unfold isNormalized. cbn [normalizeElement].
  rewrite localNormalize_eq, (RProp_normalize _ _ Hp), (RCont_normalize _ _ Hc).
  rewrite !uniqueProperties_keepLast, <- keepLast_normalize.
  unfold stagedProperties, stagedContent.
  rewrite promoted_normalize, translatedProperties_normalize,
    filter_nonWhitespace_normalize.
  destruct (promoted tag cs); [|reflexivity].
  now rewrite map_app, skipn_map.
Qed.

(** X9: the four overlays, chained through their receiver, amount to one
    rewriting of the tree from the leaves up: code text, comments, static
    values and the text kept are left as they are, and every element, once
    its parts are rewritten, loses its white-space text, has the event
    names of its dynamic properties translated and its first text promoted
    when its tag starts with a small letter, and loses the properties
    named again later, in this order.  [transform] returns that tree for
    every tree. *)
Theorem X9_transform_is_normalize (ast : CodeTopLevel) :
  transform ast = Some (mkCodeTopLevel (map normalizeSegment (segments ast))).
Proof.
  destruct (transform_total ast) as (ast' & E). rewrite E. f_equal.
  pose proof (transform_rel isNormalized normalize_step ast ast' E) as H.
  apply RSeg_normalize in H. destruct ast' as [segs']. cbn [segments] in H.
  now rewrite H.
Qed.

(** ** Entities *)

Lemma replaceEntities_plain (HtmlEntites : str -> option str) (raw : str) :
  forall fuel, (length raw <= fuel)%nat ->
  forallb (fun c => negb (c =? cAmp)) raw = true ->
  replaceEntities HtmlEntites fuel raw = raw.
Proof.
  induction raw as [|c r IH]; intros fuel Hf H.
  - destruct fuel; reflexivity.
  - destruct fuel as [|f]; [cbn [length] in Hf; lia|].
    cbn [forallb] in H. apply andb_true_iff in H as [Hc H].
    apply negb_true_iff in Hc. cbn [replaceEntities matchEntity]. rewrite Hc.
    rewrite IH; [reflexivity|cbn [length] in Hf; lia|assumption].
Qed.

(** X10: the entity overlay leaves a text that holds no ampersand as it is,
    whatever the table of named entities. *)
Theorem X10_text_without_ampersand (HtmlEntites : str -> option str) (raw : str) :
  forallb (fun c => negb (c =? cAmp)) raw = true ->
  translateHTMLEntitiesToUnicodeInTextNodes HtmlEntites raw = raw.
Proof. intro H. now apply replaceEntities_plain. Qed.

Lemma X10_text_without_ampersand_witness :
  translateHTMLEntitiesToUnicodeInTextNodes (fun _ => Some (js "?")) (js "a #65; b")
  = js "a #65; b".
Proof.
  apply (X10_text_without_ampersand (fun _ => Some (js "?")) (js "a #65; b")).
  reflexivity.
Defined.

(** ** White space in text nodes (the transform module)

    [text.replace(rx.extraWs, ' ')] of [collapseExtraWhitespaceInTextNodes]:
    from left to right, each longest run of two or more white-space
    characters becomes one space; [inRun] tells that such a run is being
    passed over. *)
Fixpoint collapseFrom (inRun : bool) (s : str) : str :=
  match s with
  | [] => []
  | c :: r =>
    if isSpace c then
      if inRun then collapseFrom true r
      else match r with
           | d :: _ =>
             if isSpace d then cSpace :: collapseFrom true r
             else c :: collapseFrom false r
           | [] => [c]
           end
    else c :: collapseFrom false r
  end.

Definition collapseExtraWhitespace (text : str) : str := collapseFrom false text.

Fixpoint noAdjacentWs (s : str) : bool :=
  match s with
  | [] => true
  | c :: r =>
    match r with
    | d :: _ => negb (isSpace c && isSpace d) && noAdjacentWs r
    | [] => true
    end
  end.

Definition headNotWs (s : str) : bool :=
  match s with
  | c :: _ => negb (isSpace c)
  | [] => true
  end.

Lemma noAdjacentWs_cons (c : char) (s : str) :
  (isSpace c = true -> headNotWs s = true) -> noAdjacentWs s = true ->
  noAdjacentWs (c :: s) = true.
Proof.
  intros Hh Hs. destruct s as [|d r]; [reflexivity|].
  cbn [noAdjacentWs] in *. rewrite Hs, andb_true_r. cbn [headNotWs] in Hh.
  destruct (isSpace c); [|reflexivity]. cbn [andb]. now apply Hh.
Qed.

Lemma collapseFrom_run (s : str) :
  headNotWs (collapseFrom true s) = true
  /\ noAdjacentWs (collapseFrom true s) = true
  /\ noAdjacentWs (collapseFrom false s) = true
  /\ (headNotWs s = true -> headNotWs (collapseFrom false s) = true).
Proof.
  induction s as [|c r (IH1 & IH2 & IH3 & IH4)]; [repeat split; reflexivity|].
  cbn [collapseFrom headNotWs]. destruct (isSpace c) eqn:Ec; cbn [negb].
  - repeat split; try assumption; try discriminate.
    destruct r as [|d r']; [reflexivity|].
    destruct (isSpace d) eqn:Ed.
    + apply noAdjacentWs_cons; [intros _; exact IH1|exact IH2].
    + apply noAdjacentWs_cons; [|exact IH3].
      intros _. apply IH4. cbn [headNotWs]. now rewrite Ed.
  - repeat split; cbn [headNotWs]; rewrite ?Ec; try reflexivity;
      apply noAdjacentWs_cons; try assumption; rewrite Ec; discriminate.
Qed.

Lemma collapseFrom_fixed (s : str) :
  noAdjacentWs s = true -> collapseFrom false s = s.
Proof.
  induction s as [|c r IH]; [reflexivity|]. intro H. cbn [collapseFrom].
  destruct r as [|d r'].
  - now destruct (isSpace c).
  - cbn [noAdjacentWs] in H. apply andb_true_iff in H as [Hcd H].
    rewrite (IH H). destruct (isSpace c); [|reflexivity].
    cbn [andb] in Hcd. apply negb_true_iff in Hcd. now rewrite Hcd.
Qed.

(** X11: after the collapse of extra white space no two white-space
    characters are next to each other in the text, a text that is so
    already is returned as it is, and collapsing twice is collapsing
    once. *)
Theorem X11_collapse_extra_whitespace (text : str) :
  noAdjacentWs (collapseExtraWhitespace text) = true
  /\ (noAdjacentWs text = true -> collapseExtraWhitespace text = text)
  /\ collapseExtraWhitespace (collapseExtraWhitespace text)
     = collapseExtraWhitespace text.
Proof.
  unfold collapseExtraWhitespace.
  destruct (collapseFrom_run text) as (_ & _ & H & _).
  split; [exact H|]. split; [apply collapseFrom_fixed|].
  now apply collapseFrom_fixed.
Qed.

(** ** The runtime's [assign] *)






(** ** Elements that need no computation *)

(** A property is quiet when it is static, or dynamic with an expression
    that is one piece of code without an opening parenthesis; an element is
    quiet when its tag names no sub-component, its properties are quiet (so
    none is a mixin), and its content is text, comments and quiet elements
    (no insert). *)
Definition quietProperty (p : Property) : bool :=
  match p with
  | StaticProperty _ _ => true
  | DynamicProperty _ [CodeText t _] _ => negb (hasParen t)
  | _ => false
  end.

Fixpoint quietElement (e : HtmlElement) : bool :=
  match e with
  | mkHtmlElement tag ps cs _ =>
    negb (upperStart tag) && forallb quietProperty ps && forallb quietContent cs
  end
with quietContent (c : Content) : bool :=
  match c with
  | ContElement e => quietElement e
  | HtmlText _ => true
  | HtmlComment _ => true
  | HtmlInsert _ _ => false
  end.

Section Quiet.

Variable opts : Params.
Hypothesis no_sourcemap : sourcemap opts = None.

Lemma compile_one_text (f : nat) (t : str) (l : LOC) :
  (2 <= f)%nat -> compileSegmentsFrom opts f [] [CodeText t l] = Ok t.
Proof.
  intro H. destruct f as [|[|f]]; try lia.
  cbn [compileSegmentsFrom bindR app]. unfold markBlockLocs.
  now rewrite no_sourcemap.
Qed.

Lemma quiet_exprs (f : nat) (ps : list Property) :
  forallb quietProperty ps = true ->
  Forall (fun p => (depthProp p <= f)%nat) ps ->
  exists exprs,
    mapR (fun p => match p with
                   | StaticProperty _ _ => Ok []
                   | DynamicProperty _ code _ => compileSegmentsFrom opts f [] code
                   | Mixin code _ => compileSegmentsFrom opts f [] code
                   end) ps = Ok exprs
    /\ existsb (fun e => negb (noApparentSignals e)) exprs = false.
Proof.
  induction ps as [|p r IH]; intros Hq Hd; [exists []; split; reflexivity|].
  cbn [forallb] in Hq. apply andb_true_iff in Hq as [Hp Hq].
  inversion Hd as [|? ? Hf Hd']; subst.
  destruct (IH Hq Hd') as (exprs & E & Hn). cbn [mapR].
  destruct p as [n v|n code l|code l]; [| |discriminate Hp].
  - rewrite E. cbn [bindR]. exists ([] :: exprs). split; [reflexivity|].
    cbn [existsb]. now rewrite Hn.
  - destruct code as [|[t l0|e] [|? ?]]; try discriminate Hp.
    cbn [quietProperty] in Hp.
    rewrite compile_one_text, E by (cbn in Hf; lia).
    cbn [bindR]. exists (t :: exprs).
    split; [reflexivity|]. cbn [existsb]. rewrite Hn.
    unfold noApparentSignals. rewrite Hp. reflexivity.
Qed.

Lemma quiet_not_mixin (ps : list Property) :
  forallb quietProperty ps = true -> existsb isMixin ps = false.
Proof.
  induction ps as [|p r IH]; [reflexivity|]. cbn [forallb existsb]. intro H.
  apply andb_true_iff in H as [Hp H]. rewrite (IH H).
  destruct p; try reflexivity. discriminate Hp.
Qed.

Lemma quiet_stmts (ps : list Property) :
  forallb quietProperty ps = true ->
  forall exprs i id n lastMixin finalMixin d,
    snd (buildStmts ps exprs i id n lastMixin finalMixin d) = d.
Proof.
  induction ps as [|p r IH]; intros Hq exprs i id n lastMixin finalMixin d;
    [reflexivity|].
  cbn [forallb] in Hq. apply andb_true_iff in Hq as [Hp Hq].
  destruct exprs as [|e es]; [reflexivity|]. cbn [buildStmts].
  destruct p as [nm v|nm code l|code l]; [| |discriminate Hp];
    specialize (IH Hq es (S i) id n lastMixin finalMixin d);
    destruct (buildStmts r es (S i) id n lastMixin finalMixin d); exact IH.
Qed.

Lemma addStatements_computations (stmts : list str) : forall d,
  computations (fold_left (fun d s => addStatement s d) stmts d) = computations d.
Proof. induction stmts as [|s r IH]; intro d; [reflexivity|]. cbn [fold_left]. now rewrite IH. Qed.

Lemma quiet_children (f : nat) (id : str) (cs : list Content) :
  (forall c, In c cs -> forall n d, exists d',
        buildChild opts f c id n d = Ok d' /\ computations d' = computations d) ->
  forall i d, exists d',
    forEachIdx (fun c i d => buildChild opts f c id i d) i cs d = Ok d'
    /\ computations d' = computations d.
Proof.
  induction cs as [|c r IH]; intros H i d; [exists d; split; reflexivity|].
  cbn [forEachIdx]. destruct (H c (or_introl eq_refl) i d) as (d1 & E1 & C1).
  rewrite E1. cbn [bindR].
  destruct (IH (fun c' Hc => H c' (or_intror Hc)) (S i) d1) as (d2 & E2 & C2).
  exists d2. split; [exact E2|congruence].
Qed.

Lemma quiet_build (fuel : nat) :
  forall e parent n d,
    quietElement e = true -> (2 * depthEl e <= fuel)%nat ->
    exists d', buildHtmlElement opts fuel e parent n d = Ok d'
               /\ computations d' = computations d.
Proof.
  induction fuel as [fuel IH] using lt_wf_ind.
  intros [tag ps cs loc] parent n d Hq Hf.
  cbn [quietElement] in Hq. apply andb_true_iff in Hq as [Hq Hc].
  apply andb_true_iff in Hq as [Hu Hp]. apply negb_true_iff in Hu.
  cbn [depthEl] in Hf. destruct fuel as [|f]; [lia|].
  cbn [buildHtmlElement]. rewrite Hu.
  destruct (addId parent tag n d) as [id d0] eqn:Ea.
  assert (C0 : computations d0 = computations d)
    by (unfold addId in Ea; injection Ea as _ <-; reflexivity).
  assert (Hdp : Forall (fun p => (depthProp p <= f)%nat) ps).
  { apply list_max_map_le. lia. }
  destruct (quiet_exprs f ps Hp Hdp) as (exprs & -> & Hn). cbn [bindR].
  rewrite (quiet_not_mixin ps Hp), Hn. cbn [orb negb].
  set (d1 := addStatement _ d0).
  pose proof (quiet_stmts ps Hp exprs 0%nat id n (lastMixinIndex ps)
                match lastMixinIndex ps with
                | Some j => (S j =? length ps)%nat
                | None => match ps with [] => true | _ :: _ => false end
                end d1) as Hs.
  destruct (buildStmts ps exprs 0 id n _ _ d1) as [stmts d2]. cbn [snd] in Hs. subst d2.
  assert (Hch : forall c, In c cs -> forall n' d', exists d'',
               buildChild opts f c id n' d' = Ok d''
               /\ computations d'' = computations d').
  { intros c Hin n' d'. rewrite forallb_forall in Hc. specialize (Hc c Hin).
    assert (Hdc : (depthCont c <= list_max (map depthCont cs))%nat).
    { assert (Hle : (list_max (map depthCont cs) <= list_max (map depthCont cs))%nat)
        by lia.
      apply list_max_map_le in Hle. rewrite Forall_forall in Hle. now apply Hle. }
    destruct f as [|f']; [lia|]. cbn [buildChild].
    destruct c as [e|t|t|code l]; cbn [quietContent] in Hc; try discriminate Hc.
    - cbn [depthCont] in Hdc. apply IH; [lia|assumption|lia].
    - eexists. split; reflexivity.
    - eexists. split; reflexivity. }
  destruct (quiet_children f id cs Hch 0%nat
              (fold_left (fun d s => addStatement s d) stmts d1)) as (d3 & -> & C3).
  cbn [bindR]. exists d3. split; [reflexivity|].
  rewrite C3, addStatements_computations. exact C0.
Qed.

End Quiet.

(** X13: with no source map asked for, an element whose tag names no
    sub-component, whose properties are static or are dynamic with a piece of
    code that holds no opening parenthesis, and whose content, at any depth,
    is text, comments and elements of the same kind, is built without any
    computation: no [Surplus.S] wrapper is written for it, its properties
    are plain statements.  The property list and the content being not both
    empty, the code of the element is the function expression of
    [emitDOMExpression] over ids and statements alone. *)
Theorem X13_quiet_element_no_computation (opts : Params) (fuel : nat)
        (e : HtmlElement) (ind : str) :
  sourcemap opts = None -> quietElement e = true ->
  (2 * depthEl e <= fuel)%nat ->
  (forall parent n d, exists d',
      buildHtmlElement opts fuel e parent n d = Ok d'
      /\ computations d' = computations d)
  /\ (propertiesOf e <> [] \/ contentOf e <> [] ->
      exists ids statements,
        compileHtmlElement opts (S fuel) e ind
        = Ok (emitDOMExpression opts (mkDOMExpression ids statements []) ind)).
Proof.
  intros Hs Hq Hf. split.
  - intros parent n d. now apply quiet_build.
  - intro Hne. destruct (quiet_build opts Hs fuel e [] 0%nat (mkDOMExpression [] [] [])
                           Hq Hf) as ([ids' stmts' comps'] & E & C).
    cbn [computations] in C. subst comps'.
    destruct e as [tag ps cs loc]. cbn [quietElement] in Hq.
    apply andb_true_iff in Hq as [Hq _]. apply andb_true_iff in Hq as [Hu _].
    apply negb_true_iff in Hu. cbn [compileHtmlElement]. rewrite Hu.
    cbn [propertiesOf contentOf] in Hne.
    exists ids', stmts'.
    destruct ps as [|p ps]; [destruct cs as [|c cs]; [destruct Hne; congruence|]|];
      rewrite E; cbn [bindR]; unfold markLoc; now rewrite Hs.
Qed.

Definition quietExample : HtmlElement :=
  mkHtmlElement (js "div")
    [StaticProperty (js "id") (js "'a'");
     DynamicProperty (js "onclick") [CodeText (js "f") (mkLOC 0 22 22)] (mkLOC 0 13 13)]
    [ContElement (mkHtmlElement (js "b") [] [HtmlText (js "hi")] (mkLOC 0 25 25))]
    (mkLOC 0 0 0).

Lemma X13_quiet_element_no_computation_witness :
  exists ids statements,
    compileHtmlElement (paramsOf None) 15 quietExample []
    = Ok (emitDOMExpression (paramsOf None) (mkDOMExpression ids statements []) []).
Proof.
  apply (X13_quiet_element_no_computation (paramsOf None) 14 quietExample []);
    [reflexivity|reflexivity|vm_compute; lia|left; discriminate].
Defined.

(** ** The locations the parser records *)

(** The location reached after a text: the number of newlines, the number of
    characters after the last of them, and the number of characters. *)
Definition stepLoc (loc : LOC) (x : char) : LOC :=
  if x =? cNl then mkLOC (line loc + 1) 0 (pos loc + 1)
  else mkLOC (line loc) (col loc + 1) (pos loc + 1).

Definition locAfter (text : str) : LOC := fold_left stepLoc text (mkLOC 0 0 0).

(** A token is the newline, or holds no newline. *)
Definition tokOK (t : str) : bool := eqs t [cNl] || notNl t.

Lemma locAfter_app (a b : str) : locAfter (a ++ b) = fold_left stepLoc b (locAfter a).
Proof. unfold locAfter. apply fold_left_app. Qed.

Lemma stepLoc_notNl (m : str) : forall loc,
  notNl m = true ->
  fold_left stepLoc m loc = mkLOC (line loc) (col loc + lenN m) (pos loc + lenN m).
Proof.
  unfold notNl, lenN. induction m as [|x m IH]; intros loc H.
  - cbn [fold_left length N.of_nat]. rewrite !N.add_0_r. now destruct loc.
  - cbn [forallb] in H. apply andb_true_iff in H as [Hx H]. apply negb_true_iff in Hx.
    cbn [fold_left length]. rewrite (IH _ H). unfold stepLoc. rewrite Hx.
    cbn [line col pos]. f_equal; lia.
Qed.

Lemma notNl_firstn (n : nat) (t : str) : notNl t = true -> notNl (firstn n t) = true.
Proof.
  unfold notNl. revert n. induction t as [|x t IH]; intros [|n] H; try reflexivity.
  cbn [forallb firstn] in *. apply andb_true_iff in H as [-> H]. now rewrite IH.
Qed.

Lemma notNl_skipn (n : nat) (t : str) : notNl t = true -> notNl (skipn n t) = true.
Proof.
  unfold notNl. revert n. induction t as [|x t IH]; intros [|n] H; try assumption.
  cbn [forallb skipn] in *. apply andb_true_iff in H as [_ H]. now apply IH.
Qed.

Lemma tokOK_cases (t : str) : tokOK t = true -> t = [cNl] \/ notNl t = true.
Proof.
  unfold tokOK. intro H. apply orb_true_iff in H as [H|H]; [left|right; exact H].
  now apply eqs_true.
Qed.

Section Locations.

Variable TOKS : list str.
Variable jsx : bool.
Variable input : str.

(** A location of the input at which an opening angle bracket stands. *)
Definition atAngle (loc : LOC) : Prop :=
  exists pre post, input = pre ++ cLt :: post /\ loc = locAfter pre.

(** The position of the parser is the location after what it has passed,
    and what it has passed, its token and the tokens to come are the
    input. *)
Definition posInv (st : PState) : Prop :=
  exists passed,
    input = passed ++ TOK st ++ concat (rest st)
    /\ mkLOC (LINE st) (COL st) (POS st) = locAfter passed
    /\ tokOK (TOK st) = true
    /\ Forall (fun t => tokOK t = true) (rest st).

Lemma posInv_NEXT (st st' : PState) (u : unit) :
  posInv st -> NEXT st = Ok (u, st') -> posInv st'.
Proof.
  intros (passed & Hin & Hloc & Ht & Hr) H. unfold NEXT in H.
  assert (Hl : (if eqs (TOK st) [cNl] then (LINE st + 1, 0, POS st + 1)
                else (LINE st, COL st + lenN (TOK st), POS st + lenN (TOK st)))
               = (line (locAfter (passed ++ TOK st)),
                  col (locAfter (passed ++ TOK st)),
                  pos (locAfter (passed ++ TOK st)))).
  { rewrite locAfter_app, <- Hloc. destruct (eqs (TOK st) [cNl]) eqn:E.
    - apply eqs_true in E. rewrite E. reflexivity.
    - destruct (tokOK_cases _ Ht) as [E'|Hn];
        [rewrite E', eqs_refl in E; discriminate E|].
      now rewrite (stepLoc_notNl _ _ Hn). }
  rewrite Hl in H. clear Hl.
  destruct (rest st) as [|t r] eqn:Er; injection H as _ <-;
    exists (passed ++ TOK st); cbn [TOK rest LINE COL POS].
  - repeat split; try (now destruct (locAfter (passed ++ TOK st))); try constructor.
    now rewrite Hin, <- app_assoc.
  - apply Forall_cons_iff in Hr as [Ht1 Hr1].
    repeat split; try (now destruct (locAfter (passed ++ TOK st))); try assumption.
    now rewrite Hin, <- app_assoc.
Qed.

Lemma posInv_SPLIT (rx : str -> nat) (st st' : PState) (m : str) :
  posInv st -> rx [cNl] = O \/ eqs (TOK st) [cNl] = false ->
  SPLIT rx st = Ok (m, st') -> posInv st'.
Proof.
  intros Hi Hrx H. unfold SPLIT in H.
  destruct (rx (TOK st)) as [|n] eqn:En; [now injection H as _ <-|].
  set (k := S n) in *. cbv zeta in H.
  assert (Hi1 : posInv (mkPState (skipn k (TOK st)) (rest st) (EOF st) (LINE st)
                          (COL st + lenN (firstn k (TOK st)))
                          (POS st + lenN (firstn k (TOK st))))).
  { destruct Hi as (passed & Hin & Hloc & Ht & Hr).
    assert (Hn : notNl (TOK st) = true).
    { destruct (tokOK_cases _ Ht) as [E|Hn]; [|exact Hn].
      destruct Hrx as [Hrx|Hrx]; [rewrite E in En; subst k; congruence|].
      rewrite E, eqs_refl in Hrx. discriminate Hrx. }
    exists (passed ++ firstn k (TOK st)). cbn [TOK rest LINE COL POS].
    repeat split; try assumption.
    - rewrite <- app_assoc, (app_assoc (firstn k (TOK st))), firstn_skipn. exact Hin.
    - rewrite locAfter_app, <- Hloc.
      now rewrite (stepLoc_notNl _ _ (notNl_firstn k _ Hn)).
    - unfold tokOK. now rewrite (notNl_skipn k _ Hn), orb_true_r. }
  cbn [TOK] in H. destruct (skipn k (TOK st)) as [|x r] eqn:Es.
  - destruct (NEXT _) as [[u st1]| |] eqn:E; try discriminate H.
    injection H as _ <-. eapply posInv_NEXT; [|exact E]. exact Hi1.
  - injection H as _ <-. exact Hi1.
Qed.

Lemma posInv_SKIPWS (fuel : nat) : forall st st' u,
  posInv st -> SKIPWS fuel st = Ok (u, st') -> posInv st'.
Proof.
  induction fuel as [|f IH]; intros st st' u Hi H; [discriminate H|].
  cbn [SKIPWS] in H. rewrite bind_curTOK in H.
  destruct (eqs (TOK st) [cNl]) eqn:E.
  - pstep H. eapply IH; [|exact H]. eapply posInv_NEXT; eassumption.
  - destruct (matchLeadingWs (TOK st)); [pstep H; assumption|].
    pstep H. eapply IH; [|exact H]. eapply posInv_SPLIT; [exact Hi| |eassumption].
    now right.
Qed.

Lemma posInv_quotedLoop (fuel : nat) : forall quote text start st r st',
  posInv st -> quotedLoop TOKS fuel quote text start st = Ok (r, st') -> posInv st'.
Proof.
  induction fuel as [|f IH]; intros quote text start st r st' Hi H; [discriminate H|].
  cbn [quotedLoop] in H. pstep H. pstep H. pstep H.
  - pstep H. eapply IH; [|exact H]. eapply posInv_NEXT; eassumption.
  - pstep H; [pstep H|]. pstep H. pstep H. eapply posInv_NEXT; eassumption.
Qed.

Lemma posInv_quotedString (fuel : nat) (st : PState) (r : str) (st' : PState) :
  posInv st -> quotedString TOKS fuel st = Ok (r, st') -> posInv st'.
Proof.
  intros Hi H. unfold quotedString in H. pstep H. pstep H; [pstep H|].
  pstep H. pstep H. eapply posInv_quotedLoop; [|exact H].
  eapply posInv_NEXT; eassumption.
Qed.

Lemma posInv_singleLineLoop (fuel : nat) : forall text st r st',
  posInv st -> singleLineLoop fuel text st = Ok (r, st') -> posInv st'.
Proof.
  induction fuel as [|f IH]; intros text st r st' Hi H; [discriminate H|].
  cbn [singleLineLoop] in H. pstep H. pstep H. pstep H.
  - pstep H. eapply IH; [|exact H]. eapply posInv_NEXT; eassumption.
  - pstep H.
    + pstep H. pstep H. eapply posInv_NEXT; eassumption.
    + pstep H. assumption.
Qed.

Lemma posInv_codeSingleLineComment (fuel : nat) (st : PState) (r : str) (st' : PState) :
  posInv st -> codeSingleLineComment TOKS fuel st = Ok (r, st') -> posInv st'.
Proof.
  intros Hi H. unfold codeSingleLineComment in H. pstep H. pstep H; [pstep H|].
  eapply posInv_singleLineLoop; eassumption.
Qed.

Lemma posInv_multiLineLoop (fuel : nat) : forall text start st r st',
  posInv st -> multiLineLoop TOKS fuel text start st = Ok (r, st') -> posInv st'.
Proof.
  induction fuel as [|f IH]; intros text start st r st' Hi H; [discriminate H|].
  cbn [multiLineLoop] in H. pstep H. pstep H. pstep H.
  - pstep H. eapply IH; [|exact H]. eapply posInv_NEXT; eassumption.
  - pstep H; [pstep H|]. pstep H. pstep H. eapply posInv_NEXT; eassumption.
Qed.

Lemma posInv_codeMultiLineComment (fuel : nat) (st : PState) (r : str) (st' : PState) :
  posInv st -> codeMultiLineComment TOKS fuel st = Ok (r, st') -> posInv st'.
Proof.
  intros Hi H. unfold codeMultiLineComment in H. pstep H. pstep H; [pstep H|].
  pstep H. eapply posInv_multiLineLoop; eassumption.
Qed.

Lemma posInv_htmlTextLoop (fuel : nat) : forall text st c st',
  posInv st -> htmlTextLoop jsx fuel text st = Ok (c, st') ->
  posInv st' /\ exists t, c = HtmlText t.
Proof.
  induction fuel as [|f IH]; intros text st c st' Hi H; [discriminate H|].
  cbn [htmlTextLoop] in H. pstep H. pstep H. pstep H.
  - pstep H. eapply IH; [|exact H]. eapply posInv_NEXT; eassumption.
  - pstep H. eauto.
Qed.

Lemma posInv_htmlCommentLoop (fuel : nat) : forall text start st c st',
  posInv st -> htmlCommentLoop TOKS fuel text start st = Ok (c, st') ->
  posInv st' /\ exists t, c = HtmlComment t.
Proof.
  induction fuel as [|f IH]; intros text start st c st' Hi H; [discriminate H|].
  cbn [htmlCommentLoop] in H. pstep H. pstep H. pstep H.
  - pstep H. eapply IH; [|exact H]. eapply posInv_NEXT; eassumption.
  - pstep H; [pstep H|]. pstep H. pstep H. split; [|eauto].
    eapply posInv_NEXT; eassumption.
Qed.

Lemma posInv_htmlComment (fuel : nat) (st : PState) (c : Content) (st' : PState) :
  posInv st -> htmlComment TOKS fuel st = Ok (c, st') ->
  posInv st' /\ exists t, c = HtmlComment t.
Proof.
  intros Hi H. unfold htmlComment in H. pstep H. pstep H; [pstep H|].
  pstep H. pstep H. eapply posInv_htmlCommentLoop; [|exact H].
  eapply posInv_NEXT; eassumption.
Qed.

(** Every element of a tree, at any depth, is at an opening angle bracket
    of the input. *)
Inductive locSeg : CodeSegment -> Prop :=
  | locSeg_text t l : locSeg (CodeText t l)
  | locSeg_element e : locEl e -> locSeg (SegElement e)
with locEl : HtmlElement -> Prop :=
  | locEl_intro tag ps cs loc :
      atAngle loc -> Forall locProp ps -> Forall locCont cs ->
      locEl (mkHtmlElement tag ps cs loc)
with locProp : Property -> Prop :=
  | locProp_static n v : locProp (StaticProperty n v)
  | locProp_dynamic n code l : Forall locSeg code -> locProp (DynamicProperty n code l)
  | locProp_mixin code l : Forall locSeg code -> locProp (Mixin code l)
with locCont : Content -> Prop :=
  | locCont_element e : locEl e -> locCont (ContElement e)
  | locCont_text t : locCont (HtmlText t)
  | locCont_comment t : locCont (HtmlComment t)
  | locCont_insert code l : Forall locSeg code -> locCont (HtmlInsert code l).

Ltac pinv :=
  repeat match goal with
         | Hi : posInv ?s0, Hm : NEXT ?s0 = Ok (_, _) |- _ =>
           apply (posInv_NEXT _ _ _ Hi) in Hm
         | Hi : posInv ?s0, Hm : SKIPWS _ ?s0 = Ok (_, _) |- _ =>
           apply (posInv_SKIPWS _ _ _ _ Hi) in Hm
         | Hi : posInv ?s0, Hm : quotedString _ _ ?s0 = Ok (_, _) |- _ =>
           apply (posInv_quotedString _ _ _ _ Hi) in Hm
         | Hi : posInv ?s0, Hm : codeSingleLineComment _ _ ?s0 = Ok (_, _) |- _ =>
           apply (posInv_codeSingleLineComment _ _ _ _ Hi) in Hm
         | Hi : posInv ?s0, Hm : codeMultiLineComment _ _ ?s0 = Ok (_, _) |- _ =>
           apply (posInv_codeMultiLineComment _ _ _ _ Hi) in Hm
         | Hi : posInv ?s0, Hm : SPLIT matchIdentifier ?s0 = Ok (_, _) |- _ =>
           apply (posInv_SPLIT _ _ _ _ Hi (or_introl eq_refl)) in Hm
         | Hi : posInv ?s0, Hm : SPLIT matchCodeContinuation ?s0 = Ok (_, _) |- _ =>
           apply (posInv_SPLIT _ _ _ _ Hi (or_introl eq_refl)) in Hm
         end.

Lemma pushText_loc (a : CodeAcc) :
  Forall locSeg (accSegments a) -> Forall locSeg (pushText a).
Proof.
  intro H. unfold pushText. destruct (accText a); [assumption|].
  apply Forall_app. split; [assumption|]. repeat constructor.
Qed.

Lemma jsxFinish_loc (n : nat) (segs : list CodeSegment) (last : str) (loc : LOC)
  (code : EmbeddedCode) :
  Forall locSeg segs -> jsxFinish n segs last loc = Ok code -> Forall locSeg code.
Proof.
  intros Hw H. unfold jsxFinish in H. destruct segs as [|[t l|e] r].
  - injection H as <-. repeat constructor.
  - injection H as <-. constructor; [constructor|].
    apply Forall_app. split; [now inversion Hw|]. repeat constructor.
  - discriminate H.
Qed.

Definition locCode (pe : P EmbeddedCode) : Prop :=
  forall st code st', posInv st -> pe st = Ok (code, st') ->
                      posInv st' /\ Forall locSeg code.

Definition locElement (fuel : nat) : Prop :=
  forall st e st', posInv st -> htmlElement TOKS jsx fuel st = Ok (e, st') ->
                   posInv st' /\ locEl e.
Definition locProperties (fuel : nat) : Prop :=
  forall acc st ps st',
    posInv st -> Forall locProp acc ->
    propertiesLoop TOKS jsx fuel acc st = Ok (ps, st') ->
    posInv st' /\ Forall locProp ps.
Definition locContent (fuel : nat) : Prop :=
  forall acc st cs st',
    posInv st -> Forall locCont acc ->
    contentLoop TOKS jsx fuel acc st = Ok (cs, st') ->
    posInv st' /\ Forall locCont cs.
Definition locEmbedded (fuel : nat) : Prop := locCode (embeddedCode TOKS jsx fuel).
Definition locEmbeddedLoop (fuel : nat) : Prop :=
  forall a st a' st',
    posInv st -> Forall locSeg (accSegments a) ->
    embeddedLoop TOKS jsx fuel a st = Ok (a', st') ->
    posInv st' /\ Forall locSeg (accSegments a').
Definition locJsxEmbedded (fuel : nat) : Prop := locCode (jsxEmbeddedCode TOKS jsx fuel).
Definition locBalanced (fuel : nat) : Prop :=
  forall a st a' st',
    posInv st -> Forall locSeg (accSegments a) ->
    balancedParens TOKS jsx fuel a st = Ok (a', st') ->
    posInv st' /\ Forall locSeg (accSegments a').
Definition locBalancedLoop (fuel : nat) : Prop :=
  forall e a st a' st',
    posInv st -> Forall locSeg (accSegments a) ->
    balancedLoop TOKS jsx fuel e a st = Ok (a', st') ->
    posInv st' /\ Forall locSeg (accSegments a').

Definition locAll (fuel : nat) : Prop :=
  locElement fuel /\ locProperties fuel /\ locContent fuel /\ locEmbedded fuel
  /\ locEmbeddedLoop fuel /\ locJsxEmbedded fuel /\ locBalanced fuel
  /\ locBalancedLoop fuel.

Lemma property_loc (fuel : nat) (pe pj : P EmbeddedCode) :
  locCode pe -> locCode pj ->
  forall st p st', posInv st -> property TOKS jsx fuel pe pj st = Ok (p, st') ->
                   posInv st' /\ locProp p.
Proof.
  intros He Hj st p st' Hi H. unfold property in H. pstep H.
  match goal with X : context [matchIdentifier ?t] |- _ =>
    destruct (matchIdentifier t) end; [pstep H|].
  pstep H. pstep H. pstep H. pstep H. pstep H; [pstep H|].
  pstep H. pstep H. pstep H. pstep H.
  - pstep H. pstep H. pinv. split; [assumption|constructor].
  - pstep H.
    + pbind H as code sc Hc. pstep H. pinv.
      apply Hj in Hc; [|assumption]. destruct Hc. split; [assumption|now constructor].
    + pstep H.
      * pbind H as code sc Hc. pstep H. pinv.
        apply He in Hc; [|assumption]. destruct Hc.
        split; [assumption|now constructor].
      * pstep H.
Qed.

Lemma mixin_loc (pe : P EmbeddedCode) :
  locCode pe ->
  forall st p st', posInv st -> mixin TOKS pe st = Ok (p, st') ->
                   posInv st' /\ locProp p.
Proof.
  intros He st p st' Hi H. unfold mixin in H. pstep H. pstep H; [pstep H|].
  pstep H. pstep H. pbind H as code sc Hc. pstep H. pinv.
  apply He in Hc; [|assumption]. destruct Hc. split; [assumption|now constructor].
Qed.

Lemma jsxMixin_loc (pj : P EmbeddedCode) :
  locCode pj ->
  forall st p st', posInv st -> jsxMixin TOKS pj st = Ok (p, st') ->
                   posInv st' /\ locProp p.
Proof.
  intros Hj st p st' Hi H. unfold jsxMixin in H. pstep H. pstep H; [pstep H|].
  pstep H. pbind H as code sc Hc. pstep H.
  apply Hj in Hc; [|assumption]. destruct Hc. split; [assumption|now constructor].
Qed.

Lemma htmlInsert_loc (pe : P EmbeddedCode) :
  locCode pe ->
  forall st c st', posInv st -> htmlInsert TOKS pe st = Ok (c, st') ->
                   posInv st' /\ locCont c.
Proof.
  intros He st c st' Hi H. unfold htmlInsert in H. pstep H. pstep H; [pstep H|].
  pstep H. pstep H. pbind H as code sc Hc. pstep H. pinv.
  apply He in Hc; [|assumption]. destruct Hc. split; [assumption|now constructor].
Qed.

Lemma jsxHtmlInsert_loc (pj : P EmbeddedCode) :
  locCode pj ->
  forall st c st', posInv st -> jsxHtmlInsert pj st = Ok (c, st') ->
                   posInv st' /\ locCont c.
Proof.
  intros Hj st c st' Hi H. unfold jsxHtmlInsert in H. pstep H.
  pbind H as code sc Hc. pstep H.
  apply Hj in Hc; [|assumption]. destruct Hc. split; [assumption|now constructor].
Qed.

Lemma loc_embeddedLoop_step (f : nat) : locAll f -> locEmbeddedLoop (S f).
Proof.
  intros (_ & _ & _ & _ & IHl & _ & IHb & _) a st a' st' Hi Hw H.
  cbn [embeddedLoop] in H. pstep H. pstep H. pstep H.
  - pbind H as a1 s1 Hcall.
    assert (Ha : posInv s1 /\ Forall locSeg (accSegments a1)).
    { match goal with X : context [parens ?t] |- _ => destruct (parens t) end.
      - eapply IHb; eassumption.
      - pstep Hcall.
        + pstep Hcall. pstep Hcall. pinv. split; assumption.
        + pstep Hcall. pstep Hcall. pinv. split; assumption. }
    destruct Ha. eapply IHl; eassumption.
  - pstep H. split; assumption.
Qed.

Lemma loc_embedded_step (f : nat) : locAll f -> locEmbedded (S f).
Proof.
  intros (_ & _ & _ & _ & IHl & _) st code st' Hi H.
  cbn [embeddedCode] in H. pstep H. pbind H as a1 s1 Hcall.
  apply IHl in Hcall; [|assumption|constructor]. destruct Hcall as [Hi1 Hw].
  apply pushText_loc in Hw. destruct (pushText a1); [pstep H|].
  pstep H. split; assumption.
Qed.

Lemma loc_balanced_step (f : nat) : locAll f -> locBalanced (S f).
Proof.
  intros (_ & _ & _ & _ & _ & _ & _ & IHl) a st a' st' Hi Hw H.
  cbn [balancedParens] in H. pstep H. pstep H.
  match goal with X : context [parens ?t] |- _ => destruct (parens t) end; [|pstep H].
  pstep H. pbind H as a1 s1 Hcall. pinv.
  apply IHl in Hcall; [|assumption..]. destruct Hcall as [Hi1 Hw1].
  pstep H. pstep H; [pstep H|].
  pstep H. pstep H. pstep H. pinv. cbn [accSegments]. split; assumption.
Qed.

Lemma loc_balancedLoop_step (f : nat) : locAll f -> locBalancedLoop (S f).
Proof.
  intros (IHe & _ & _ & _ & _ & _ & IHb & IHl) e a st a' st' Hi Hw H.
  cbn [balancedLoop] in H. pstep H. pstep H. pstep H.
  - pbind H as a1 s1 Hcall.
    assert (Ha : posInv s1 /\ Forall locSeg (accSegments a1)).
    { pstep Hcall; [pstep Hcall; pstep Hcall; pinv; split; assumption|].
      pstep Hcall; [pstep Hcall; pstep Hcall; pinv; split; assumption|].
      pstep Hcall; [pstep Hcall; pstep Hcall; pinv; split; assumption|].
      pstep Hcall.
      - pbind Hcall as el se Hel. pstep Hcall. pstep Hcall.
        apply IHe in Hel; [|assumption]. destruct Hel as [Hi1 Hl1].
        split; [assumption|]. cbn [accSegments].
        apply Forall_app. split; [now apply pushText_loc|].
        constructor; [now constructor|constructor].
      - match goal with X : context [parens ?t] |- _ => destruct (parens t) end.
        + eapply IHb; eassumption.
        + pstep Hcall. pstep Hcall. pinv. split; assumption. }
    destruct Ha. eapply IHl; eassumption.
  - pstep H. split; assumption.
Qed.

Lemma loc_jsxEmbedded_step (f : nat) : locAll f -> locJsxEmbedded (S f).
Proof.
  intros (_ & _ & _ & _ & _ & _ & IHb & _) st code st' Hi H.
  cbn [jsxEmbeddedCode] in H. pstep H. pstep H; [pstep H|].
  pstep H. pbind H as a1 s1 Hcall.
  apply IHb in Hcall; [|assumption|constructor]. destruct Hcall as [Hi1 Hw].
  match goal with
  | X : context [jsxFinish ?n ?sg ?t ?l] |- _ =>
    destruct (jsxFinish n sg t l) as [c| |] eqn:E; try discriminate H
  end.
  injection H as <- <-. split; [assumption|]. eapply jsxFinish_loc; eassumption.
Qed.

Lemma loc_properties_step (f : nat) : locAll f -> locProperties (S f).
Proof.
  intros (_ & IHp & _ & IHe & _ & IHj & _) acc st ps st' Hi Hw H.
  cbn [propertiesLoop] in H. pstep H. pstep H. pstep H.
  - pbind H as p0 s1 Hcall. pstep H.
    assert (Hp : posInv s1 /\ locProp p0).
    { match goal with X : context [matchIdentifier ?t] |- _ =>
        destruct (matchIdentifier t) end.
      - pstep Hcall; [eapply mixin_loc; [apply IHe|eassumption..]|].
        pstep Hcall; [eapply jsxMixin_loc; [apply IHj|eassumption..]|].
        pstep Hcall.
      - eapply property_loc; [apply IHe|apply IHj|eassumption..]. }
    destruct Hp as [Hi1 Hp]. pinv.
    eapply IHp; [| |exact H]; [assumption|].
    apply Forall_app. split; [assumption|]. constructor; [assumption|constructor].
  - pstep H. split; assumption.
Qed.

Lemma loc_content_step (f : nat) : locAll f -> locContent (S f).
Proof.
  intros (IHel & _ & IHc & IHe & _ & IHj & _) acc st cs st' Hi Hw H.
  cbn [contentLoop] in H. pstep H. pstep H. pstep H.
  - pbind H as c s1 Hcall.
    assert (Hc : posInv s1 /\ locCont c).
    { pstep Hcall.
      - pbind Hcall as e s2 He. pstep Hcall.
        apply IHel in He; [|assumption]. destruct He.
        split; [assumption|now constructor].
      - pstep Hcall; [eapply htmlInsert_loc; [apply IHe|eassumption..]|].
        pstep Hcall; [eapply jsxHtmlInsert_loc; [apply IHj|eassumption..]|].
        pstep Hcall.
        + destruct (posInv_htmlComment _ _ _ _ Hi Hcall) as [Hi1 (t & ->)].
          split; [assumption|constructor].
        + destruct (posInv_htmlTextLoop _ _ _ _ _ Hi Hcall) as [Hi1 (t & ->)].
          split; [assumption|constructor]. }
    destruct Hc as [Hi1 Hc].
    eapply IHc; [| |exact H]; [assumption|].
    apply Forall_app. split; [assumption|]. constructor; [assumption|constructor].
  - pstep H. split; assumption.
Qed.

Lemma loc_element_step (f : nat) : locAll f -> locElement (S f).
Proof.
  intros (_ & IHp & IHc & _) st e st' Hi H.
  cbn [htmlElement] in H. rewrite bind_NOT in H.
  destruct (eqs (TOK st) (js "<")) eqn:Et; cbn [negb] in H; [|pstep H].
  assert (Ha : atAngle (mkLOC (LINE st) (COL st) (POS st))).
  { destruct Hi as (passed & Hin & Hloc & _). apply eqs_true in Et.
    exists passed, (concat (rest st)). rewrite Et in Hin. split; assumption. }
  rewrite bind_LOC in H. pstep H. pbind H as tag stTag Htag. pinv.
  destruct tag as [|c0 tag]; [pstep H|].
  pstep H. pbind H as ps stPs Hps. pinv.
  apply IHp in Hps; [|assumption|constructor]. destruct Hps as [Hi2 Hps].
  pstep H. pstep H; [pstep H|].
  pstep H. pstep H. pinv. pstep H.
  - pbind H as cs stCs Hcs.
    apply IHc in Hcs; [|assumption|constructor]. destruct Hcs as [Hi3 Hcs].
    pstep H. pstep H; [pstep H|].
    pstep H. pstep H. pinv. pstep H; [pstep H|].
    pstep H. pstep H; [pstep H|]. pstep H. pstep H. pinv.
    split; [assumption|now constructor].
  - pstep H. split; [assumption|]. constructor; [assumption|assumption|constructor].
Qed.

Lemma loc_all (fuel : nat) : locAll fuel.
Proof.
  induction fuel as [|f IH].
  - unfold locAll, locElement, locProperties, locContent, locEmbedded, locEmbeddedLoop,
      locJsxEmbedded, locBalanced, locBalancedLoop, locCode.
    repeat match goal with |- _ /\ _ => split end; intros; discriminate.
  - unfold locAll. repeat match goal with |- _ /\ _ => split end.
    + now apply loc_element_step.
    + now apply loc_properties_step.
    + now apply loc_content_step.
    + now apply loc_embedded_step.
    + now apply loc_embeddedLoop_step.
    + now apply loc_jsxEmbedded_step.
    + now apply loc_balanced_step.
    + now apply loc_balancedLoop_step.
Qed.

Lemma codeTopLevelLoop_loc (fuel : nat) :
  forall segs text loc st ctl st',
    posInv st -> Forall locSeg segs ->
    codeTopLevelLoop TOKS jsx fuel segs text loc st = Ok (ctl, st') ->
    Forall locSeg (segments ctl).
Proof.
  induction fuel as [|f IH]; intros segs text loc st ctl st' Hi Hw H; [discriminate H|].
  cbn [codeTopLevelLoop] in H. pstep H. pstep H. pstep H.
  - pstep H.
    + pbind H as el se Hel. pstep H.
      apply (proj1 (loc_all f)) in Hel; [|assumption]. destruct Hel as [Hi1 Hl].
      eapply IH; [| |exact H]; [assumption|].
      apply Forall_app. split.
      * apply (pushText_loc (mkCodeAcc segs text loc)). assumption.
      * constructor; [now constructor|constructor].
    + pstep H; [pstep H; pinv; eapply IH; eassumption|].
      pstep H; [pstep H; pinv; eapply IH; eassumption|].
      pstep H; [pstep H; pinv; eapply IH; eassumption|].
      pstep H. pinv. eapply IH; eassumption.
  - pstep H. cbn [segments]. apply (pushText_loc (mkCodeAcc segs text loc)). assumption.
Qed.

End Locations.

(** The tokens of the tokenizer are of that kind. *)
Lemma startsWith_split (p s : str) : startsWith p s = true -> exists s', s = p ++ s'.
Proof.
  revert s. induction p as [|x p IH]; intros s H; [exists s; reflexivity|].
  destruct s as [|y s]; [discriminate H|]. cbn [startsWith] in H.
  apply andb_true_iff in H as [Hx H]. apply N.eqb_eq in Hx. subst y.
  destruct (IH s H) as (s' & ->). now exists s'.
Qed.

Ltac tok_facts :=
  repeat match goal with
         | E : (_ && _) = true |- _ => apply andb_true_iff in E; destruct E
         | E : (_ || _) = true |- _ => apply orb_true_iff in E; destruct E
         | E : N.eqb _ _ = true |- _ => apply N.eqb_eq in E; subst
         | E : startsWith _ ?r = true |- _ =>
           apply startsWith_split in E; destruct E as [? E]; subst r
         end.

Lemma fixedToken_ok (c : char) (r : str) (n : nat) :
  fixedToken (c :: r) = Some n -> tokOK (firstn n (c :: r)) = true.
Proof.
  unfold fixedToken.
  change (startsWith (js "<!--") (c :: r)) with ((cLt =? c) && startsWith (js "!--") r).
  change (startsWith (js "-->") (c :: r)) with ((cMinus =? c) && startsWith (js "->") r).
  change (startsWith (js "{...") (c :: r)) with ((cLbrc =? c) && startsWith (js "...") r).
  change (startsWith (js "//") (c :: r)) with ((cSlash =? c) && startsWith [cSlash] r).
  change (startsWith (js "/*") (c :: r)) with ((cSlash =? c) && startsWith [cStar] r).
  change (startsWith (js "*/") (c :: r)) with ((cStar =? c) && startsWith [cSlash] r).
  intro H.
  repeat match type of H with
         | (if ?b then _ else _) = Some _ =>
           destruct b eqn:?;
           [injection H as <-; tok_facts; vm_compute; reflexivity|]
         end.
  discriminate H.
Qed.

Lemma notSpecial_notNl (c : char) : isSpecial c = false -> (c =? cNl) = false.
Proof.
  intro H. destruct (c =? cNl) eqn:E; [|reflexivity].
  apply N.eqb_eq in E. subst c. vm_compute in H. discriminate H.
Qed.

Lemma notNl_step (k : char) (m : nat) (r : str) :
  (k =? cNl) = false -> notNl (firstn m r) = true ->
  notNl (firstn (S m) (k :: r)) = true.
Proof.
  intros Hk H. unfold notNl in *. cbn [firstn forallb]. now rewrite Hk, H.
Qed.

Lemma miscRun_notNl (n : nat) : forall s,
  (length s <= n)%nat -> notNl (firstn (miscRun s) s) = true.
Proof.
  induction n as [|n IH]; intros [|c r] Hl; try reflexivity;
    cbn [length] in Hl; [lia|].
  assert (IHr : notNl (firstn (miscRun r) r) = true) by (apply IH; lia).
  cbn [miscRun]. destruct (negb (isSpecial c)) eqn:E1.
  { apply negb_true_iff in E1. apply notNl_step; [now apply notSpecial_notNl|exact IHr]. }
  destruct (c =? cMinus) eqn:E2.
  { apply N.eqb_eq in E2. subst c. destruct (startsWith (js "->") r); [reflexivity|].
    now apply notNl_step. }
  destruct (c =? cSlash) eqn:E3.
  { apply N.eqb_eq in E3. subst c. destruct r as [|d r']; [now apply notNl_step|].
    destruct ((d =? cGt) || (d =? cSlash) || (d =? cStar)); [reflexivity|].
    now apply notNl_step. }
  destruct (c =? cStar) eqn:E4.
  { apply N.eqb_eq in E4. subst c. destruct (startsWith [cSlash] r); [reflexivity|].
    now apply notNl_step. }
  destruct (c =? cLt) eqn:E5; [|reflexivity].
  apply N.eqb_eq in E5. subst c.
  destruct (nextIsWord r || startsWith [cSlash] r && nextIsWord (skipn 1 r)
            || startsWith (js "!--") r); [reflexivity|].
  destruct r as [|d r']; [now apply notNl_step|].
  destruct (d =? cSlash) eqn:E6; [|now apply notNl_step].
  apply N.eqb_eq in E6. subst d. apply notNl_step; [reflexivity|].
  apply notNl_step; [reflexivity|]. apply IH. cbn [length] in Hl. lia.
Qed.

Lemma tokens_ok (fuel : nat) : forall s,
  Forall (fun t => tokOK t = true) (tokens fuel s).
Proof.
  induction fuel as [|f IH]; intros [|c r]; cbn [tokens]; try constructor.
  - destruct (fixedToken (c :: r)) as [n|] eqn:E.
    + constructor; [now apply fixedToken_ok|apply IH].
    + pose proof (miscRun_notNl (length (c :: r)) (c :: r) (le_n _)) as Hm.
      destruct (miscRun (c :: r)) as [|n]; [apply IH|].
      constructor; [|apply IH]. unfold tokOK. now rewrite Hm, orb_true_r.
Qed.

Lemma located_ElIn (input : str) (x e : HtmlElement) :
  ElIn x e -> locEl input e -> atAngle input (locOf x).
Proof.
  induction 1 as [|tag ps cs loc e Hin _ IH|tag ps cs loc code l e Hin Hin' _ IH
                  |tag ps cs loc n code l e Hin Hin' _ IH
                  |tag ps cs loc code l e Hin Hin' _ IH]; intro Hl.
  - now inversion Hl.
  - inversion Hl as [? ? ? ? _ _ Hcs]; subst. rewrite Forall_forall in Hcs.
    specialize (Hcs _ Hin). inversion Hcs; subst. now apply IH.
  - inversion Hl as [? ? ? ? _ _ Hcs]; subst. rewrite Forall_forall in Hcs.
    specialize (Hcs _ Hin). inversion Hcs as [| | |? ? Hcode]; subst.
    rewrite Forall_forall in Hcode. specialize (Hcode _ Hin').
    inversion Hcode; subst. now apply IH.
  - inversion Hl as [? ? ? ? _ Hps _]; subst. rewrite Forall_forall in Hps.
    specialize (Hps _ Hin). inversion Hps as [|? ? ? Hcode|]; subst.
    rewrite Forall_forall in Hcode. specialize (Hcode _ Hin').
    inversion Hcode; subst. now apply IH.
  - inversion Hl as [? ? ? ? _ Hps _]; subst. rewrite Forall_forall in Hps.
    specialize (Hps _ Hin). inversion Hps as [| |? ? Hcode]; subst.
    rewrite Forall_forall in Hcode. specialize (Hcode _ Hin').
    inversion Hcode; subst. now apply IH.
Qed.

(** X14: every location the parser records for an element is right: in the
    tree parsed from a source, each element, at any depth (among the
    children, or in the code of a property or of an insert), carries the
    line, the column and the offset of a place of the source at which an
    opening angle bracket stands; the line is the number of newlines before
    that place, the column the number of characters after the last of
    them, the offset the number of characters before the place. *)
Theorem X14_element_locations (s : str) (jsx : bool) (ast : CodeTopLevel)
        (x : HtmlElement) :
  parse (tokenize s) jsx = Ok ast -> ElInTop x ast ->
  exists pre post, s = pre ++ cLt :: post /\ locOf x = locAfter pre.
Proof.
  intros H (e & Hin & Hx).
  assert (Hi : posInv s (initialState (tokenize s))).
  { exists []. pose proof (tokens_ok (length s) s) as Hok.
    pose proof (tokenize_concat s) as Hc. unfold tokenize in *. unfold initialState.
    destruct (tokens (length s) s) as [|t r]; cbn [TOK rest LINE COL POS app].
    - repeat split; [now rewrite <- Hc|constructor].
    - apply Forall_cons_iff in Hok as [Ht Hr].
      repeat split; [now rewrite <- Hc|assumption|assumption]. }
  unfold parse, codeTopLevel in H. rewrite bind_LOC in H.
  destruct (codeTopLevelLoop _ _ _ _ _ _ _) as [[ctl st']| |] eqn:E;
    try discriminate H.
  injection H as <-.
  pose proof (codeTopLevelLoop_loc _ _ _ _ _ _ _ _ _ _ Hi (Forall_nil _) E) as Hl.
  rewrite Forall_forall in Hl. specialize (Hl _ Hin). inversion Hl; subst.
  exact (located_ElIn s x e Hx ltac:(assumption)).
Qed.

Lemma X14_element_locations_witness :
  exists pre post,
    js "a;" ++ [cNl] ++ js "b = <p><i/></p>" = pre ++ cLt :: post
    /\ mkLOC 1 7 10 = locAfter pre.
Proof.
  refine (X14_element_locations (js "a;" ++ [cNl] ++ js "b = <p><i/></p>") true
            (mkCodeTopLevel
               [CodeText (js "a;" ++ [cNl] ++ js "b = ") (mkLOC 0 0 0);
                SegElement
                  (mkHtmlElement (js "p") []
                     [ContElement (mkHtmlElement (js "i") [] [] (mkLOC 1 7 10))]
                     (mkLOC 1 4 7))])
            (mkHtmlElement (js "i") [] [] (mkLOC 1 7 10)) _ _).
  - vm_compute. reflexivity.
  - eexists. split; [right; left; reflexivity|].
    eapply ElIn_child; [left; reflexivity|apply ElIn_here].
Defined.

(** ** Text children *)

Lemma shaped_ElIn (x e : HtmlElement) :
  ElIn x e -> wfEl e -> noAdjacentText (contentOf x).
Proof.
  induction 1 as [|tag ps cs loc e Hin _ IH|tag ps cs loc code l e Hin Hin' _ IH
                  |tag ps cs loc n code l e Hin Hin' _ IH
                  |tag ps cs loc code l e Hin Hin' _ IH]; intro Hl.
  - now inversion Hl.
  - inversion Hl as [? ? ? ? _ _ Hcs]; subst. rewrite Forall_forall in Hcs.
    specialize (Hcs _ Hin). inversion Hcs; subst. now apply IH.
  - inversion Hl as [? ? ? ? _ _ Hcs]; subst. rewrite Forall_forall in Hcs.
    specialize (Hcs _ Hin). inversion Hcs as [| | |? ? Hcode]; subst.
    rewrite Forall_forall in Hcode. specialize (Hcode _ Hin').
    inversion Hcode; subst. now apply IH.
  - inversion Hl as [? ? ? ? _ Hps _]; subst. rewrite Forall_forall in Hps.
    specialize (Hps _ Hin). inversion Hps as [|? ? ? Hcode|]; subst.
    rewrite Forall_forall in Hcode. specialize (Hcode _ Hin').
    inversion Hcode; subst. now apply IH.
  - inversion Hl as [? ? ? ? _ Hps _]; subst. rewrite Forall_forall in Hps.
    specialize (Hps _ Hin). inversion Hps as [| |? ? Hcode]; subst.
    rewrite Forall_forall in Hcode. specialize (Hcode _ Hin').
    inversion Hcode; subst. now apply IH.
Qed.

(** X15: the parser reads a run of text as one node: in the tree parsed
    from any list of tokens, no element, at any depth, has two text
    children next to each other. *)
Theorem X15_text_children_merged (toks : list str) (jsx : bool) (ast : CodeTopLevel)
        (x : HtmlElement) :
  parse toks jsx = Ok ast -> ElInTop x ast -> noAdjacentText (contentOf x).
Proof.
  intros H (e & Hin & Hx). pose proof (parse_shape toks jsx ast H) as Hw.
  rewrite Forall_forall in Hw. specialize (Hw _ Hin). inversion Hw; subst.
  now apply (shaped_ElIn x e).
Qed.

Lemma X15_text_children_merged_witness :
  noAdjacentText
    [HtmlText (js "a = b "); ContElement (mkHtmlElement (js "i") [] [] (mkLOC 0 9 9));
     HtmlText (js " c")].
Proof.
  refine (X15_text_children_merged (tokenize (js "<p>a = b <i/> c</p>")) true
            (mkCodeTopLevel
               [SegElement
                  (mkHtmlElement (js "p") []
                     [HtmlText (js "a = b ");
                      ContElement (mkHtmlElement (js "i") [] [] (mkLOC 0 9 9));
                      HtmlText (js " c")]
                     (mkLOC 0 0 0))])
            (mkHtmlElement (js "p") []
               [HtmlText (js "a = b ");
                ContElement (mkHtmlElement (js "i") [] [] (mkLOC 0 9 9));
                HtmlText (js " c")]
               (mkLOC 0 0 0)) _ _).
  - vm_compute. reflexivity.
  - eexists. split; [left; reflexivity|apply ElIn_here].
Defined.
